(** * Digraph.hpp: a directed graph on adjacency lists, with a
      strong-connectivity test and Dijkstra's shortest paths.

    The class template [Digraph<VertexInfo, EdgeInfo>] is embedded
    shallowly.  Its five data members become a record; its mutating
    member functions are computations in a state monad over that record
    whose results record how a C++ call can end (normal return, a thrown
    exception, undefined behaviour); its [const] member functions are
    functions of the record.

    Conventions of the embedding:
    - [int] vertex numbers and the two [int] counters are [Z].  No
      arithmetic is done on vertex numbers.  The counters are only
      incremented, decremented and reset; signed overflow is undefined in
      C++ and is not modelled (a graph holds fewer than 2^31 vertices and
      edges).
    - [double] is Rocq's primitive binary64 [float], so comparisons and
      additions are the IEEE operations the program performs.
    - [std::map<int, T>] is [gmap Z T]; [std::vector] and [std::list] are
      [list]; [std::priority_queue] is the list of its elements, read
      through its comparator.
    - The move constructor and the move assignment hand the three
      containers over and copy the two counters ([std::move] of an [int] is
      a copy).  The language leaves open what a moved-from container
      holds; it is taken to be empty, which is what the implementations of
      the standard library leave. *)

From Stdlib Require Import ZArith Lia Floats.
From stdpp Require Import gmap list strings pretty.

Local Open Scope Z_scope.

(** ** Ways a call can end *)

(** The exceptions the header can raise: its own [DigraphException],
    carrying the [reason] string, and the [std::out_of_range] of
    [std::map::at]. *)
Inductive exn : Type :=
  | DigraphException (reason : string)
  | out_of_range.

(** [Ret a]: the call returns [a].  [Throw x]: it leaves by exception [x].
    [Undefined]: it reaches undefined behaviour (an index outside a
    vector, an iterator outside a container).  [Fuel]: the recursion bound
    of the embedding ran out; this is not a behaviour of the program, and
    the theorems on the two algorithms show it does not arise. *)
Inductive outcome (A : Type) : Type :=
  | Ret (a : A)
  | Throw (x : exn)
  | Undefined
  | Fuel.
Arguments Ret {A} a.
Arguments Throw {A} x.
Arguments Undefined {A}.
Arguments Fuel {A}.

#[global] Instance outcome_ret : MRet outcome := fun A a => Ret a.
#[global] Instance outcome_bind : MBind outcome := fun A B k c =>
  match c with
  | Ret a => k a
  | Throw x => Throw x
  | Undefined => Undefined
  | Fuel => Fuel
  end.

(** A [for] loop over a list that threads an accumulator and stops at the
    first iteration that does not return. *)
Fixpoint foldM {A S : Type} (body : S → A → outcome S) (s : S) (l : list A)
    : outcome S :=
  match l with
  | [] => Ret s
  | x :: r => s' ← body s x; foldM body s' r
  end.

(** ** Vectors *)

(** [vec[i]] read and written through [operator[]], and
    [vec.erase(vec.begin() + i)]: outside [0 <= i < size()] all three are
    undefined. *)
Definition vec_get {A : Type} (vec : list A) (i : Z) : outcome A :=
  if decide (0 ≤ i) then
    match vec !! Z.to_nat i with
    | Some x => Ret x
    | None => Undefined
    end
  else Undefined.

Definition vec_set {A : Type} (vec : list A) (i : Z) (x : A) : outcome (list A) :=
  if decide (0 ≤ i < Z.of_nat (length vec)) then Ret (<[Z.to_nat i := x]> vec)
  else Undefined.

Definition vec_erase {A : Type} (vec : list A) (i : Z) : outcome (list A) :=
  if decide (0 ≤ i < Z.of_nat (length vec)) then Ret (delete (Z.to_nat i) vec)
  else Undefined.

(** [std::find(b, e, x)] followed by [erase]: the first element equal to
    [x] is removed; when there is none, [erase(end())] is undefined. *)
Fixpoint erase_first `{EqDecision A} (x : A) (l : list A) : outcome (list A) :=
  match l with
  | [] => Undefined
  | y :: r => if decide (y = x) then Ret r else r' ← erase_first x r; Ret (y :: r')
  end.

(** The search loop
    [[
      int index = -1;
      for (int i = 0; i < vertices.size(); i++)
          if (vertices.at(i) == vertex) { index = i; break; }
    ]]
    started at position [i]. *)
Fixpoint index_from (i : Z) (vertex : Z) (vertices : list Z) : Z :=
  match vertices with
  | [] => -1
  | x :: r => if decide (x = vertex) then i else index_from (i + 1) vertex r
  end.

(** The same loop without the [break] ([VertexExist]): the last match
    wins. *)
Fixpoint last_index_from (i : Z) (r0 : Z) (vertex : Z) (vertices : list Z) : Z :=
  match vertices with
  | [] => r0
  | x :: r =>
      last_index_from (i + 1) (if decide (x = vertex) then i else r0) vertex r
  end.

(** ** The priority queue of [findShortestPaths] *)

(** [std::numeric_limits<double>::max()]. *)
Definition DBL_MAX : float := 0x1.fffffffffffffp+1023%float.

(** [operator<] of [std::pair<double, int>]. *)
Definition pair_lt (a b : float * Z) : bool :=
  PrimFloat.ltb a.1 b.1 || (negb (PrimFloat.ltb b.1 a.1) && bool_decide (a.2 < b.2)).

(** [std::priority_queue<pair, vector<pair>, std::greater<pair>>]: [top()]
    is an element no other element is below, and [pop()] removes it.
    [pq_extract] returns both: the least element of the list and the list
    without it (the first such element when several are equivalent; the
    loop reads only the vertex of the top, and equivalent pairs carry the
    same vertex). *)
Fixpoint pq_extract (pq : list (float * Z)) : option ((float * Z) * list (float * Z)) :=
  match pq with
  | [] => None
  | x :: r =>
      match pq_extract r with
      | None => Some (x, [])
      | Some (y, r') => if pair_lt y x then Some (y, x :: r') else Some (x, r)
      end
  end.

Definition pq_push (pq : list (float * Z)) (x : float * Z) : list (float * Z) :=
  x :: pq.

(** ** Auxiliary notions on results and on [double] *)

(** The call returns normally. *)
Definition is_Some_Ret {A} (o : outcome A) : Prop := ∃ a, o = Ret a.

(** A [double] that is not below zero: zero of either sign, a positive
    number, plus infinity, or a NaN. *)
Definition not_negative (x : float) : bool :=
  match Prim2SF x with
  | S754_infinity true | S754_finite true _ _ => false
  | _ => true
  end.

(** The same on the specification of a [double]. *)
Definition sf_not_negative (x : spec_float) : bool :=
  match x with
  | S754_infinity true | S754_finite true _ _ => false
  | _ => true
  end.

(** ** The graph *)

Section Digraph.
Context {VertexInfo EdgeInfo : Type}.

Record DigraphEdge : Type := mkEdge {
  fromVertex : Z;
  toVertex : Z;
  einfo : EdgeInfo
}.

Record DigraphVertex : Type := mkVertex {
  vinfo : VertexInfo;
  edges : list DigraphEdge
}.

(** The private members of [Digraph], under their names. *)
Record Digraph : Type := mkDigraph {
  m : gmap Z DigraphVertex;
  v : list Z;
  e : list (Z * Z);
  vertexC : Z;
  edgeC : Z
}.

(** [Digraph()]. *)
Definition Digraph_new : Digraph :=
  {| m := ∅; v := []; e := []; vertexC := 0; edgeC := 0 |}.

(** Mutating member functions: the graph before, the way the call ends and
    the graph after (also when it ends by an exception). *)
Definition M (A : Type) : Type := Digraph → outcome A * Digraph.

#[global] Instance M_ret : MRet M := fun A a g => (Ret a, g).
#[global] Instance M_bind : MBind M := fun A B k c g =>
  match c g with
  | (Ret a, g') => k a g'
  | (Throw x, g') => (Throw x, g')
  | (Undefined, g') => (Undefined, g')
  | (Fuel, g') => (Fuel, g')
  end.

(** A call of a [const] member function, and an assignment to the members. *)
Definition call {A : Type} (f : Digraph → outcome A) : M A := fun g => (f g, g).
Definition modify (f : Digraph → Digraph) : M unit := fun g => (Ret tt, f g).

Fixpoint for_each {A : Type} (l : list A) (body : A → M unit) : M unit :=
  match l with
  | [] => mret tt
  | x :: r => _ ← body x; for_each r body
  end.

(** [mp.at(key)]. *)
Definition map_at (mp : gmap Z DigraphVertex) (key : Z) : outcome DigraphVertex :=
  match mp !! key with
  | Some dv => Ret dv
  | None => Throw out_of_range
  end.

(** *** Private helpers *)

Definition not_exist_reason (vertex : Z) : string :=
  "Vertex " +:+ pretty vertex +:+ "not exist".

(** [VertexExist]: searches the vertex list [v]. *)
Definition VertexExist (vertex : Z) (g : Digraph) : outcome unit :=
  let r := last_index_from 0 (-1) vertex (v g) in
  if decide (r = -1) then Throw (DigraphException (not_exist_reason vertex))
  else Ret tt.

(** [findVertex]: searches the map [m]; the iterator it returns is
    modelled by the vertex record it points to. *)
Definition findVertex (vertex : Z) (g : Digraph) : outcome DigraphVertex :=
  match m g !! vertex with
  | Some dv => Ret dv
  | None => Throw (DigraphException (not_exist_reason vertex))
  end.

Definition findVertexNotExist (vertex : Z) (g : Digraph) : outcome unit :=
  match m g !! vertex with
  | Some _ => Throw (DigraphException ("Vertex " +:+ pretty vertex +:+ " exist"))
  | None => Ret tt
  end.

Definition indexOf (vertex : Z) (vertices : list Z) : Z :=
  index_from 0 vertex vertices.

(** *** Queries *)

Definition vertices (g : Digraph) : list Z := v g.

Definition Digraph_edges (g : Digraph) : list (Z * Z) := e g.

(** [edges(int vertex)]. *)
Definition edges_of (vertex : Z) (g : Digraph) : outcome (list (Z * Z)) :=
  _ ← VertexExist vertex g;
  dv ← map_at (m g) vertex;
  Ret ((λ it, (fromVertex it, toVertex it)) <$> edges dv).

Definition vertexInfo (vertex : Z) (g : Digraph) : outcome VertexInfo :=
  _ ← VertexExist vertex g;
  dv ← map_at (m g) vertex;
  Ret (vinfo dv).

(** The loop of [edgeInfo]: the first edge of the list that points to
    [to]. *)
Fixpoint edgeInfo_loop (to : Z) (l : list DigraphEdge) : outcome EdgeInfo :=
  match l with
  | [] => Throw (DigraphException "No such edge exist")
  | it :: r => if decide (toVertex it = to) then Ret (einfo it) else edgeInfo_loop to r
  end.

Definition edgeInfo (from to : Z) (g : Digraph) : outcome EdgeInfo :=
  _ ← VertexExist from g;
  _ ← VertexExist to g;
  dv ← map_at (m g) from;
  edgeInfo_loop to (edges dv).

Definition vertexCount (g : Digraph) : Z := vertexC g.
Definition edgeCount (g : Digraph) : Z := edgeC g.

(** [edgeCount(int vertex)]. *)
Definition edgeCount_of (vertex : Z) (g : Digraph) : outcome Z :=
  _ ← VertexExist vertex g;
  dv ← map_at (m g) vertex;
  Ret (Z.of_nat (length (edges dv))).

(** *** Mutators *)

Definition addVertex (vertex : Z) (vi : VertexInfo) : M unit :=
  _ ← call (findVertexNotExist vertex);
  _ ← modify (λ g, mkDigraph (m g) (v g) (e g) (vertexC g + 1) (edgeC g));
  _ ← modify (λ g, mkDigraph (m g) (v g ++ [vertex]) (e g) (vertexC g) (edgeC g));
  modify (λ g, mkDigraph (<[vertex := mkVertex vi []]> (m g)) (v g) (e g)
                 (vertexC g) (edgeC g)).

(** The loop of [addEdge] over the edges of the source vertex. *)
Fixpoint addEdge_loop (to : Z) (l : list DigraphEdge) : outcome unit :=
  match l with
  | [] => Ret tt
  | it :: r =>
      if decide (toVertex it = to) then Throw (DigraphException "Edge exist")
      else addEdge_loop to r
  end.

(** [i->second.edges.push_back(ed)] for the iterator [i] at key [from]. *)
Definition push_edge (from : Z) (ed : DigraphEdge) (mp : gmap Z DigraphVertex)
    : gmap Z DigraphVertex :=
  alter (λ dv, mkVertex (vinfo dv) (edges dv ++ [ed])) from mp.

Definition addEdge (from to : Z) (ei : EdgeInfo) : M unit :=
  i ← call (findVertex from);
  j ← call (findVertex to);
  _ ← call (λ _, addEdge_loop to (edges i));
  _ ← modify (λ g, mkDigraph (m g) (v g) (e g) (vertexC g) (edgeC g + 1));
  _ ← modify (λ g, mkDigraph (m g) (v g) (e g ++ [(from, to)]) (vertexC g) (edgeC g));
  modify (λ g, mkDigraph (push_edge from (mkEdge from to ei) (m g)) (v g) (e g)
                 (vertexC g) (edgeC g)).

(** [vertexC = 0; edgeC = 0; m = new_m; v = new_v; e = new_e;] *)
Definition reset : M unit :=
  modify (λ _, Digraph_new).

(** The two loops shared by the copy constructor and the copy assignment:
    every vertex of [d] is added, in the order of [d.v], then every edge,
    vertex by vertex. *)
Definition copy_from (d : Digraph) : M unit :=
  _ ← for_each (v d) (λ n,
        dv ← call (λ _, map_at (m d) n);
        addVertex n (vinfo dv));
  for_each (v d) (λ n,
    dv ← call (λ _, map_at (m d) n);
    for_each (edges dv) (λ edge,
      addEdge (fromVertex edge) (toVertex edge) (einfo edge))).

(** [Digraph(const Digraph& d)]: the members start as [vertexC{0}],
    [edgeC{0}] and empty containers. *)
Definition Digraph_copy (d : Digraph) : outcome unit * Digraph :=
  copy_from d Digraph_new.

(** The body of [operator=(const Digraph& d)] under its guard
    [this != &d]; the guard compares addresses and is part of
    [Store.assign]. *)
Definition assign_from (d : Digraph) : M unit :=
  _ ← reset;
  copy_from d.

(** What a move leaves in the graph [d] it takes the members from:
    [vertexC = std::move(d.vertexC)] and [edgeC = std::move(d.edgeC)] copy
    the counters, so [d] keeps both; [v = std::move(d.v)],
    [e = std::move(d.e)] and [m = std::move(d.m)] leave its containers
    empty. *)
Definition moved_from (d : Digraph) : Digraph :=
  mkDigraph ∅ [] [] (vertexC d) (edgeC d).

(** [Digraph(Digraph&& d)], and the body of [operator=(Digraph&& d)] under
    its guard [this != &d] (which first empties the containers of [*this],
    then does the same five assignments): the graph at [this] afterwards,
    whatever it held, and the graph left in [d]. *)
Definition Digraph_move (d : Digraph) : Digraph * Digraph :=
  (mkDigraph (m d) (v d) (e d) (vertexC d) (edgeC d), moved_from d).

Definition removeVertex (vertex : Z) : M unit := λ g,
  let v_ := filter (λ ve, ve ≠ vertex) (v g) in
  let m_ := m g in
  (_ ← reset;
   _ ← for_each v_ (λ n,
         dv ← call (λ _, map_at m_ n);
         addVertex n (vinfo dv));
   for_each v_ (λ n,
     dv ← call (λ _, map_at m_ n);
     for_each (edges dv) (λ edge,
       if decide (fromVertex edge ≠ vertex ∧ toVertex edge ≠ vertex)
       then addEdge (fromVertex edge) (toVertex edge) (einfo edge)
       else mret tt))) g.

(** [m.at(from).edges = edges_] *)
Definition set_edges (from : Z) (edges_ : list DigraphEdge) : M unit := λ g,
  match m g !! from with
  | Some dv =>
      (Ret tt, mkDigraph (<[from := mkVertex (vinfo dv) edges_]> (m g)) (v g) (e g)
                 (vertexC g) (edgeC g))
  | None => (Throw out_of_range, g)
  end.

Definition removeEdge (from to : Z) : M unit :=
  _ ← call (edgeInfo from to);
  _ ← modify (λ g, mkDigraph (m g) (v g) (e g) (vertexC g) (edgeC g - 1));
  dv ← call (λ g, map_at (m g) from);
  let edges_ :=
    (λ i, mkEdge (fromVertex i) (toVertex i) (einfo i))
      <$> filter (λ i, toVertex i ≠ to) (edges dv) in
  _ ← set_edges from edges_;
  e' ← call (λ g, erase_first (from, to) (e g));
  modify (λ g, mkDigraph (m g) (v g) e' (vertexC g) (edgeC g)).

(** *** Strong connectivity *)

(** [DFTr(vertex, vertices)]: [vertices] is passed by reference and is the
    list of the vertices not visited yet; the result is its value when the
    call returns.  Every nested call works on a list that is shorter by the
    vertex just erased, so [fuel] bounds the depth of the recursion. *)
Fixpoint DFTr (fuel : nat) (g : Digraph) (vertex : Z) (vertices : list Z)
    : outcome (list Z) :=
  match fuel with
  | O => Fuel
  | S fuel' =>
      let index := index_from 0 vertex vertices in
      vertices ← vec_erase vertices index;
      dv ← map_at (m g) vertex;
      foldM (λ vertices edge,
               let index := index_from 0 (toVertex edge) vertices in
               if decide (index ≠ -1) then DFTr fuel' g (toVertex edge) vertices
               else Ret vertices)
            vertices (edges dv)
  end.

(** The loop of [isStronglyConnected] over the remaining roots; [result]
    starts as [true] and the loop breaks at the first root that leaves a
    vertex unvisited. *)
Fixpoint isStronglyConnected_loop (g : Digraph) (roots : list Z) : outcome bool :=
  match roots with
  | [] => Ret true
  | vertex :: r =>
      vertices ← DFTr (length (v g)) g vertex (v g);
      if decide (length vertices ≠ 0%nat) then Ret false
      else isStronglyConnected_loop g r
  end.

Definition isStronglyConnected (g : Digraph) : outcome bool :=
  isStronglyConnected_loop g (v g).

(** *** Shortest paths *)

(** The local variables of [findShortestPaths] that the loop changes. *)
Record sp_state : Type := mkSp {
  Kv : list bool;
  Pv : gmap Z Z;
  Dv : list float;
  pq : list (float * Z)
}.

(** The body of the loop over the outgoing edges of [vertex], whose index
    is [index].  The operands of the comparison are evaluated left to
    right. *)
Definition relax (g : Digraph) (edgeWeightFunc : EdgeInfo → float)
    (vertices : list Z) (vertex index : Z) (st : sp_state) (edge : DigraphEdge)
    : outcome sp_state :=
  let w := toVertex edge in
  let indexW := indexOf w vertices in
  dW ← vec_get (Dv st) indexW;
  dI ← vec_get (Dv st) index;
  ei ← edgeInfo vertex w g;
  if PrimFloat.ltb (PrimFloat.add dI (edgeWeightFunc ei)) dW then
    dI' ← vec_get (Dv st) index;
    ei' ← edgeInfo vertex w g;
    Dv' ← vec_set (Dv st) indexW (PrimFloat.add dI' (edgeWeightFunc ei'));
    let Pv' := <[w := vertex]> (Pv st) in
    dW' ← vec_get Dv' indexW;
    Ret (mkSp (Kv st) Pv' Dv' (pq_push (pq st) (dW', w)))
  else Ret st.

(** The [while (!pq.empty())] loop; one unit of [fuel] per iteration. *)
Fixpoint sp_loop (fuel : nat) (g : Digraph) (edgeWeightFunc : EdgeInfo → float)
    (vertices : list Z) (st : sp_state) : outcome (gmap Z Z) :=
  match fuel with
  | O => Fuel
  | S fuel' =>
      match pq_extract (pq st) with
      | None => Ret (Pv st)
      | Some (top, rest) =>
          let vertex := top.2 in
          let index := indexOf vertex vertices in
          k ← vec_get (Kv st) index;
          if negb k then
            Kv' ← vec_set (Kv st) index true;
            dv ← map_at (m g) vertex;
            st' ← foldM (relax g edgeWeightFunc vertices vertex index)
                        (mkSp Kv' (Pv st) (Dv st) rest) (edges dv);
            sp_loop fuel' g edgeWeightFunc vertices st'
          else sp_loop fuel' g edgeWeightFunc vertices (mkSp (Kv st) (Pv st) (Dv st) rest)
      end
  end.

(** The state the loop starts from, once [Dv[startIndex] = 0] is done. *)
Definition sp_init (g : Digraph) (startVertex : Z) : outcome sp_state :=
  let Kv0 := replicate (length (v g)) false in
  let Pv0 := foldl (λ P vertex, <[vertex := vertex]> P) ∅ (v g) in
  let Dv0 := replicate (length (v g)) DBL_MAX in
  let vertices := v g in
  let startIndex := indexOf startVertex vertices in
  Dv1 ← vec_set Dv0 startIndex 0%float;
  Ret (mkSp Kv0 Pv0 Dv1 (pq_push [] (0%float, startVertex))).

(** Every iteration pops one pair, and a pair is pushed only while the
    edges of a vertex visited for the first time are relaxed: the loop
    runs at most once per edge, once for the start pair and once to find
    the queue empty. *)
Definition sp_fuel (g : Digraph) : nat := S (S (length (e g))).

Definition findShortestPaths (startVertex : Z) (edgeWeightFunc : EdgeInfo → float)
    (g : Digraph) : outcome (gmap Z Z) :=
  st ← sp_init g startVertex;
  sp_loop (sp_fuel g) g edgeWeightFunc (v g) st.

End Digraph.

Arguments DigraphEdge : clear implicits.
Arguments DigraphVertex : clear implicits.
Arguments Digraph : clear implicits.
Arguments M : clear implicits.

(** ** Sequences of public operations *)

Section Operations.
Context {VertexInfo EdgeInfo : Type}.
Local Abbreviation Digraph := (Digraph VertexInfo EdgeInfo).
Local Abbreviation DigraphVertex := (DigraphVertex VertexInfo EdgeInfo).
Local Abbreviation M := (M VertexInfo EdgeInfo).

(** A call of one of the four mutating member functions. *)
Inductive mutation : Type :=
  | AddVertex (vertex : Z) (vi : VertexInfo)
  | AddEdge (from to : Z) (ei : EdgeInfo)
  | RemoveVertex (vertex : Z)
  | RemoveEdge (from to : Z).

Definition perform (op : mutation) : M unit :=
  match op with
  | AddVertex vertex vi => addVertex vertex vi
  | AddEdge from to ei => addEdge from to ei
  | RemoveVertex vertex => removeVertex vertex
  | RemoveEdge from to => removeEdge from to
  end.

(** The graphs built from [Digraph()] by the mutators, whether they return
    or throw, by the copy constructor and by the copy assignment.  A graph
    a move has taken the members from ([moved_from]) is not among them,
    nor is a graph built from such a graph by the mutators; the graph a
    move hands the members to is the graph they came from. *)
Inductive reachable : Digraph → Prop :=
  | reachable_new : reachable Digraph_new
  | reachable_perform op g : reachable g → reachable (perform op g).2
  | reachable_copy d : reachable d → reachable (Digraph_copy d).2
  | reachable_assign g d : reachable g → reachable d → reachable (assign_from d g).2.

(** *** Consistency of the five members *)

Definition out_pairs (l : list (DigraphEdge EdgeInfo)) : list (Z * Z) :=
  (λ it, (fromVertex it, toVertex it)) <$> l.

(** The outgoing edges of [n] (none when [n] is no key of the map). *)
Definition adjacency (mp : gmap Z DigraphVertex) (n : Z)
    : list (DigraphEdge EdgeInfo) :=
  match mp !! n with
  | Some dv => edges dv
  | None => []
  end.

(** The edges held in the adjacency lists, in the order of [v]. *)
Definition all_edges (g : Digraph) : list (Z * Z) :=
  v g ≫= (λ n, out_pairs (adjacency (m g) n)).

(** What the member functions rely on and keep: the list [v] holds the
    keys of [m] once each, every adjacency list is filed under its source
    and points to keys of [m] without repeating a destination, the list
    [e] holds the edges of the adjacency lists, and the counters are the
    sizes of [v] and [e]. *)
Record wf (g : Digraph) : Prop := mkWf {
  wf_v_nodup : NoDup (v g);
  wf_v_dom : ∀ n, n ∈ v g ↔ is_Some (m g !! n);
  wf_from : ∀ n dv ed, m g !! n = Some dv → ed ∈ edges dv → fromVertex ed = n;
  wf_to : ∀ n dv ed, m g !! n = Some dv → ed ∈ edges dv → is_Some (m g !! toVertex ed);
  wf_to_nodup : ∀ n dv, m g !! n = Some dv → NoDup (toVertex <$> edges dv);
  wf_e : e g ≡ₚ all_edges g;
  wf_vertexC : vertexC g = Z.of_nat (length (v g));
  wf_edgeC : edgeC g = Z.of_nat (length (e g))
}.

(** *** The three structural invariants of the data model *)

(** The vertex records of the graph with their identifiers. *)
Definition vertex_records (g : Digraph) : list (Z * DigraphVertex) :=
  map_to_list (m g).

(** The edges of the graph as (source, destination) pairs, vertex record by
    vertex record. *)
Definition edge_pairs (g : Digraph) : list (Z * Z) :=
  vertex_records g ≫= (λ r, out_pairs (edges r.2)).

(** 1. Every edge's source and destination are vertices present. *)
Definition endpoints_present (g : Digraph) : Prop :=
  ∀ a b, (a, b) ∈ edge_pairs g ∨ (a, b) ∈ Digraph_edges g →
    (a ∈ vertices g ∧ is_Some (m g !! a)) ∧ (b ∈ vertices g ∧ is_Some (m g !! b)).

(** 2. No ordered (source, destination) pair occurs twice. *)
Definition no_duplicate_edges (g : Digraph) : Prop :=
  NoDup (edge_pairs g) ∧ NoDup (Digraph_edges g).

(** 3. The counters: the number of distinct identifiers present, and the
    sum of the sizes of the outgoing-edge lists. *)
Definition counts_consistent (g : Digraph) : Prop :=
  vertexCount g = Z.of_nat (size (m g)) ∧
  edgeCount g = Z.of_nat (sum_list ((λ r, length (edges r.2)) <$> vertex_records g)).

Definition invariants (g : Digraph) : Prop :=
  endpoints_present g ∧ no_duplicate_edges g ∧ counts_consistent g.

(** *** Reachability along directed edges *)

Definition edge_rel (g : Digraph) (a b : Z) : Prop :=
  ∃ ed, ed ∈ adjacency (m g) a ∧ toVertex ed = b.

(** [b] is reachable from [a]: a directed path of zero or more edges. *)
Definition path (g : Digraph) : Z → Z → Prop := rtc (edge_rel g).

(** The edges with [vertex] as source or destination, counted in
    [edges()]. *)
Definition incident (vertex : Z) (p : Z * Z) : Prop := p.1 = vertex ∨ p.2 = vertex.

#[global] Instance incident_dec vertex p : Decision (incident vertex p).
Proof. unfold incident. apply _. Defined.

Definition incident_count (vertex : Z) (g : Digraph) : Z :=
  Z.of_nat (length (filter (incident vertex) (Digraph_edges g))).

(** *** Notions used to state what the member functions do *)

(** The two loops that [removeVertex], the copy constructor and the copy
    assignment run on a graph just reset: the vertices of [v_] are added
    with their payloads in [m_], then the edges of [m_] that [keep]
    accepts. *)
Definition rebuild (keep : DigraphEdge EdgeInfo → Prop) `{!∀ x, Decision (keep x)}
    (v_ : list Z) (m_ : gmap Z DigraphVertex) : M unit :=
  _ ← for_each v_ (λ n,
        dv ← call (λ _, map_at m_ n);
        addVertex n (vinfo dv));
  for_each v_ (λ n,
    dv ← call (λ _, map_at m_ n);
    for_each (edges dv) (λ edge,
      if decide (keep edge)
      then addEdge (fromVertex edge) (toVertex edge) (einfo edge)
      else mret tt)).

(** A vertex record with the edges [keep] accepts. *)
Definition strip (keep : DigraphEdge EdgeInfo → Prop) `{!∀ x, Decision (keep x)}
    (dv : DigraphVertex) : DigraphVertex :=
  mkVertex (vinfo dv) (filter keep (edges dv)).

(** The test of [removeVertex] on an edge. *)
Definition keeps (vertex : Z) (edge : DigraphEdge EdgeInfo) : Prop :=
  fromVertex edge ≠ vertex ∧ toVertex edge ≠ vertex.

#[global] Instance keeps_dec vertex edge : Decision (keeps vertex edge).
Proof. unfold keeps. apply _. Defined.

Definition keep_all (edge : DigraphEdge EdgeInfo) : Prop := True.

#[global] Instance keep_all_dec edge : Decision (keep_all edge).
Proof. unfold keep_all. apply _. Defined.

(** What a reachability sweep rooted at [x] leaves of the list [vs] of
    unvisited vertices: a sublist without [x], whose missing vertices are
    all reachable from [x], and such that no edge leads from a missing
    vertex to a vertex of [vs] still listed. *)
Definition swept (g : Digraph) (x : Z) (vs vs' : list Z) : Prop :=
  vs' `sublist_of` vs ∧
  (∀ z, z ∈ vs → z ∉ vs' → path g x z) ∧
  (∀ u w, u ∈ vs → u ∉ vs' → edge_rel g u w → w ∈ vs → w ∉ vs').

(** Every vertex can reach every vertex along directed edges. *)
Definition strongly_connected (g : Digraph) : Prop :=
  ∀ a b, a ∈ vertices g → b ∈ vertices g → path g a b.

(** The weight function never returns a value below zero. *)
Definition nonneg_weights (edgeWeightFunc : EdgeInfo → float) : Prop :=
  ∀ ei, PrimFloat.leb 0%float (edgeWeightFunc ei) = true.

(** The edges still to be relaxed: the outgoing edges of the vertices not
    yet marked in [Kv]. *)
Fixpoint pending (g : Digraph) (vertices : list Z) (marks : list bool) : nat :=
  match vertices, marks with
  | n :: vertices', k :: marks' =>
      ((if k then 0 else length (adjacency (m g) n)) + pending g vertices' marks')%nat
  | _, _ => 0%nat
  end.

(** What holds of the local variables of [findShortestPaths] at every
    iteration of its loop. *)
Record sp_inv (g : Digraph) (startVertex : Z) (edgeWeightFunc : EdgeInfo → float)
    (st : sp_state) : Prop := mkSpInv {
  inv_Kv : length (Kv st) = length (v g);
  inv_Dv : length (Dv st) = length (v g);
  inv_pq : ∀ p, p ∈ pq st → p.2 ∈ v g ∧ path g startVertex p.2;
  inv_dom : ∀ n, is_Some (Pv st !! n) ↔ n ∈ v g;
  inv_pred : ∀ n p, Pv st !! n = Some p → p ≠ n → path g startVertex p ∧ edge_rel g p n;
  inv_start : nonneg_weights edgeWeightFunc →
    Pv st !! startVertex = Some startVertex ∧
    Dv st !! Z.to_nat (indexOf startVertex (v g)) = Some 0%float ∧
    ∀ i d, Dv st !! i = Some d → not_negative d = true
}.

(** Conditions on the sums the loop computes, beyond weights that are not
    below zero: adding a weight to a distance below [DBL_MAX] gives a
    distance below [DBL_MAX] (no sum reaches the value the distances start
    from), and never gives a distance below the one it was added to.  Both
    are hypotheses on the weight function, stated on [double] sums. *)
Definition tame_weights (edgeWeightFunc : EdgeInfo → float) : Prop :=
  nonneg_weights edgeWeightFunc ∧
  (∀ d ei, not_negative d = true → PrimFloat.ltb d DBL_MAX = true →
     PrimFloat.ltb (PrimFloat.add d (edgeWeightFunc ei)) DBL_MAX = true) ∧
  (∀ d ei, not_negative d = true →
     PrimFloat.ltb (PrimFloat.add d (edgeWeightFunc ei)) d = false).

(** The tentative distance of [u] has been improved (or [u] is the start). *)
Definition touched (g : Digraph) (st : sp_state) (u : Z) : Prop :=
  ∃ d, Dv st !! Z.to_nat (indexOf u (v g)) = Some d ∧ PrimFloat.ltb d DBL_MAX = true.

(** [u] is marked in [Kv]. *)
Definition visited (g : Digraph) (st : sp_state) (u : Z) : Prop :=
  Kv st !! Z.to_nat (indexOf u (v g)) = Some true.

(** What holds in addition when the weights are tame; [cur] is the vertex
    whose edges are being relaxed, if any. *)
Record sp_tame (g : Digraph) (startVertex : Z) (cur : option Z) (st : sp_state)
    : Prop := mkSpTame {
  tame_Dv : ∀ i d, Dv st !! i = Some d → d = DBL_MAX ∨ PrimFloat.ltb d DBL_MAX = true;
  tame_start : touched g st startVertex;
  tame_pq : ∀ p, p ∈ pq st → touched g st p.2;
  tame_seen : ∀ u, u ∈ v g → touched g st u →
    visited g st u ∨ ∃ p, p ∈ pq st ∧ p.2 = u;
  tame_pred : ∀ u, u ∈ v g → touched g st u → u ≠ startVertex →
    ∃ p, Pv st !! u = Some p ∧ p ≠ u;
  tame_closed : ∀ u w, u ∈ v g → visited g st u → Some u ≠ cur → edge_rel g u w →
    touched g st w
}.

(** The entries of [P] that map a vertex to itself are exactly those of
    the start vertex and of the vertices it cannot reach. *)
Definition self_exactly_when_start_or_unreachable
    (g : Digraph) (startVertex : Z) (P : gmap Z Z) : Prop :=
  ∀ n, n ∈ vertices g → P !! n = Some n ↔ n = startVertex ∨ ¬ path g startVertex n.

End Operations.

(** ** Objects and references *)

(** Graphs live at addresses; a member function runs on the object at
    [this], and the copy operations read the object their reference
    argument points to. *)
Module Store.
Section Store.
Context {VertexInfo EdgeInfo : Type}.

(** Addresses, and the store that maps the addresses in use to the graphs
    held there. *)
Definition loc : Type := positive.
Local Abbreviation store := (gmap loc (Digraph VertexInfo EdgeInfo)).

(** A member function call [this->op(...)]. *)
Definition on (this : loc) (op : M VertexInfo EdgeInfo unit) (σ : store)
    : outcome unit * store :=
  match σ !! this with
  | Some g => ((op g).1, <[this := (op g).2]> σ)
  | None => (Undefined, σ)
  end.

(** [Digraph this_(d)]: the object under construction at [this] is built
    from the one [d] refers to. *)
Definition construct_copy (this d : loc) (σ : store) : outcome unit * store :=
  match σ !! d with
  | Some gd => ((Digraph_copy gd).1, <[this := (Digraph_copy gd).2]> σ)
  | None => (Undefined, σ)
  end.

(** [*this = d], with its guard [this != &d]. *)
Definition assign (this d : loc) (σ : store) : outcome unit * store :=
  if decide (this ≠ d) then
    match σ !! d with
    | Some gd => on this (assign_from gd) σ
    | None => (Undefined, σ)
    end
  else (Ret tt, σ).

(** [Digraph this_(std::move(d))]: the object under construction at [this]
    takes the members of the one [d] refers to. *)
Definition construct_move (this d : loc) (σ : store) : outcome unit * store :=
  match σ !! d with
  | Some gd => (Ret tt, <[this := (Digraph_move gd).1]> (<[d := (Digraph_move gd).2]> σ))
  | None => (Undefined, σ)
  end.

(** [*this = std::move(d)], with its guard [this != &d]. *)
Definition move_assign (this d : loc) (σ : store) : outcome unit * store :=
  if decide (this ≠ d) then
    match σ !! this, σ !! d with
    | Some _, Some gd =>
        (Ret tt, <[this := (Digraph_move gd).1]> (<[d := (Digraph_move gd).2]> σ))
    | _, _ => (Undefined, σ)
    end
  else (Ret tt, σ).

(** *** The copy operations, statement by statement

    [construct_copy] and [assign] above read the graph [d] refers to once.
    The code reads it through the reference wherever it names [d], while
    it changes the object at [this]; here the two loops run on the store
    in that way.  (A range-[for] reads the list it runs over when it
    starts.) *)
Definition SM (A : Type) : Type := store → outcome A * store.

#[global] Instance SM_ret : MRet SM := fun A a σ => (Ret a, σ).
#[global] Instance SM_bind : MBind SM := fun A B k c σ =>
  match c σ with
  | (Ret a, σ') => k a σ'
  | (Throw x, σ') => (Throw x, σ')
  | (Undefined, σ') => (Undefined, σ')
  | (Fuel, σ') => (Fuel, σ')
  end.

(** The object a reference refers to, and a computation that does not
    touch the store. *)
Definition deref (d : loc) : SM (Digraph VertexInfo EdgeInfo) := λ σ,
  match σ !! d with
  | Some g => (Ret g, σ)
  | None => (Undefined, σ)
  end.

Definition lift {A : Type} (o : outcome A) : SM A := λ σ, (o, σ).

Fixpoint each {A : Type} (l : list A) (body : A → SM unit) : SM unit :=
  match l with
  | [] => mret tt
  | x :: r => _ ← body x; each r body
  end.

(** The member initialisers [vertexC{0}, edgeC{0}] and the default
    construction of the three containers. *)
Definition init (this : loc) : SM unit := λ σ, (Ret tt, <[this := Digraph_new]> σ).

(** [[
      for (int n : d.v) addVertex(n, d.m.at(n).vinfo);
      for (int n : d.v)
          for (auto edge : d.m.at(n).edges)
              addEdge(edge.fromVertex, edge.toVertex, edge.einfo);
    ]] *)
Definition copy_loops (this d : loc) : SM unit :=
  gd ← deref d;
  _ ← each (v gd) (λ n,
        gd ← deref d;
        dv ← lift (map_at (m gd) n);
        (on this (addVertex n (vinfo dv)) : SM unit));
  gd ← deref d;
  each (v gd) (λ n,
    gd ← deref d;
    dv ← lift (map_at (m gd) n);
    each (edges dv) (λ edge,
      (on this (addEdge (fromVertex edge) (toVertex edge) (einfo edge)) : SM unit))).

(** [Digraph(const Digraph& d)] for the object at [this]. *)
Definition copy_constructor (this d : loc) : SM unit :=
  _ ← init this;
  copy_loops this d.

(** [operator=(const Digraph& d)] on the object at [this]. *)
Definition copy_assignment (this d : loc) : SM unit :=
  if decide (this ≠ d) then
    _ ← (on this reset : SM unit);
    copy_loops this d
  else mret tt.

(** A sequence of mutator calls on the object at [this]; a call that
    throws is caught and the sequence goes on. *)
Definition run (this : loc) (ops : list (@mutation VertexInfo EdgeInfo)) (σ : store) : store :=
  foldl (λ σ op, (on this (perform op) σ).2) σ ops.

End Store.

Arguments SM : clear implicits.
End Store.

(** ** Example graphs *)

(** Vertices 1, 2, 3; edges 1→2 of weight 5, 1→3 of weight 2, 3→2 of
    weight 1.  The edge payload is the weight. *)
Definition triangle_ops : list (@mutation unit float) :=
  [AddVertex 1 tt; AddVertex 2 tt; AddVertex 3 tt;
   AddEdge 1 2 5%float; AddEdge 1 3 2%float; AddEdge 3 2 1%float].

Definition build {VertexInfo EdgeInfo : Type} (ops : list (@mutation VertexInfo EdgeInfo))
    : Digraph VertexInfo EdgeInfo :=
  foldl (λ g op, (perform op g).2) Digraph_new ops.

Definition triangle : Digraph unit float := build triangle_ops.

(** Vertices 1 and 2 and the edge 1→2, with the weight function that gives
    every edge the largest finite [double]. *)
Definition heavy : Digraph unit unit :=
  build [AddVertex 1 tt; AddVertex 2 tt; AddEdge 1 2 tt].

Definition heavy_weight (ei : unit) : float := DBL_MAX.

(** Vertices 1, 2, 3 and the cycle 1→2, 2→3, 3→1. *)
Definition cycle : Digraph unit unit :=
  build [AddVertex 1 tt; AddVertex 2 tt; AddVertex 3 tt;
         AddEdge 1 2 tt; AddEdge 2 3 tt; AddEdge 3 1 tt].

(** A store with the example graph at address 1, and the store after
    [Digraph copy(original)] has built a second graph at address 2. *)
Definition one_graph : gmap Store.loc (Digraph unit float) := {[1%positive := triangle]}.

Definition two_graphs : gmap Store.loc (Digraph unit float) :=
  (Store.construct_copy 2%positive 1%positive one_graph).2.

(** * Properties *)

(** ** Searches, checks and single steps *)

Section Basics.
Context {VertexInfo EdgeInfo : Type}.
Local Abbreviation Digraph := (Digraph VertexInfo EdgeInfo).
Local Abbreviation M := (M VertexInfo EdgeInfo).

Lemma map_at_Some (mp : gmap Z (DigraphVertex VertexInfo EdgeInfo)) key dv :
  mp !! key = Some dv → map_at mp key = Ret dv.
Proof. unfold map_at. by intros ->. Qed.

Lemma bind_M {A B} (c : M A) (k : A → M B) g :
  (c ≫= k) g =
  match c g with
  | (Ret a, g') => k a g'
  | (Throw x, g') => (Throw x, g')
  | (Undefined, g') => (Undefined, g')
  | (Fuel, g') => (Fuel, g')
  end.
Proof. reflexivity. Qed.

Lemma bind_call {A B} (f : Digraph → outcome A) (k : A → M B) g :
  (x ← call f; k x) g =
  match f g with
  | Ret a => k a g
  | Throw x => (Throw x, g)
  | Undefined => (Undefined, g)
  | Fuel => (Fuel, g)
  end.
Proof. unfold mbind, M_bind, call. by destruct (f g). Qed.

Lemma bind_modify {B} (f : Digraph → Digraph) (k : unit → M B) g :
  (x ← modify f; k x) g = k tt (f g).
Proof. reflexivity. Qed.

Lemma last_index_from_spec vertex l : ∀ i r0, 0 ≤ i →
  last_index_from i r0 vertex l = -1 ↔ r0 = -1 ∧ vertex ∉ l.
Proof.
  induction l as [|x l IH]; intros i r0 Hi; simpl.
  - split; [intros ->; split; [done|apply not_elem_of_nil] | by intros [-> _]].
  - rewrite IH by lia. rewrite not_elem_of_cons. case_decide; subst.
    + split; [lia | intros [_ [? _]]; done].
    + split; [intros [? ?]; repeat split; [done|congruence|done] | by intros [? [? ?]]].
Qed.

Lemma VertexExist_Ret vertex (g : Digraph) :
  vertex ∈ v g → VertexExist vertex g = Ret tt.
Proof.
  intros Hin. unfold VertexExist. case_decide as H; [|done].
  apply last_index_from_spec in H as [_ H]; done.
Qed.

Lemma VertexExist_Throw vertex (g : Digraph) :
  vertex ∉ v g → VertexExist vertex g = Throw (DigraphException (not_exist_reason vertex)).
Proof.
  intros Hin. unfold VertexExist. case_decide as H; [done|].
  exfalso. apply H. by apply last_index_from_spec.
Qed.

Lemma VertexExist_cases vertex (g : Digraph) :
  (vertex ∈ v g ∧ VertexExist vertex g = Ret tt) ∨
  ((vertex ∉ v g) ∧
   VertexExist vertex g = Throw (DigraphException (not_exist_reason vertex))).
Proof.
  destruct (decide (vertex ∈ v g)); [left|right]; eauto using VertexExist_Ret, VertexExist_Throw.
Qed.

Lemma index_from_notin vertex l : ∀ i, vertex ∉ l → index_from i vertex l = -1.
Proof.
  induction l as [|x l IH]; intros i Hn; simpl; [done|].
  apply not_elem_of_cons in Hn as [? ?]. case_decide; [congruence|]. by apply IH.
Qed.

Lemma index_from_in vertex l : ∀ i, vertex ∈ l →
  ∃ k : nat, index_from i vertex l = i + Z.of_nat k ∧ l !! k = Some vertex ∧
             ∀ j, (j < k)%nat → l !! j ≠ Some vertex.
Proof.
  induction l as [|x l IH]; intros i Hin; simpl.
  - by apply elem_of_nil in Hin.
  - case_decide as Hx.
    + exists 0%nat. split; [lia|]. split; [by subst|]. intros j Hj; lia.
    + apply elem_of_cons in Hin as [?|Hin]; [congruence|].
      destruct (IH (i + 1) Hin) as (k & Hk & Hl & Hfirst).
      exists (S k). split; [lia|]. split; [done|].
      intros [|j] Hj; simpl; [congruence|]. apply Hfirst. lia.
Qed.

Lemma indexOf_notin vertex l : vertex ∉ l → indexOf vertex l = -1.
Proof. apply index_from_notin. Qed.

Lemma indexOf_in vertex l : vertex ∈ l →
  ∃ k : nat, indexOf vertex l = Z.of_nat k ∧ l !! k = Some vertex ∧
             ∀ j, (j < k)%nat → l !! j ≠ Some vertex.
Proof.
  intros Hin. destruct (index_from_in vertex l 0 Hin) as (k & ? & ? & ?).
  exists k. unfold indexOf. split; [lia|done].
Qed.

Lemma edgeInfo_loop_app_new to (l : list (DigraphEdge EdgeInfo)) ed :
  (∀ x, x ∈ l → toVertex x ≠ to) → toVertex ed = to →
  edgeInfo_loop to (l ++ [ed]) = Ret (einfo ed).
Proof.
  induction l as [|x l IH]; intros Hl Hed; simpl.
  - by rewrite decide_True.
  - rewrite decide_False by (apply Hl; left). apply IH; [|done].
    intros y Hy. apply Hl. by right.
Qed.

Lemma addEdge_loop_Ret to (l : list (DigraphEdge EdgeInfo)) :
  (∀ x, x ∈ l → toVertex x ≠ to) → addEdge_loop to l = Ret tt.
Proof.
  induction l as [|x l IH]; intros Hl; simpl; [done|].
  rewrite decide_False by (apply Hl; left). apply IH. intros y Hy. apply Hl. by right.
Qed.

Lemma addEdge_loop_cases to (l : list (DigraphEdge EdgeInfo)) :
  ((∀ x, x ∈ l → toVertex x ≠ to) ∧ addEdge_loop to l = Ret tt) ∨
  ((∃ x, x ∈ l ∧ toVertex x = to) ∧ addEdge_loop to l = Throw (DigraphException "Edge exist")).
Proof.
  induction l as [|x l IH]; simpl.
  - left. split; [|done]. intros x Hx. by apply elem_of_nil in Hx.
  - case_decide as Hx.
    + right. split; [|done]. exists x. split; [left|done].
    + destruct IH as [[Hall ->]|[(y & Hy & Hty) ->]].
      * left. split; [|done]. intros y [->|Hy]%elem_of_cons; auto.
      * right. split; [|done]. exists y. split; [by right|done].
Qed.

(** What [addEdge] does when its three checks pass. *)
Lemma addEdge_Ret from to ei (g : Digraph) dv :
  m g !! from = Some dv → is_Some (m g !! to) →
  (∀ x, x ∈ edges dv → toVertex x ≠ to) →
  addEdge from to ei g =
    (Ret tt, mkDigraph (<[from := mkVertex (vinfo dv) (edges dv ++ [mkEdge from to ei])]> (m g))
               (v g) (e g ++ [(from, to)]) (vertexC g) (edgeC g + 1)).
Proof.
  intros Hfrom [dv' Hto] Hnew. unfold addEdge.
  rewrite bind_call. unfold findVertex at 1. rewrite Hfrom.
  rewrite bind_call. unfold findVertex at 1. rewrite Hto.
  rewrite bind_call, addEdge_loop_Ret by done.
  rewrite !bind_modify. unfold modify; simpl. do 2 f_equal.
  unfold push_edge. apply map_eq. intros i.
  destruct (decide (i = from)) as [->|Hne].
  - by rewrite lookup_alter_eq, lookup_insert_eq, Hfrom.
  - by rewrite lookup_alter_ne, lookup_insert_ne.
Qed.

Lemma addVertex_Ret vertex vi (g : Digraph) :
  m g !! vertex = None →
  addVertex vertex vi g =
    (Ret tt, mkDigraph (<[vertex := mkVertex vi []]> (m g)) (v g ++ [vertex]) (e g)
               (vertexC g + 1) (edgeC g)).
Proof.
  intros Hnew. unfold addVertex. rewrite bind_call. unfold findVertexNotExist.
  rewrite Hnew. reflexivity.
Qed.

End Basics.

(** ** Calls that fail *)

Section Mutators.
Context {VertexInfo EdgeInfo : Type}.
Local Abbreviation Digraph := (Digraph VertexInfo EdgeInfo).
Local Abbreviation M := (M VertexInfo EdgeInfo).

Lemma erase_first_no_throw `{EqDecision A} (x : A) l y : erase_first x l ≠ Throw y.
Proof.
  induction l as [|z l IH]; simpl; [done|].
  case_decide; [done|]. destruct (erase_first x l); simpl; congruence.
Qed.

Lemma addVertex_Throw vertex vi (g g' : Digraph) x :
  addVertex vertex vi g = (Throw x, g') → g' = g ∧ is_Some (m g !! vertex).
Proof.
  unfold addVertex. rewrite bind_call. unfold findVertexNotExist.
  destruct (m g !! vertex) eqn:Hm; [|discriminate]. intros [= _ <-]. eauto.
Qed.

Lemma addEdge_Throw from to ei (g g' : Digraph) x :
  addEdge from to ei g = (Throw x, g') → g' = g.
Proof.
  unfold addEdge. rewrite bind_call. unfold findVertex at 1.
  destruct (m g !! from) as [dv|]; [|by intros [= _ <-]].
  rewrite bind_call. unfold findVertex at 1.
  destruct (m g !! to) as [dv'|]; [|by intros [= _ <-]].
  rewrite bind_call. destruct (addEdge_loop_cases to (edges dv)) as [[_ ->]|[_ ->]].
  - discriminate.
  - by intros [= _ <-].
Qed.

Lemma removeEdge_Throw from to (g g' : Digraph) reason :
  removeEdge from to g = (Throw (DigraphException reason), g') → g' = g.
Proof.
  unfold removeEdge. rewrite bind_call.
  destruct (edgeInfo from to g) as [info|x| |];
    [|intros [= _ <-]; done|discriminate|discriminate].
  rewrite bind_modify, bind_call. unfold map_at; simpl.
  destruct (m g !! from) as [dv|] eqn:Hdv; [|discriminate].
  rewrite bind_M. unfold set_edges at 1; simpl. rewrite Hdv.
  rewrite bind_call. simpl.
  destruct (erase_first (from, to) (e g)) eqn:He; simpl; try discriminate.
  by apply erase_first_no_throw in He.
Qed.

(** What [removeEdge] does once [edgeInfo] has found the edge. *)
Lemma removeEdge_Ret from to (g : Digraph) dv e' :
  is_Some_Ret (edgeInfo from to g) → m g !! from = Some dv →
  erase_first (from, to) (e g) = Ret e' →
  removeEdge from to g =
    (Ret tt,
     mkDigraph (<[from := mkVertex (vinfo dv) (filter (λ i, toVertex i ≠ to) (edges dv))]> (m g))
       (v g) e' (vertexC g) (edgeC g - 1)).
Proof.
  intros [info Hinfo] Hdv He. unfold removeEdge. rewrite bind_call, Hinfo.
  rewrite bind_modify, bind_call. unfold map_at; simpl. rewrite Hdv.
  rewrite bind_M. unfold set_edges at 1; simpl. rewrite Hdv.
  rewrite bind_call. simpl. rewrite He. unfold modify; simpl.
  do 4 f_equal. clear. induction (filter _ _) as [|[] ? IH]; [done|].
  rewrite fmap_cons. by f_equal.
Qed.

End Mutators.

(** ** The rebuilding loops *)

Section Rebuild.
Context {VertexInfo EdgeInfo : Type}.
Local Abbreviation Digraph := (Digraph VertexInfo EdgeInfo).
Local Abbreviation DigraphVertex := (DigraphVertex VertexInfo EdgeInfo).
Local Abbreviation M := (M VertexInfo EdgeInfo).

Lemma for_each_ext {A} (l : list A) (f f' : A → M unit) g :
  (∀ x g0, x ∈ l → f x g0 = f' x g0) → for_each l f g = for_each l f' g.
Proof.
  revert g. induction l as [|x l IH]; intros g Hext; simpl; [done|].
  rewrite !bind_M, Hext by left. destruct (f' x g) as [[[]| | |] g1]; try done.
  apply IH. intros y g0 Hy. apply Hext. by right.
Qed.

Lemma add_vertices_spec (m_ : gmap Z DigraphVertex) l : ∀ g0 : Digraph,
  NoDup l → (∀ n, n ∈ l → is_Some (m_ !! n)) → (∀ n, n ∈ l → m g0 !! n = None) →
  ∃ g1, for_each l (λ n, dv ← call (λ _, map_at m_ n); addVertex n (vinfo dv)) g0
          = (Ret tt, g1) ∧
    v g1 = v g0 ++ l ∧ e g1 = e g0 ∧
    vertexC g1 = vertexC g0 + Z.of_nat (length l) ∧ edgeC g1 = edgeC g0 ∧
    ∀ n, m g1 !! n =
      if decide (n ∈ l) then (λ dv, mkVertex (vinfo dv) []) <$> m_ !! n else m g0 !! n.
Proof.
  induction l as [|x l IH]; intros g0 Hnd Hin Hfresh.
  - exists g0. simpl. rewrite app_nil_r. repeat split; try done; lia.
  - apply NoDup_cons in Hnd as [Hx Hnd].
    destruct (Hin x) as [dvx Hdvx]; [left|].
    cbn [for_each]. rewrite bind_M, bind_call, (map_at_Some _ _ _ Hdvx).
    rewrite addVertex_Ret by (apply Hfresh; left).
    edestruct (IH (mkDigraph (<[x:=mkVertex (vinfo dvx) []]> (m g0)) (v g0 ++ [x]) (e g0)
                     (vertexC g0 + 1) (edgeC g0))) as (g1 & Hrun & Hv & He & Hvc & Hec & Hm).
    { done. }
    { intros n Hn. apply Hin. by right. }
    { intros n Hn. simpl. rewrite lookup_insert_ne by (intros ->; done).
      apply Hfresh. by right. }
    exists g1. rewrite Hrun. simpl in *. split; [done|].
    rewrite Hv, He, Hvc, Hec, <- app_assoc. repeat split; try done; try lia.
    intros n. rewrite Hm. destruct (decide (n = x)) as [->|Hne].
    + rewrite decide_False by done. rewrite decide_True by left.
      by rewrite lookup_insert_eq, Hdvx.
    + rewrite lookup_insert_ne by done.
      destruct (decide (n ∈ l)).
      * rewrite decide_True; [done|by right].
      * rewrite decide_False; [done|]. by intros [?|?]%elem_of_cons.
Qed.

Lemma add_edges_spec (keep : DigraphEdge EdgeInfo → Prop) `{!∀ x, Decision (keep x)} n l :
  ∀ (g1 : Digraph) vi pre,
  m g1 !! n = Some (mkVertex vi pre) →
  (∀ ed, ed ∈ l → fromVertex ed = n) →
  (∀ ed, ed ∈ l → keep ed → is_Some (m g1 !! toVertex ed)) →
  NoDup (toVertex <$> (pre ++ filter keep l)) →
  ∃ g2, for_each l (λ edge,
            if decide (keep edge)
            then addEdge (fromVertex edge) (toVertex edge) (einfo edge)
            else mret tt) g1 = (Ret tt, g2) ∧
    m g2 = <[n := mkVertex vi (pre ++ filter keep l)]> (m g1) ∧
    v g2 = v g1 ∧ e g2 = e g1 ++ out_pairs (filter keep l) ∧
    vertexC g2 = vertexC g1 ∧
    edgeC g2 = edgeC g1 + Z.of_nat (length (filter keep l)).
Proof.
  induction l as [|ed l IH]; intros g1 vi pre Hn Hfrom Hto Hnd.
  - exists g1. simpl. rewrite !app_nil_r. repeat split; try done; try lia.
    by rewrite insert_id.
  - cbn [for_each]. rewrite bind_M. rewrite filter_cons in Hnd |- *.
    destruct (decide (keep ed)) as [Hk|Hk].
    + assert (fromVertex ed = n) as Hed by (apply Hfrom; left).
      rewrite (addEdge_Ret _ _ _ _ (mkVertex vi pre)); simpl.
      2: by rewrite Hed.
      2: apply Hto; [left|done].
      2: { intros x Hx Heq. rewrite fmap_app, fmap_cons in Hnd.
           apply NoDup_app in Hnd as (_ & Hd & _).
           apply (Hd (toVertex x)); [by apply list_elem_of_fmap_2|].
           rewrite Heq. left. }
      assert (mkEdge (fromVertex ed) (toVertex ed) (einfo ed) = ed) as -> by by destruct ed.
      rewrite Hed.
      edestruct (IH (mkDigraph (<[n:=mkVertex vi (pre ++ [ed])]> (m g1)) (v g1)
                       (e g1 ++ [(n, toVertex ed)]) (vertexC g1) (edgeC g1 + 1))
                    vi (pre ++ [ed])) as (g2 & Hrun & Hm & Hv & He & Hvc & Hec).
      { simpl. by rewrite lookup_insert_eq. }
      { intros x Hx. apply Hfrom. by right. }
      { intros x Hx Hkx. simpl. rewrite lookup_insert_is_Some'. right.
        apply Hto; [by right|done]. }
      { by rewrite <- app_assoc. }
      exists g2. rewrite Hrun. simpl in *. split; [done|].
      rewrite Hm, Hv, He, Hvc, Hec, insert_insert_eq, <- !app_assoc. simpl.
      repeat split; try done. lia.
    + edestruct (IH g1 vi pre) as (g2 & Hrun & Hrest); try done.
      { intros x Hx. apply Hfrom. by right. }
      { intros x Hx Hkx. apply Hto; [by right|done]. }
      exists g2. change ((mret tt : M unit) g1) with (Ret tt, g1). cbv beta iota.
      by rewrite Hrun.
Qed.

Lemma add_all_edges_spec (keep : DigraphEdge EdgeInfo → Prop) `{!∀ x, Decision (keep x)}
    (m_ : gmap Z DigraphVertex) l : ∀ g1 : Digraph,
  NoDup l →
  (∀ n, n ∈ l → ∃ dv, m_ !! n = Some dv ∧ m g1 !! n = Some (mkVertex (vinfo dv) []) ∧
     (∀ ed, ed ∈ edges dv → fromVertex ed = n) ∧
     (∀ ed, ed ∈ edges dv → keep ed → is_Some (m g1 !! toVertex ed)) ∧
     NoDup (toVertex <$> filter keep (edges dv))) →
  ∃ g2, for_each l (λ n,
            dv ← call (λ _, map_at m_ n);
            for_each (edges dv) (λ edge,
              if decide (keep edge)
              then addEdge (fromVertex edge) (toVertex edge) (einfo edge)
              else mret tt)) g1 = (Ret tt, g2) ∧
    v g2 = v g1 ∧ vertexC g2 = vertexC g1 ∧
    e g2 = e g1 ++ (l ≫= λ n, out_pairs (filter keep (adjacency m_ n))) ∧
    edgeC g2 = edgeC g1
               + Z.of_nat (length (l ≫= λ n, out_pairs (filter keep (adjacency m_ n)))) ∧
    (∀ n, is_Some (m g2 !! n) ↔ is_Some (m g1 !! n)) ∧
    ∀ n, m g2 !! n = if decide (n ∈ l) then strip keep <$> m_ !! n else m g1 !! n.
Proof.
  induction l as [|x l IH]; intros g1 Hnd Hl.
  - exists g1. simpl. rewrite app_nil_r. repeat split; try done; lia.
  - apply NoDup_cons in Hnd as [Hx Hnd].
    destruct (Hl x) as (dvx & Hdvx & Hg1x & Hfrom & Hto & Hndx); [left|].
    cbn [for_each]. rewrite bind_M, bind_call, (map_at_Some _ _ _ Hdvx).
    destruct (add_edges_spec keep x (edges dvx) g1 (vinfo dvx) [])
      as (g1' & Hrun1 & Hm1 & Hv1 & He1 & Hvc1 & Hec1); try done.
    rewrite Hrun1. simpl in Hm1.
    assert (∀ n, is_Some (m g1' !! n) ↔ is_Some (m g1 !! n)) as Hdom1.
    { intros n. rewrite Hm1, lookup_insert_is_Some'. split; [|by right].
      intros [<-|?]; [by rewrite Hg1x|done]. }
    destruct (IH g1' Hnd) as (g2 & Hrun & Hv & Hvc & He & Hec & Hdom & Hm).
    { intros n Hn. destruct (Hl n) as (dv & Hdv & Hg1n & Hfromn & Hton & Hndn); [by right|].
      exists dv. repeat split; try done.
      - rewrite Hm1, lookup_insert_ne by (intros ->; done). done.
      - intros ed Hed Hk. apply Hdom1. by apply Hton. }
    exists g2. rewrite Hrun. split; [done|].
    rewrite Hv, Hvc, He, Hec, Hv1, Hvc1, He1, Hec1, bind_cons, !length_app.
    assert (adjacency m_ x = edges dvx) as -> by (unfold adjacency; by rewrite Hdvx).
    rewrite <- app_assoc. repeat split; try done.
    + unfold out_pairs at 2. rewrite length_fmap. lia.
    + intros ?. by apply Hdom1, Hdom.
    + intros ?. by apply Hdom, Hdom1.
    + intros n. rewrite Hm, Hm1. destruct (decide (n = x)) as [->|Hne].
      * rewrite decide_False by done. rewrite decide_True by left.
        by rewrite lookup_insert_eq, Hdvx.
      * rewrite lookup_insert_ne by done.
        destruct (decide (n ∈ l)).
        -- rewrite decide_True; [done|by right].
        -- rewrite decide_False; [done|]. by intros [?|?]%elem_of_cons.
Qed.

(** The graph [rebuild] makes from a reset graph. *)
Lemma rebuild_spec (keep : DigraphEdge EdgeInfo → Prop) `{!∀ x, Decision (keep x)}
    (v_ : list Z) (m_ : gmap Z DigraphVertex) :
  NoDup v_ →
  (∀ n, n ∈ v_ → ∃ dv, m_ !! n = Some dv ∧
     (∀ ed, ed ∈ edges dv → fromVertex ed = n) ∧
     (∀ ed, ed ∈ edges dv → keep ed → toVertex ed ∈ v_) ∧
     NoDup (toVertex <$> filter keep (edges dv))) →
  ∃ g2 : Digraph, rebuild keep v_ m_ Digraph_new = (Ret tt, g2) ∧
    v g2 = v_ ∧ vertexC g2 = Z.of_nat (length v_) ∧
    e g2 = (v_ ≫= λ n, out_pairs (filter keep (adjacency m_ n))) ∧
    edgeC g2 = Z.of_nat (length (e g2)) ∧
    ∀ n, m g2 !! n = if decide (n ∈ v_) then strip keep <$> m_ !! n else None.
Proof.
  intros Hnd Hv_. unfold rebuild. rewrite bind_M.
  destruct (add_vertices_spec m_ v_ Digraph_new Hnd)
    as (g1 & Hrun1 & Hv1 & He1 & Hvc1 & Hec1 & Hm1).
  { intros n Hn. destruct (Hv_ n Hn) as (dv & -> & _). eauto. }
  { intros n _. apply lookup_empty. }
  rewrite Hrun1. simpl in *.
  destruct (add_all_edges_spec keep m_ v_ g1 Hnd) as (g2 & Hrun & Hv & Hvc & He & Hec & _ & Hm).
  { intros n Hn. destruct (Hv_ n Hn) as (dv & Hdv & Hfrom & Hto & Hndn).
    exists dv. repeat split; try done.
    - by rewrite Hm1, decide_True, Hdv.
    - intros ed Hed Hk. rewrite Hm1, decide_True by by apply Hto.
      destruct (Hv_ (toVertex ed)) as (dv' & -> & _); [by apply Hto|]. eauto. }
  exists g2. rewrite Hrun. split; [done|].
  rewrite Hv, Hvc, He, Hec, Hv1, Hvc1, He1, Hec1. simpl. repeat split; try done; try lia.
  intros n. rewrite Hm. destruct (decide (n ∈ v_)); [done|].
  rewrite Hm1. by rewrite decide_False.
Qed.

End Rebuild.

(** ** Consistency and the invariants *)

Section Wf.
Context {VertexInfo EdgeInfo : Type}.
Local Abbreviation Digraph := (Digraph VertexInfo EdgeInfo).
Local Abbreviation DigraphVertex := (DigraphVertex VertexInfo EdgeInfo).
Local Abbreviation M := (M VertexInfo EdgeInfo).

Lemma adjacency_Some (mp : gmap Z DigraphVertex) n dv :
  mp !! n = Some dv → adjacency mp n = edges dv.
Proof. unfold adjacency. by intros ->. Qed.

Lemma elem_of_out_pairs (l : list (DigraphEdge EdgeInfo)) a b :
  (a, b) ∈ out_pairs l ↔ ∃ ed, ed ∈ l ∧ fromVertex ed = a ∧ toVertex ed = b.
Proof.
  unfold out_pairs. rewrite list_elem_of_fmap. split.
  - intros (ed & [= -> ->] & Hed). eauto.
  - intros (ed & Hed & <- & <-). eauto.
Qed.

Lemma out_pairs_snd (l : list (DigraphEdge EdgeInfo)) : (out_pairs l).*2 = toVertex <$> l.
Proof. unfold out_pairs. rewrite <- list_fmap_compose. done. Qed.

Lemma elem_of_all_edges (g : Digraph) a b :
  (a, b) ∈ all_edges g ↔
  ∃ n ed, n ∈ v g ∧ ed ∈ adjacency (m g) n ∧ fromVertex ed = a ∧ toVertex ed = b.
Proof.
  unfold all_edges. rewrite list_elem_of_bind. split.
  - intros (n & (ed & ? & ? & ?)%elem_of_out_pairs & Hn). eauto 10.
  - intros (n & ed & ? & ? & ? & ?). exists n. split; [|done].
    apply elem_of_out_pairs. eauto.
Qed.

Lemma elem_of_adjacency (mp : gmap Z DigraphVertex) n ed :
  ed ∈ adjacency mp n ↔ ∃ dv, mp !! n = Some dv ∧ ed ∈ edges dv.
Proof.
  unfold adjacency. destruct (mp !! n) as [dv|]; split.
  - eauto.
  - by intros (dv' & [= <-] & ?).
  - by intros ?%elem_of_nil.
  - by intros (? & ? & _).
Qed.

Lemma records_keys (g : Digraph) : wf g → (vertex_records g).*1 ≡ₚ v g.
Proof.
  intros Hwf. apply NoDup_Permutation.
  - apply NoDup_fst_map_to_list.
  - apply Hwf.
  - intros n. rewrite (wf_v_dom g Hwf). unfold vertex_records.
    rewrite list_elem_of_fmap. split.
    + intros ([n' dv] & -> & Hin%elem_of_map_to_list). eauto.
    + intros [dv Hdv]. exists (n, dv). split; [done|]. by apply elem_of_map_to_list.
Qed.

Lemma edge_pairs_all_edges (g : Digraph) : wf g → edge_pairs g ≡ₚ all_edges g.
Proof.
  intros Hwf. unfold all_edges. rewrite <- (records_keys g Hwf).
  unfold edge_pairs. rewrite list_fmap_bind.
  erewrite Forall_bind_ext; [done|]. apply Forall_forall.
  intros [n dv] Hin%elem_of_map_to_list. simpl. by rewrite (adjacency_Some _ _ _ Hin).
Qed.

Lemma length_bind {A B} (f : A → list B) l :
  length (l ≫= f) = sum_list ((λ x, length (f x)) <$> l).
Proof. induction l as [|x l IH]; csimpl; [done|]. by rewrite length_app, IH. Qed.

Lemma all_edges_NoDup (g : Digraph) : wf g → NoDup (all_edges g).
Proof.
  intros Hwf. apply NoDup_bind; [| |apply Hwf].
  - intros n1 n2 [a b] _ _ (ed1 & Hed1 & <- & _)%elem_of_out_pairs
      (ed2 & Hed2 & Ha & _)%elem_of_out_pairs.
    apply elem_of_adjacency in Hed1 as (dv1 & Hdv1 & Hed1).
    apply elem_of_adjacency in Hed2 as (dv2 & Hdv2 & Hed2).
    rewrite <- (wf_from g Hwf _ _ _ Hdv1 Hed1), <- (wf_from g Hwf _ _ _ Hdv2 Hed2). done.
  - intros n Hn. apply (NoDup_fmap_1 snd). rewrite out_pairs_snd.
    unfold adjacency. destruct (m g !! n) as [dv|] eqn:Hdv; [|constructor].
    by apply (wf_to_nodup g Hwf n).
Qed.

(** A graph whose members are consistent satisfies the three invariants. *)
Lemma wf_invariants (g : Digraph) : wf g → invariants g.
Proof.
  intros Hwf. pose proof (edge_pairs_all_edges g Hwf) as Hperm.
  pose proof (wf_e g Hwf) as He. split; [|split].
  - intros a b Hab.
    assert ((a, b) ∈ all_edges g) as Hin.
    { destruct Hab as [Hab|Hab]; [by rewrite <- Hperm|].
      unfold Digraph_edges in Hab. by rewrite <- He. }
    apply elem_of_all_edges in Hin as (n & ed & Hn & Hed & <- & <-).
    apply elem_of_adjacency in Hed as (dv & Hdv & Hed).
    rewrite (wf_from g Hwf _ _ _ Hdv Hed). unfold vertices.
    pose proof (wf_to g Hwf _ _ _ Hdv Hed) as Hto.
    split; (split; [|by eauto]); [done|]. by apply (wf_v_dom g Hwf).
  - split.
    + rewrite Hperm. by apply all_edges_NoDup.
    + unfold Digraph_edges. rewrite He. by apply all_edges_NoDup.
  - split.
    + unfold vertexCount. rewrite (wf_vertexC g Hwf).
      rewrite <- (records_keys g Hwf), length_fmap.
      unfold vertex_records. by rewrite length_map_to_list.
    + unfold edgeCount. rewrite (wf_edgeC g Hwf), He, <- Hperm.
      unfold edge_pairs. rewrite length_bind. do 2 f_equal.
      apply list_fmap_ext. intros _ r _. unfold out_pairs. by rewrite length_fmap.
Qed.

Lemma wf_new : wf (Digraph_new : Digraph).
Proof.
  split; simpl; try done.
  - constructor.
  - intros n. rewrite lookup_empty. split; [by intros ?%elem_of_nil|by intros [? ?]].
Qed.

End Wf.

(** ** The mutators keep the members consistent *)

Section Preservation.
Context {VertexInfo EdgeInfo : Type}.
Local Abbreviation Digraph := (Digraph VertexInfo EdgeInfo).
Local Abbreviation DigraphVertex := (DigraphVertex VertexInfo EdgeInfo).
Local Abbreviation M := (M VertexInfo EdgeInfo).

Lemma bind_update_perm {A B} (f f' : A → list B) l x ex :
  NoDup l → x ∈ l → (∀ y, y ≠ x → f y = f' y) → f x ≡ₚ ex ++ f' x →
  l ≫= f ≡ₚ ex ++ (l ≫= f').
Proof.
  intros Hnd Hx Hext Hfx. induction Hnd as [|y l Hy Hnd IH]; [by apply elem_of_nil in Hx|].
  rewrite !bind_cons. apply elem_of_cons in Hx as [->|Hx].
  - rewrite Hfx, <- app_assoc. do 2 f_equiv.
    erewrite Forall_bind_ext; [done|]. apply Forall_forall.
    intros z Hz. apply Hext. by intros ->.
  - rewrite (IH Hx), (Hext y) by (by intros ->).
    by rewrite !(assoc_L (++)), (comm (++) (f' y)).
Qed.

Lemma bind_agree {A B} (f f' : A → list B) l :
  (∀ y, y ∈ l → f y = f' y) → l ≫= f = l ≫= f'.
Proof. intros Hext. apply Forall_bind_ext, Forall_forall. done. Qed.

Lemma addVertex_wf vertex vi (g : Digraph) : wf g → wf (addVertex vertex vi g).2.
Proof.
  intros Hwf. destruct (m g !! vertex) as [dv|] eqn:Hm.
  { unfold addVertex. rewrite bind_call. unfold findVertexNotExist. by rewrite Hm. }
  rewrite addVertex_Ret by done. simpl.
  assert (vertex ∉ v g) as Hnew.
  { rewrite (wf_v_dom g Hwf), Hm. by intros [? ?]. }
  destruct Hwf as [Hnd Hdom Hfrom Hto Htond He Hvc Hec]. split; simpl.
  - apply NoDup_app. split; [done|]. split; [|apply NoDup_singleton].
    intros n Hn ->%list_elem_of_singleton. done.
  - intros n. rewrite elem_of_app, list_elem_of_singleton, lookup_insert_is_Some', Hdom.
    split; [intros [?| ->]; [by right|by left]|intros [->|?]; [by right|by left]].
  - intros n dv ed. rewrite lookup_insert_Some. intros [[<- <-]|[_ Hn]]; simpl.
    + by intros ?%elem_of_nil.
    + by apply Hfrom.
  - intros n dv ed. rewrite lookup_insert_Some, lookup_insert_is_Some'.
    intros [[<- <-]|[_ Hn]]; simpl.
    + by intros ?%elem_of_nil.
    + right. by eapply Hto.
  - intros n dv. rewrite lookup_insert_Some. intros [[<- <-]|[_ Hn]]; simpl.
    + constructor.
    + by eapply Htond.
  - etrans; [exact He|]. unfold all_edges; simpl. rewrite bind_app, bind_singleton.
    unfold adjacency at 3. rewrite lookup_insert_eq. simpl. rewrite app_nil_r.
    erewrite bind_agree; [done|]. intros n Hn. simpl. unfold adjacency.
    rewrite lookup_insert_ne; [done|]. by intros ->.
  - rewrite length_app. simpl. lia.
  - done.
Qed.

Lemma addEdge_unchanged from to ei (g : Digraph) :
  m g !! from = None ∨ m g !! to = None ∨
    (∃ dv x, m g !! from = Some dv ∧ x ∈ edges dv ∧ toVertex x = to) →
  (addEdge from to ei g).2 = g.
Proof.
  intros Hcase. unfold addEdge. rewrite bind_call. unfold findVertex at 1.
  destruct (m g !! from) as [dv|] eqn:Hfromv; [|done].
  rewrite bind_call. unfold findVertex at 1.
  destruct (m g !! to) as [dv'|] eqn:Htov; [|done].
  rewrite bind_call.
  destruct (addEdge_loop_cases to (edges dv)) as [[Hnew Hloop]|[_ ->]]; [|done].
  destruct Hcase as [?|[?|(dv0 & x & [= <-] & Hx & Hto)]]; try done.
  by apply Hnew in Hx.
Qed.

Lemma addEdge_wf from to ei (g : Digraph) : wf g → wf (addEdge from to ei g).2.
Proof.
  intros Hwf.
  destruct (m g !! from) as [dv|] eqn:Hfromv; [|by rewrite addEdge_unchanged; auto].
  destruct (m g !! to) as [dv'|] eqn:Htov; [|by rewrite addEdge_unchanged; auto].
  destruct (addEdge_loop_cases to (edges dv)) as [[Hnew _]|[(x & Hx & Hxto) _]].
  2: { rewrite addEdge_unchanged; [done|]. right; right. eauto. }
  rewrite (addEdge_Ret _ _ _ _ dv) by eauto. simpl.
  destruct Hwf as [Hnd Hdom Hfrom Hto Htond He Hvc Hec]. split; simpl.
  - done.
  - intros n. rewrite lookup_insert_is_Some', Hdom. split; [by right|].
    intros [<-|?]; [by rewrite Hfromv|done].
  - intros n dv0 ed. rewrite lookup_insert_Some. intros [[<- <-]|[_ Hn]]; simpl.
    + intros [?| ->%list_elem_of_singleton]%elem_of_app; [by apply (Hfrom from dv)|done].
    + by apply Hfrom.
  - intros n dv0 ed. rewrite lookup_insert_Some, lookup_insert_is_Some'.
    intros [[<- <-]|[_ Hn]]; simpl.
    + intros [?| ->%list_elem_of_singleton]%elem_of_app; right; [by apply (Hto from dv)|].
      simpl. by rewrite Htov.
    + right. by eapply Hto.
  - intros n dv0. rewrite lookup_insert_Some. intros [[<- <-]|[_ Hn]]; simpl.
    + rewrite fmap_app. apply NoDup_app. split; [by apply (Htond from)|].
      split; [|apply NoDup_singleton].
      intros b (x & -> & Hx)%list_elem_of_fmap Heq%list_elem_of_singleton.
      by apply Hnew in Hx.
    + by eapply Htond.
  - unfold all_edges; simpl. rewrite He. unfold all_edges.
    rewrite (bind_update_perm
               (λ n, out_pairs (adjacency (<[from:=mkVertex (vinfo dv)
                                   (edges dv ++ [mkEdge from to ei])]> (m g)) n))
               (λ n, out_pairs (adjacency (m g) n)) (v g) from [(from, to)]).
    + by rewrite (comm (++)).
    + done.
    + apply Hdom. by rewrite Hfromv.
    + intros n Hn. unfold adjacency. by rewrite lookup_insert_ne.
    + unfold adjacency. rewrite lookup_insert_eq, Hfromv. simpl.
      unfold out_pairs. rewrite fmap_app. simpl. by rewrite (comm (++)).
  - done.
  - rewrite length_app. simpl. lia.
Qed.

Lemma edgeInfo_loop_Ret_inv to (l : list (DigraphEdge EdgeInfo)) info :
  edgeInfo_loop to l = Ret info → ∃ ed, ed ∈ l ∧ toVertex ed = to ∧ einfo ed = info.
Proof.
  induction l as [|x l IH]; simpl; [done|]. case_decide as Hx.
  - intros [= <-]. exists x. split; [left|done].
  - intros (ed & ? & ?)%IH. exists ed. split; [by right|done].
Qed.

Lemma edgeInfo_Ret_inv from to (g : Digraph) info :
  edgeInfo from to g = Ret info →
  from ∈ v g ∧ to ∈ v g ∧ ∃ dv, m g !! from = Some dv ∧ edgeInfo_loop to (edges dv) = Ret info.
Proof.
  unfold edgeInfo.
  destruct (VertexExist_cases from g) as [[Hf ->]|[_ ->]]; [|done].
  destruct (VertexExist_cases to g) as [[Ht ->]|[_ ->]]; [|done].
  simpl. unfold map_at. destruct (m g !! from) as [dv|]; [|done]. simpl. eauto.
Qed.

Lemma removeEdge_unchanged from to (g : Digraph) :
  (∀ info, edgeInfo from to g ≠ Ret info) → (removeEdge from to g).2 = g.
Proof.
  intros Hno. unfold removeEdge. rewrite bind_call.
  destruct (edgeInfo from to g) as [info| | |]; try done. by destruct (Hno info).
Qed.

Lemma erase_first_Ret `{EqDecision A} (x : A) l :
  x ∈ l → ∃ l', erase_first x l = Ret l' ∧ l ≡ₚ x :: l'.
Proof.
  induction l as [|y l IH]; [by intros ?%elem_of_nil|]. simpl. case_decide as Hy.
  - subst. eauto.
  - intros [?|Hin]%elem_of_cons; [congruence|].
    destruct (IH Hin) as (l' & -> & Hperm). exists (y :: l'). split; [done|].
    rewrite Hperm. apply perm_swap.
Qed.

Lemma filter_all {A} (P : A → Prop) `{!∀ x, Decision (P x)} (l : list A) :
  (∀ x, x ∈ l → P x) → filter P l = l.
Proof.
  induction l as [|x l IH]; intros Hall; [done|].
  rewrite filter_cons_True by (apply Hall; left). f_equal. apply IH.
  intros y Hy. apply Hall. by right.
Qed.

Lemma out_pairs_remove from to (l : list (DigraphEdge EdgeInfo)) :
  NoDup (toVertex <$> l) → (∀ ed, ed ∈ l → fromVertex ed = from) →
  (∃ ed, ed ∈ l ∧ toVertex ed = to) →
  out_pairs l ≡ₚ (from, to) :: out_pairs (filter (λ i, toVertex i ≠ to) l).
Proof.
  induction l as [|x l IH]; intros Hnd Hfrom (ed & Hed & Hto).
  { by apply elem_of_nil in Hed. }
  rewrite fmap_cons in Hnd. apply NoDup_cons in Hnd as [Hx Hnd].
  rewrite filter_cons. unfold out_pairs at 1. rewrite fmap_cons. fold (out_pairs l).
  rewrite (Hfrom x) by left. destruct (decide (toVertex x ≠ to)) as [Hne|Heq].
  - apply elem_of_cons in Hed as [->|Hed]; [done|].
    rewrite IH; [|done| |by eauto].
    + unfold out_pairs at 2. rewrite fmap_cons.
      fold (out_pairs (filter (λ i, toVertex i ≠ to) l)).
      rewrite (Hfrom x) by left. apply perm_swap.
    + intros y Hy. apply Hfrom. by right.
  - apply dec_stable in Heq. rewrite Heq. rewrite filter_all; [done|].
    intros y Hy Hyto. apply Hx.
    rewrite Heq, <- Hyto. by apply list_elem_of_fmap_2.
Qed.

Lemma removeEdge_wf from to (g : Digraph) : wf g → wf (removeEdge from to g).2.
Proof.
  intros Hwf. destruct (edgeInfo from to g) as [info| | |] eqn:Hinfo.
  2-4: by rewrite removeEdge_unchanged; [|intros ?; congruence].
  destruct (edgeInfo_Ret_inv _ _ _ _ Hinfo) as (Hf & Ht & dv & Hdv & Hloop).
  apply edgeInfo_loop_Ret_inv in Hloop as (ed & Hed & Hedto & _).
  assert ((from, to) ∈ e g) as Hin.
  { rewrite (wf_e g Hwf). apply elem_of_all_edges. exists from, ed.
    rewrite (adjacency_Some _ _ _ Hdv). repeat split; try done.
    by apply (wf_from g Hwf from dv). }
  destruct (erase_first_Ret _ _ Hin) as (e' & He' & Hperm).
  rewrite (removeEdge_Ret _ _ _ dv e'); [|by eexists|done|done]. simpl.
  destruct Hwf as [Hnd Hdom Hfrom Hto Htond He Hvc Hec]. split; simpl.
  - done.
  - intros n. rewrite lookup_insert_is_Some', Hdom. split; [by right|].
    intros [<-|?]; [by rewrite Hdv|done].
  - intros n dv0 x. rewrite lookup_insert_Some. intros [[<- <-]|[_ Hn]]; simpl.
    + intros [_ ?]%list_elem_of_filter. by apply (Hfrom from dv).
    + by apply Hfrom.
  - intros n dv0 x. rewrite lookup_insert_Some, lookup_insert_is_Some'.
    intros [[<- <-]|[_ Hn]]; simpl.
    + intros [_ ?]%list_elem_of_filter. right. by apply (Hto from dv).
    + right. by eapply Hto.
  - intros n dv0. rewrite lookup_insert_Some. intros [[<- <-]|[_ Hn]]; simpl.
    + eapply sublist_NoDup; [by apply (Htond from)|].
      apply fmap_sublist, sublist_filter.
    + by eapply Htond.
  - apply (Permutation_cons_inv (a:=(from, to))). rewrite <- Hperm, He.
    unfold all_edges; simpl.
    apply (bind_update_perm _ _ (v g) from [(from, to)]); [done|done| |].
    + intros n Hn. unfold adjacency. by rewrite lookup_insert_ne.
    + unfold adjacency. rewrite lookup_insert_eq, Hdv. simpl.
      apply out_pairs_remove;
        [by apply (Htond from)|intros; by apply (Hfrom from dv)|by eauto].
  - done.
  - rewrite Hec. apply Permutation_length in Hperm. rewrite Hperm. simpl. lia.
Qed.

End Preservation.

(** ** [removeVertex] and the copies *)

Section RemoveVertex.
Context {VertexInfo EdgeInfo : Type}.
Local Abbreviation Digraph := (Digraph VertexInfo EdgeInfo).
Local Abbreviation DigraphVertex := (DigraphVertex VertexInfo EdgeInfo).
Local Abbreviation M := (M VertexInfo EdgeInfo).

Lemma removeVertex_rebuild vertex (g : Digraph) :
  removeVertex vertex g =
  rebuild (keeps vertex) (filter (λ ve, ve ≠ vertex) (v g)) (m g) Digraph_new.
Proof. reflexivity. Qed.

Lemma copy_from_rebuild (d g0 : Digraph) :
  copy_from d g0 = rebuild keep_all (v d) (m d) g0.
Proof. reflexivity. Qed.

(** The graph [rebuild] leaves is consistent. *)
Lemma rebuild_wf (keep : DigraphEdge EdgeInfo → Prop) `{!∀ x, Decision (keep x)}
    (v_ : list Z) (m_ : gmap Z DigraphVertex) :
  NoDup v_ →
  (∀ n, n ∈ v_ → ∃ dv, m_ !! n = Some dv ∧
     (∀ ed, ed ∈ edges dv → fromVertex ed = n) ∧
     (∀ ed, ed ∈ edges dv → keep ed → toVertex ed ∈ v_) ∧
     NoDup (toVertex <$> filter keep (edges dv))) →
  ∃ g2 : Digraph, rebuild keep v_ m_ Digraph_new = (Ret tt, g2) ∧ wf g2 ∧
    v g2 = v_ ∧
    e g2 = (v_ ≫= λ n, out_pairs (filter keep (adjacency m_ n))) ∧
    ∀ n, m g2 !! n = if decide (n ∈ v_) then strip keep <$> m_ !! n else None.
Proof.
  intros Hnd Hv_.
  destruct (rebuild_spec keep v_ m_ Hnd Hv_) as (g2 & Hrun & Hv & Hvc & He & Hec & Hm).
  exists g2. split; [done|]. split; [|done]. split.
  - by rewrite Hv.
  - intros n. rewrite Hm, Hv. case_decide as Hn.
    + destruct (Hv_ n Hn) as (dv & -> & _). split; [by eexists|done].
    + split; [done|by intros [? ?]].
  - intros n dv ed Hdv Hed. rewrite Hm in Hdv. case_decide as Hn; [|done].
    destruct (Hv_ n Hn) as (dv0 & Hdv0 & Hfrom & _). rewrite Hdv0 in Hdv.
    injection Hdv as <-. simpl in Hed. apply list_elem_of_filter in Hed as [_ Hed]. auto.
  - intros n dv ed Hdv Hed. rewrite Hm in Hdv. case_decide as Hn; [|done].
    destruct (Hv_ n Hn) as (dv0 & Hdv0 & _ & Hto & _). rewrite Hdv0 in Hdv.
    injection Hdv as <-. simpl in Hed. apply list_elem_of_filter in Hed as [Hk Hed].
    rewrite Hm, decide_True by auto.
    destruct (Hv_ (toVertex ed)) as (dv1 & -> & _); [auto|]. by eexists.
  - intros n dv Hdv. rewrite Hm in Hdv. case_decide as Hn; [|done].
    destruct (Hv_ n Hn) as (dv0 & Hdv0 & _ & _ & Hndn). rewrite Hdv0 in Hdv.
    by injection Hdv as <-.
  - rewrite He. unfold all_edges. rewrite Hv. erewrite bind_agree; [done|].
    intros n Hn. simpl. unfold adjacency. rewrite Hm, decide_True by done.
    by destruct (Hv_ n Hn) as (dv0 & -> & _).
  - by rewrite Hvc, Hv.
  - done.
Qed.

Lemma filter_none {A} (P : A → Prop) `{!∀ x, Decision (P x)} (l : list A) :
  (∀ x, x ∈ l → ¬ P x) → filter P l = [].
Proof.
  induction l as [|x l IH]; intros Hnone; [done|].
  rewrite filter_cons_False by (apply Hnone; left). apply IH.
  intros y Hy. apply Hnone. by right.
Qed.

Lemma filter_bind {A B} (P : B → Prop) `{!∀ x, Decision (P x)} (f : A → list B) (l : list A) :
  filter P (l ≫= f) = l ≫= (λ x, filter P (f x)).
Proof.
  induction l as [|x l IH]; [done|]. by rewrite !bind_cons, filter_app, IH.
Qed.

Lemma bind_filter_nil {A B} (P : A → Prop) `{!∀ x, Decision (P x)} (f : A → list B)
    (l : list A) :
  (∀ x, x ∈ l → ¬ P x → f x = []) → l ≫= f = filter P l ≫= f.
Proof.
  induction l as [|x l IH]; intros Hnil; [done|].
  rewrite filter_cons, bind_cons, IH by (intros y Hy; apply Hnil; by right).
  case_decide as HP; [done|]. by rewrite (Hnil x) by (done || left).
Qed.

Lemma filter_out_pairs vertex (l : list (DigraphEdge EdgeInfo)) :
  filter (λ p, ¬ incident vertex p) (out_pairs l) = out_pairs (filter (keeps vertex) l).
Proof.
  induction l as [|x l IH]; [done|].
  unfold out_pairs at 1. rewrite fmap_cons. fold (out_pairs l).
  rewrite !filter_cons, IH.
  destruct (decide (¬ incident vertex (fromVertex x, toVertex x))) as [H1|H1],
    (decide (keeps vertex x)) as [H2|H2]; try done;
    exfalso; unfold incident, keeps in *; simpl in *;
    destruct (decide (fromVertex x = vertex)), (decide (toVertex x = vertex)); tauto.
Qed.

Lemma length_filter_ne (l : list Z) x :
  NoDup l → x ∈ l → S (length (filter (λ y, y ≠ x) l)) = length l.
Proof.
  induction 1 as [|y l Hy Hnd IH]; [by intros ?%elem_of_nil|].
  rewrite filter_cons. intros [->|Hx]%elem_of_cons.
  - rewrite decide_False by (intros ?; done). simpl. f_equal.
    f_equal. apply filter_all. intros z Hz ->. done.
  - rewrite decide_True by (intros ->; done). simpl. f_equal. by apply IH.
Qed.

(** What [removeVertex] does on a consistent graph, whether or not
    [vertex] is one of its vertices. *)
Lemma removeVertex_spec vertex (g : Digraph) :
  wf g →
  ∃ g', removeVertex vertex g = (Ret tt, g') ∧ wf g' ∧
    v g' = filter (λ ve, ve ≠ vertex) (v g) ∧
    e g' = filter (λ p, ¬ incident vertex p) (all_edges g) ∧
    ∀ n, m g' !! n =
      if decide (n = vertex) then None else strip (keeps vertex) <$> m g !! n.
Proof.
  intros Hwf. rewrite removeVertex_rebuild.
  destruct (rebuild_wf (keeps vertex) (filter (λ ve, ve ≠ vertex) (v g)) (m g))
    as (g' & Hrun & Hwf' & Hv & He & Hm).
  { apply NoDup_filter, Hwf. }
  { intros n [Hne Hn]%list_elem_of_filter.
    apply (wf_v_dom g Hwf) in Hn as [dv Hdv]. exists dv. split; [done|].
    split; [exact (λ ed, wf_from g Hwf n dv ed Hdv)|]. split.
    - intros ed Hed [_ Hto]. apply list_elem_of_filter. split; [done|].
      apply (wf_v_dom g Hwf). by apply (wf_to g Hwf n dv).
    - eapply sublist_NoDup; [by apply (wf_to_nodup g Hwf n)|].
      apply fmap_sublist, sublist_filter. }
  exists g'. split_and!; try done.
  - rewrite He. unfold all_edges. rewrite filter_bind.
    rewrite (bind_filter_nil (λ ve, ve ≠ vertex) _ (v g)).
    + apply bind_agree. intros n _. by rewrite filter_out_pairs.
    + intros n Hn Heq%dec_stable. subst n. rewrite filter_out_pairs.
      rewrite filter_none; [done|].
      intros ed (dv & Hdv & Hed)%elem_of_adjacency [Hfrom _].
      by rewrite (wf_from g Hwf _ _ _ Hdv Hed) in Hfrom.
  - intros n. rewrite Hm. destruct (decide (n = vertex)) as [->|Hne].
    + rewrite decide_False; [done|]. by intros [? _]%list_elem_of_filter.
    + destruct (m g !! n) as [dv|] eqn:Hdv.
      * rewrite decide_True; [done|]. apply list_elem_of_filter. split; [done|].
        apply (wf_v_dom g Hwf). by rewrite Hdv.
      * by case_decide.
Qed.

(** The copy constructor and the copy assignment yield a graph with the
    members of [d], the edge list in the order of the adjacency lists. *)
Lemma copy_from_spec (d : Digraph) :
  wf d →
  ∃ g', copy_from d Digraph_new = (Ret tt, g') ∧ wf g' ∧
    m g' = m d ∧ v g' = v d ∧ e g' = all_edges d ∧
    vertexC g' = vertexC d ∧ edgeC g' = edgeC d.
Proof.
  intros Hwf. rewrite copy_from_rebuild.
  destruct (rebuild_wf keep_all (v d) (m d)) as (g' & Hrun & Hwf' & Hv & He & Hm).
  { apply Hwf. }
  { intros n [dv Hdv]%(wf_v_dom d Hwf). exists dv. split; [done|].
    split; [exact (λ ed, wf_from d Hwf n dv ed Hdv)|]. split.
    - intros ed Hed _. apply (wf_v_dom d Hwf). by apply (wf_to d Hwf n dv).
    - rewrite filter_all by done. by apply (wf_to_nodup d Hwf n). }
  assert (e g' = all_edges d) as He'.
  { rewrite He. apply bind_agree. intros n _. by rewrite filter_all. }
  exists g'. split_and!; try done.
  - apply map_eq. intros n. rewrite Hm. case_decide as Hn.
    + destruct (m d !! n) as [dv|]; [|done]. simpl. f_equal.
      unfold strip. rewrite filter_all by done. by destruct dv.
    + destruct (m d !! n) eqn:Hdv; [|done]. destruct Hn.
      apply (wf_v_dom d Hwf). by rewrite Hdv.
  - by rewrite (wf_vertexC g' Hwf'), (wf_vertexC d Hwf), Hv.
  - by rewrite (wf_edgeC g' Hwf'), (wf_edgeC d Hwf), He', (wf_e d Hwf).
Qed.

Lemma Digraph_copy_wf (d : Digraph) : wf d → wf (Digraph_copy d).2.
Proof.
  intros Hwf. unfold Digraph_copy.
  by destruct (copy_from_spec d Hwf) as (g' & -> & ? & _).
Qed.

Lemma assign_from_wf (d g : Digraph) : wf d → wf (assign_from d g).2.
Proof.
  intros Hwf. unfold assign_from, reset. rewrite bind_modify.
  by destruct (copy_from_spec d Hwf) as (g' & -> & ? & _).
Qed.

Lemma perform_wf (op : mutation) (g : Digraph) : wf g → wf (perform op g).2.
Proof.
  intros Hwf. destruct op as [vertex vi|from to ei|vertex|from to]; simpl.
  - by apply addVertex_wf.
  - by apply addEdge_wf.
  - by destruct (removeVertex_spec vertex g Hwf) as (g' & -> & ? & _).
  - by apply removeEdge_wf.
Qed.

Lemma reachable_wf (g : Digraph) : reachable g → wf g.
Proof.
  induction 1 as [|op g _ IH|d _ IH|g d _ _ _ IH].
  - apply wf_new.
  - by apply perform_wf.
  - by apply Digraph_copy_wf.
  - by apply assign_from_wf.
Qed.

End RemoveVertex.

(** ** Mutation protocol: the claims *)

Section Claims.
Context {VertexInfo EdgeInfo : Type}.
Local Abbreviation Digraph := (Digraph VertexInfo EdgeInfo).
Local Abbreviation DigraphVertex := (DigraphVertex VertexInfo EdgeInfo).
Local Abbreviation M := (M VertexInfo EdgeInfo).

(** On a consistent graph [removeVertex] returns normally for every
    argument; for a vertex that is absent it rebuilds the graph as it was
    (with [e] in the order of the adjacency lists). *)
Lemma removeVertex_absent vertex (g : Digraph) :
  wf g → vertex ∉ vertices g →
  ∃ g', removeVertex vertex g = (Ret tt, g') ∧
    m g' = m g ∧ v g' = v g ∧ e g' = all_edges g ∧
    vertexC g' = vertexC g ∧ edgeC g' = edgeC g.
Proof.
  intros Hwf Hno. destruct (removeVertex_spec vertex g Hwf) as (g' & Hrun & Hwf' & Hv & He & Hm).
  assert (v g' = v g) as Hv'.
  { rewrite Hv. apply filter_all. intros n Hn ->. done. }
  assert (∀ n dv ed, m g !! n = Some dv → ed ∈ edges dv → keeps vertex ed) as Hkeep.
  { intros n dv ed Hdv Hed. split.
    - rewrite (wf_from g Hwf n dv ed Hdv Hed). intros ->. apply Hno.
      apply (wf_v_dom g Hwf). by rewrite Hdv.
    - intros Heq. apply Hno. apply (wf_v_dom g Hwf). rewrite <- Heq.
      by apply (wf_to g Hwf n dv). }
  assert (e g' = all_edges g) as He'.
  { rewrite He. apply filter_all. intros [a b] (n & ed & Hn & Hed & <- & <-)%elem_of_all_edges.
    apply elem_of_adjacency in Hed as (dv & Hdv & Hed).
    destruct (Hkeep n dv ed Hdv Hed) as [? ?]. by intros [?|?]. }
  exists g'. split_and!; try done.
  - apply map_eq. intros n. rewrite Hm. case_decide as Hn.
    + subst n. destruct (m g !! vertex) eqn:Hdv; [|done]. destruct Hno.
      apply (wf_v_dom g Hwf). by rewrite Hdv.
    + destruct (m g !! n) as [dv|] eqn:Hdv; [|done]. simpl. f_equal.
      unfold strip. rewrite filter_all by (intros ed Hed; by apply (Hkeep n dv)).
      by destruct dv.
  - by rewrite (wf_vertexC g' Hwf'), (wf_vertexC g Hwf), Hv'.
  - by rewrite (wf_edgeC g' Hwf'), (wf_edgeC g Hwf), He', (wf_e g Hwf).
Qed.

(** C5: when [addVertex], [addEdge] or [removeEdge] throws a
    [DigraphException], the graph after the call is the graph before it:
    all five members, hence the vertex set, the edge set, the payloads and
    both counts, are unchanged. *)
Theorem failed_mutation_leaves_graph (op : mutation) (g g' : Digraph) (reason : string) :
  (∀ vertex, op ≠ RemoveVertex vertex) →
  perform op g = (Throw (DigraphException reason), g') →
  g' = g.
Proof.
  intros Hop Hrun. destruct op as [vertex vi|from to ei|vertex|from to]; simpl in Hrun.
  - by apply addVertex_Throw in Hrun as [? _].
  - by apply addEdge_Throw in Hrun.
  - by destruct (Hop vertex).
  - by apply removeEdge_Throw in Hrun.
Qed.

(** X26: every graph built from [Digraph()] by the mutators (returning or
    throwing), the copy constructor and the copy assignment satisfies the
    three structural invariants: the endpoints of every edge are vertices
    present, no ordered pair occurs twice, and the two counters are the
    number of vertices and the sum of the sizes of the outgoing-edge
    lists. *)
Theorem reachable_invariants (g : Digraph) : reachable g → invariants g.
Proof. intros Hg. by apply wf_invariants, reachable_wf. Qed.

Lemma edgeInfo_loop_keeps vertex to (l : list (DigraphEdge EdgeInfo)) :
  to ≠ vertex → (∀ ed, ed ∈ l → fromVertex ed ≠ vertex) →
  edgeInfo_loop to (filter (keeps vertex) l) = edgeInfo_loop to l.
Proof.
  intros Hto. induction l as [|x l IH]; intros Hfrom; [done|].
  rewrite filter_cons. simpl.
  assert (edgeInfo_loop to (filter (keeps vertex) l) = edgeInfo_loop to l) as IH'.
  { apply IH. intros ed Hed. apply Hfrom. by right. }
  destruct (decide (keeps vertex x)) as [Hk|Hk]; simpl.
  - by rewrite IH'.
  - rewrite IH'. case_decide as Hx; [|done]. destruct Hk. split; [apply Hfrom; left|].
    by rewrite Hx.
Qed.

(** C7: on a graph that holds [vertex], [removeVertex] returns; the vertex
    count drops by one, the edge count drops by the number of edges with
    [vertex] as source or destination, [vertex] is gone, the edges left
    are those not incident to [vertex], and every query on edges and
    vertices that does not name [vertex] answers as before. *)
Theorem removeVertex_removes_incident (vertex : Z) (g : Digraph) :
  reachable g → vertex ∈ vertices g →
  ∃ g', removeVertex vertex g = (Ret tt, g') ∧
    vertexCount g' = vertexCount g - 1 ∧
    edgeCount g' = edgeCount g - incident_count vertex g ∧
    (vertex ∉ vertices g') ∧
    (∀ n, n ≠ vertex → n ∈ vertices g' ↔ n ∈ vertices g) ∧
    (∀ a b, (a, b) ∈ Digraph_edges g' ↔
            (a, b) ∈ Digraph_edges g ∧ a ≠ vertex ∧ b ≠ vertex) ∧
    (∀ a b, a ≠ vertex → b ≠ vertex → edgeInfo a b g' = edgeInfo a b g) ∧
    (∀ n, n ≠ vertex → vertexInfo n g' = vertexInfo n g).
Proof.
  intros Hwf%reachable_wf Hin.
  destruct (removeVertex_spec vertex g Hwf) as (g' & Hrun & Hwf' & Hv & He & Hm).
  assert (∀ n, n ≠ vertex → n ∈ v g' ↔ n ∈ v g) as Hmem.
  { intros n Hn. rewrite Hv, list_elem_of_filter. split; [by intros [_ ?]|done]. }
  assert (∀ n, n ≠ vertex → VertexExist n g' = VertexExist n g) as Hex.
  { intros n Hn. destruct (VertexExist_cases n g) as [[H1 ->]|[H1 ->]].
    - apply VertexExist_Ret. by apply Hmem.
    - apply VertexExist_Throw. by rewrite Hmem. }
  exists g'. split_and!; try done.
  - unfold vertexCount. rewrite (wf_vertexC g' Hwf'), (wf_vertexC g Hwf), Hv.
    rewrite <- (length_filter_ne (v g) vertex); [lia|apply Hwf|done].
  - unfold edgeCount, incident_count, Digraph_edges.
    rewrite (wf_edgeC g' Hwf'), (wf_edgeC g Hwf), He.
    assert (length (e g) = length (filter (incident vertex) (e g))
              + length (filter (λ p, ¬ incident vertex p) (e g)))%nat as Hlen.
    { rewrite <- length_app. apply Permutation_length. symmetry.
      apply filter_app_complement. }
    rewrite <- (wf_e g Hwf). lia.
  - unfold vertices. rewrite Hv. by intros [? _]%list_elem_of_filter.
  - intros a b. unfold Digraph_edges. rewrite He, list_elem_of_filter, <- (wf_e g Hwf).
    unfold incident. simpl. split.
    + intros [Hni ?]. split; [done|]. split; intros ->; apply Hni; auto.
    + intros (? & ? & ?). split; [|done]. by intros [?|?].
  - intros a b Ha Hb. unfold edgeInfo. rewrite !Hex by done.
    destruct (VertexExist a g); try done. destruct (VertexExist b g); try done. simpl.
    unfold map_at. rewrite Hm, decide_False by done.
    destruct (m g !! a) as [dv|] eqn:Hdv; [|done]. simpl.
    apply edgeInfo_loop_keeps; [done|].
    intros ed Hed. by rewrite (wf_from g Hwf a dv ed Hdv Hed).
  - intros n Hn. unfold vertexInfo. rewrite Hex by done.
    destruct (VertexExist n g); try done. simpl.
    unfold map_at. rewrite Hm, decide_False by done.
    by destruct (m g !! n) as [dv|].
Qed.

(** C10: [addEdge(v, v, info)] on a graph that holds [v] and has no edge
    from [v] to itself returns, raises the edge count by one, and
    [edgeInfo(v, v)] then returns [info]. *)
Theorem addEdge_self_loop (vertex : Z) (info : EdgeInfo) (g : Digraph) :
  reachable g → vertex ∈ vertices g → (vertex, vertex) ∉ Digraph_edges g →
  ∃ g', addEdge vertex vertex info g = (Ret tt, g') ∧
    edgeCount g' = edgeCount g + 1 ∧
    (vertex, vertex) ∈ Digraph_edges g' ∧
    edgeInfo vertex vertex g' = Ret info.
Proof.
  intros Hwf%reachable_wf Hin Hno.
  destruct ((proj1 (wf_v_dom g Hwf vertex)) Hin) as [dv Hdv].
  assert (∀ x, x ∈ edges dv → toVertex x ≠ vertex) as Hnew.
  { intros x Hx Hto. apply Hno. unfold Digraph_edges. rewrite (wf_e g Hwf).
    apply elem_of_all_edges. exists vertex, x.
    rewrite (adjacency_Some _ _ _ Hdv). split_and!; try done.
    by apply (wf_from g Hwf vertex dv). }
  eexists. split; [by apply (addEdge_Ret _ _ _ _ dv)|]. simpl. split_and!.
  - done.
  - apply elem_of_app. right. left.
  - unfold edgeInfo. rewrite VertexExist_Ret by done. simpl.
    unfold map_at. rewrite lookup_insert_eq. simpl.
    by apply edgeInfo_loop_app_new.
Qed.

End Claims.

Section StoreClaims.
Context {VertexInfo EdgeInfo : Type}.
Local Abbreviation Digraph := (Digraph VertexInfo EdgeInfo).
Local Abbreviation store := (gmap Store.loc Digraph).
Local Abbreviation SM := (Store.SM VertexInfo EdgeInfo).

Lemma on_other (this other : Store.loc) op (σ : store) :
  this ≠ other → (Store.on this op σ).2 !! other = σ !! other.
Proof.
  intros Hne. unfold Store.on. destruct (σ !! this); [|done]. simpl.
  by rewrite lookup_insert_ne.
Qed.

Lemma run_other (this other : Store.loc) ops : ∀ σ : store,
  this ≠ other → Store.run this ops σ !! other = σ !! other.
Proof.
  unfold Store.run. induction ops as [|op ops IH]; intros σ Hne; [done|].
  simpl. rewrite IH by done. by apply on_other.
Qed.

Lemma sbind_unfold {A B} (c : SM A) (k : A → SM B) (σ : store) :
  (c ≫= k) σ =
  match c σ with
  | (Ret a, σ') => k a σ'
  | (Throw x, σ') => (Throw x, σ')
  | (Undefined, σ') => (Undefined, σ')
  | (Fuel, σ') => (Fuel, σ')
  end.
Proof. reflexivity. Qed.

(** A loop on the store whose body acts on the object at [this] as
    [gbody] does, while the object at [d] is another one, is the loop of
    [gbody] on the object at [this]. *)
Lemma each_on (this d : Store.loc) (gd : Digraph) {A} (l : list A)
    (body : A → SM unit) (gbody : A → M VertexInfo EdgeInfo unit) :
  this ≠ d →
  (∀ x (σ : store) g, σ !! d = Some gd → σ !! this = Some g →
     body x σ = ((gbody x g).1, <[this := (gbody x g).2]> σ)) →
  ∀ (σ : store) g, σ !! d = Some gd → σ !! this = Some g →
  Store.each l body σ = ((for_each l gbody g).1, <[this := (for_each l gbody g).2]> σ).
Proof.
  intros Hne Hbody. induction l as [|x l IH]; intros σ g Hd Hthis.
  - simpl. unfold mret, Store.SM_ret, M_ret. simpl. by rewrite insert_id.
  - cbn [Store.each for_each]. rewrite sbind_unfold, bind_M, (Hbody x σ g Hd Hthis).
    destruct (gbody x g) as [[[]| | |] g1]; simpl; try done.
    rewrite (IH (<[this := g1]> σ) g1).
    + by rewrite insert_insert_eq.
    + by rewrite lookup_insert_ne.
    + by rewrite lookup_insert_eq.
Qed.

(** While the object at [this] is built, the object at [d], another one,
    stays as it is, so reading it through the reference at every use
    gives the graph it held when the loops started. *)
Lemma copy_loops_snapshot (this d : Store.loc) (gd g0 : Digraph) (σ : store) :
  this ≠ d → σ !! d = Some gd → σ !! this = Some g0 →
  Store.copy_loops this d σ = ((copy_from gd g0).1, <[this := (copy_from gd g0).2]> σ).
Proof.
  intros Hne Hd Hthis. unfold Store.copy_loops, copy_from.
  rewrite sbind_unfold. unfold Store.deref at 1. rewrite Hd.
  rewrite sbind_unfold, bind_M.
  rewrite (λ Hbody, each_on this d gd (v gd) _
             (λ n, dv ← call (λ _, map_at (m gd) n); addVertex n (vinfo dv))
             Hne Hbody σ g0 Hd Hthis).
  2: { intros n σ' g Hd' Hthis'. rewrite sbind_unfold. unfold Store.deref. rewrite Hd'.
       rewrite sbind_unfold, bind_call. unfold Store.lift.
       destruct (map_at (m gd) n) as [dv| | |]; simpl; try (by rewrite insert_id).
       unfold Store.on. by rewrite Hthis'. }
  destruct (for_each (v gd) _ g0) as [[[]| | |] g1]; simpl; try done.
  rewrite sbind_unfold. unfold Store.deref at 1.
  rewrite lookup_insert_ne, Hd by done.
  rewrite (λ Hbody Hd' Hthis', each_on this d gd (v gd) _
             (λ n, dv ← call (λ _, map_at (m gd) n);
                   for_each (edges dv) (λ edge,
                     addEdge (fromVertex edge) (toVertex edge) (einfo edge)))
             Hne Hbody (<[this := g1]> σ) g1 Hd' Hthis').
  - by rewrite insert_insert_eq.
  - intros n σ' g Hd' Hthis'. rewrite sbind_unfold. unfold Store.deref. rewrite Hd'.
    rewrite sbind_unfold, bind_call. unfold Store.lift.
    destruct (map_at (m gd) n) as [dv| | |]; simpl; try (by rewrite insert_id).
    apply (each_on this d gd (edges dv) _
             (λ edge, addEdge (fromVertex edge) (toVertex edge) (einfo edge))
             Hne); [|done|done].
    intros edge σ'' g' _ Hthis''. unfold Store.on. by rewrite Hthis''.
  - by rewrite lookup_insert_ne.
  - by rewrite lookup_insert_eq.
Qed.

Lemma copy_constructor_snapshot (this d : Store.loc) (gd : Digraph) (σ : store) :
  this ≠ d → σ !! d = Some gd →
  Store.copy_constructor this d σ = Store.construct_copy this d σ.
Proof.
  intros Hne Hd. unfold Store.copy_constructor, Store.construct_copy, Digraph_copy.
  rewrite sbind_unfold, Hd. unfold Store.init.
  rewrite (copy_loops_snapshot this d gd Digraph_new).
  - by rewrite insert_insert_eq.
  - done.
  - by rewrite lookup_insert_ne.
  - by rewrite lookup_insert_eq.
Qed.

Lemma copy_assignment_snapshot (this d : Store.loc) (gd g0 : Digraph) (σ : store) :
  this ≠ d → σ !! d = Some gd → σ !! this = Some g0 →
  Store.copy_assignment this d σ = Store.assign this d σ.
Proof.
  intros Hne Hd Hthis. unfold Store.copy_assignment, Store.assign.
  rewrite !decide_True, Hd by done.
  rewrite sbind_unfold. unfold Store.on at 1. rewrite Hthis. simpl.
  rewrite (copy_loops_snapshot this d gd Digraph_new).
  - rewrite insert_insert_eq. unfold Store.on. rewrite Hthis.
    unfold assign_from, reset. by rewrite bind_modify.
  - done.
  - by rewrite lookup_insert_ne.
  - by rewrite lookup_insert_eq.
Qed.

(** Why the copy assignment has its guard: run on one and the same object,
    its body empties the graph before it reads it, and the graph is
    lost. *)
Lemma unguarded_self_assignment (a : Store.loc) (g : Digraph) (σ : store) :
  σ !! a = Some g →
  ((Store.on a reset : SM unit) ≫= λ _, Store.copy_loops a a) σ
    = (Ret tt, <[a := Digraph_new]> σ).
Proof.
  intros Ha. rewrite sbind_unfold. unfold Store.on. rewrite Ha. simpl.
  unfold Store.copy_loops. rewrite sbind_unfold. unfold Store.deref at 1.
  rewrite lookup_insert_eq. simpl. rewrite sbind_unfold. simpl.
  rewrite sbind_unfold. unfold Store.deref. by rewrite lookup_insert_eq.
Qed.

(** C8: the copy constructor and the copy assignment, run statement by
    statement on a store in which [d] is read through its reference, build
    the copy at [b] without changing the original at [a]; the copy holds
    the vertex records, the vertex list, the edges and the counts of the
    original; afterwards no sequence of [addVertex], [addEdge],
    [removeVertex] and [removeEdge] calls on [b] changes the graph at [a],
    and none on [a] changes the graph at [b], which goes on holding what
    the original held when it was copied. *)
Theorem copy_is_independent (a b : Store.loc) (gA : Digraph)
    (ops : list mutation) (σ σ1 : store) (o : outcome unit) :
  a ≠ b → σ !! a = Some gA →
  (o, σ1) = Store.copy_constructor b a σ ∨
    (is_Some (σ !! b) ∧ (o, σ1) = Store.copy_assignment b a σ) →
  σ1 !! a = Some gA ∧
  ∃ gB, σ1 !! b = Some gB ∧
    Store.run b ops σ1 !! a = Some gA ∧
    Store.run a ops σ1 !! b = Some gB ∧
    (reachable gA →
       o = Ret tt ∧ m gB = m gA ∧ vertices gB = vertices gA ∧
       Digraph_edges gB ≡ₚ Digraph_edges gA ∧
       vertexCount gB = vertexCount gA ∧ edgeCount gB = edgeCount gA).
Proof.
  intros Hne Ha Hcopy.
  assert ((o, σ1) = ((Digraph_copy gA).1, <[b := (Digraph_copy gA).2]> σ)) as Heq.
  { destruct Hcopy as [->|[[gB0 Hb] ->]].
    - rewrite (copy_constructor_snapshot b a gA) by done.
      unfold Store.construct_copy. by rewrite Ha.
    - rewrite (copy_assignment_snapshot b a gA gB0) by done.
      unfold Store.assign, Store.on. rewrite decide_True, Ha, Hb by done.
      unfold assign_from, reset, Digraph_copy. by rewrite bind_modify. }
  injection Heq as -> ->.
  assert (<[b := (Digraph_copy gA).2]> σ !! a = Some gA) as Ha1
    by (by rewrite lookup_insert_ne).
  split; [done|]. exists (Digraph_copy gA).2. rewrite !run_other by done.
  split_and!; [by rewrite lookup_insert_eq|done|by rewrite lookup_insert_eq|].
  intros Hwf%reachable_wf. unfold Digraph_copy.
  destruct (copy_from_spec gA Hwf) as (gB & -> & _ & Hm & Hv & He & Hvc & Hec).
  split_and!; try done. unfold Digraph_edges. simpl. by rewrite He, (wf_e gA Hwf).
Qed.

(** C6: the three invariants do not hold after every public operation.  A
    move, by the move constructor or by the move assignment, hands the
    graph at [a] to [b] and leaves at [a] a graph with no vertex and no
    edge whose two counters still have their old values: when the graph
    held a vertex, [vertexCount()] is no longer the number of vertices
    present, and invariant 3 fails. *)
Theorem move_leaves_stale_counts (a b : Store.loc) (gA : Digraph) (σ σ1 : store) :
  0 < vertexCount gA → a ≠ b → σ !! a = Some gA →
  σ1 = (Store.construct_move b a σ).2 ∨
    (is_Some (σ !! b) ∧ σ1 = (Store.move_assign b a σ).2) →
  σ1 !! b = Some gA ∧
  ∃ g, σ1 !! a = Some g ∧
    vertices g = [] ∧ Digraph_edges g = [] ∧
    vertexCount g = vertexCount gA ∧ edgeCount g = edgeCount gA ∧
    ¬ counts_consistent g ∧ ¬ invariants g.
Proof.
  intros Hcount Hne Ha Hmove.
  assert (σ1 = <[b := gA]> (<[a := moved_from gA]> σ)) as ->.
  { replace gA with (Digraph_move gA).1 at 1 by (by destruct gA).
    destruct Hmove as [->|[[gB0 Hb] ->]].
    - unfold Store.construct_move. by rewrite Ha.
    - unfold Store.move_assign. rewrite decide_True by done. by rewrite Hb, Ha. }
  split; [by rewrite lookup_insert_eq|]. exists (moved_from gA).
  rewrite lookup_insert_ne, lookup_insert_eq by done.
  assert (¬ counts_consistent (moved_from gA)) as Hbad.
  { intros [Hvc _]. unfold vertexCount in *. simpl in Hvc.
    rewrite map_size_empty in Hvc. lia. }
  split_and!; try done. by intros (_ & _ & ?).
Qed.

(** X5: the copy holds what the original holds. *)
Lemma construct_copy_content (a b : Store.loc) (gA : Digraph) (σ : store) :
  reachable gA → σ !! a = Some gA →
  ∃ gB, Store.construct_copy b a σ = (Ret tt, <[b := gB]> σ) ∧
    m gB = m gA ∧ vertices gB = vertices gA ∧ Digraph_edges gB ≡ₚ Digraph_edges gA ∧
    vertexCount gB = vertexCount gA ∧ edgeCount gB = edgeCount gA.
Proof.
  intros Hwf%reachable_wf Ha. unfold Store.construct_copy, Digraph_copy. rewrite Ha.
  destruct (copy_from_spec gA Hwf) as (gB & -> & _ & Hm & Hv & He & Hvc & Hec).
  exists gB. split_and!; try done. unfold Digraph_edges. by rewrite He, (wf_e gA Hwf).
Qed.

End StoreClaims.

(** ** Strong connectivity *)

Section Connectivity.
Context {VertexInfo EdgeInfo : Type}.
Local Abbreviation Digraph := (Digraph VertexInfo EdgeInfo).
Local Abbreviation DigraphVertex := (DigraphVertex VertexInfo EdgeInfo).

Lemma index_from_ne vertex l : index_from 0 vertex l ≠ -1 ↔ vertex ∈ l.
Proof.
  split.
  - intros Hne. destruct (decide (vertex ∈ l)) as [|Hno]; [done|].
    by rewrite index_from_notin in Hne.
  - intros (k & -> & _)%(index_from_in _ _ 0). lia.
Qed.

Lemma vec_erase_index (x : Z) (vs : list Z) :
  NoDup vs → x ∈ vs →
  ∃ vs1, vec_erase vs (index_from 0 x vs) = Ret vs1 ∧ vs1 `sublist_of` vs ∧
    (length vs1 + 1 = length vs)%nat ∧ (x ∉ vs1) ∧ ∀ z, z ∈ vs → z ≠ x → z ∈ vs1.
Proof.
  intros Hnd Hx. destruct (index_from_in x vs 0 Hx) as (k & -> & Hk & _).
  pose proof (lookup_lt_Some _ _ _ Hk) as Hlt.
  unfold vec_erase. rewrite decide_True by lia.
  replace (Z.to_nat (0 + Z.of_nat k)) with k by lia.
  exists (delete k vs). split; [done|]. split; [apply sublist_delete|].
  split; [rewrite length_delete by (by eexists); lia|].
  rewrite delete_take_drop.
  pose proof (take_drop_middle vs k x Hk) as Hsplit.
  rewrite <- Hsplit in Hnd.
  apply NoDup_app in Hnd as (_ & Hdisj & [Hx2 _]%NoDup_cons). split.
  - intros [Hin|Hin]%elem_of_app; [|done]. apply (Hdisj x Hin). left.
  - intros z Hz Hne. rewrite <- Hsplit in Hz. rewrite elem_of_app in Hz |- *.
    destruct Hz as [?|[?|?]%elem_of_cons]; [by left|done|by right].
Qed.

Lemma swept_loop (g : Digraph) (x : Z) (fuel : nat)
    (IH : ∀ y vs, y ∈ vs → (∀ n, n ∈ vs → is_Some (m g !! n)) → NoDup vs →
            (length vs ≤ fuel)%nat → ∃ vs', DFTr fuel g y vs = Ret vs' ∧ (y ∉ vs') ∧ swept g y vs vs')
    (es : list (DigraphEdge EdgeInfo)) : ∀ vs,
  (∀ ed, ed ∈ es → ed ∈ adjacency (m g) x) →
  (∀ n, n ∈ vs → is_Some (m g !! n)) → NoDup vs → (length vs ≤ fuel)%nat →
  ∃ vs', foldM (λ vertices edge,
                 let index := index_from 0 (toVertex edge) vertices in
                 if decide (index ≠ -1) then DFTr fuel g (toVertex edge) vertices
                 else Ret vertices) vs es = Ret vs' ∧
    (∀ ed, ed ∈ es → toVertex ed ∉ vs') ∧ swept g x vs vs'.
Proof.
  induction es as [|ed es IHes]; intros vs Hes Hdom Hnd Hlen.
  - exists vs. split; [done|]. split; [by intros ? ?%elem_of_nil|].
    split; [done|]. split; intros; done.
  - simpl. assert (edge_rel g x (toVertex ed)) as Hedge.
    { exists ed. split; [apply Hes; left|done]. }
    destruct (decide (index_from 0 (toVertex ed) vs ≠ -1)) as [Hin|Hno].
    + apply index_from_ne in Hin.
      destruct (IH _ vs Hin Hdom Hnd Hlen) as (vs1 & -> & Hy & Hsub1 & Hsound1 & Hclosed1).
      simpl.
      destruct (IHes vs1) as (vs' & Hrun & Hes' & Hsub & Hsound & Hclosed).
      { intros e0 He0. apply Hes. by right. }
      { intros n Hn. apply Hdom. by eapply elem_of_sublist. }
      { by eapply sublist_NoDup. }
      { apply sublist_length in Hsub1. lia. }
      exists vs'. split; [done|]. split; [|split; [|split]].
      * intros e0 [->|He0]%elem_of_cons; [|by apply Hes'].
        intros Hin'. apply Hy. by eapply elem_of_sublist.
      * by etrans.
      * intros z Hz Hz'. destruct (decide (z ∈ vs1)) as [Hz1|Hz1]; [by apply Hsound|].
        eapply rtc_l; [done|]. by apply Hsound1.
      * intros u w Hu Hu' Huw Hw. destruct (decide (w ∈ vs1)) as [Hw1|Hw1].
        -- destruct (decide (u ∈ vs1)) as [Hu1|Hu1]; [by eapply Hclosed|].
           by destruct (Hclosed1 u w).
        -- intros Hw'. apply Hw1. by eapply elem_of_sublist.
    + simpl. destruct (IHes vs) as (vs' & Hrun & Hes' & Hsub & Hsound & Hclosed); try done.
      { intros e0 He0. apply Hes. by right. }
      exists vs'. split; [done|]. split; [|done].
      intros e0 [->|He0]%elem_of_cons; [|by apply Hes'].
      intros Hin'. apply Hno, index_from_ne. by eapply elem_of_sublist.
Qed.

(** [DFTr] returns when the fuel covers the list, and sweeps it. *)
Lemma DFTr_swept (g : Digraph) (fuel : nat) : ∀ x vs,
  x ∈ vs → (∀ n, n ∈ vs → is_Some (m g !! n)) → NoDup vs → (length vs ≤ fuel)%nat →
  ∃ vs', DFTr fuel g x vs = Ret vs' ∧ (x ∉ vs') ∧ swept g x vs vs'.
Proof.
  induction fuel as [|fuel IH]; intros x vs Hx Hdom Hnd Hlen.
  { destruct vs; [by apply elem_of_nil in Hx|simpl in Hlen; lia]. }
  destruct (vec_erase_index x vs Hnd Hx) as (vs1 & Herase & Hsub1 & Hlen1 & Hx1 & Hkeep).
  destruct (Hdom x Hx) as [dv Hdv].
  cbn [DFTr]. rewrite Herase. simpl. rewrite (map_at_Some _ _ _ Hdv). simpl.
  destruct (swept_loop g x fuel IH (edges dv) vs1) as (vs' & Hrun & Hes & Hsub & Hsound & Hclosed).
  { intros ed Hed. by rewrite (adjacency_Some _ _ _ Hdv). }
  { intros n Hn. apply Hdom. by eapply elem_of_sublist. }
  { by eapply sublist_NoDup. }
  { lia. }
  exists vs'. split; [done|].
  assert (x ∉ vs') as Hx'. { intros Hin. apply Hx1. by eapply elem_of_sublist. }
  split; [done|]. split; [by etrans|]. split.
  - intros z Hz Hz'. destruct (decide (z = x)) as [->|Hne]; [done|].
    apply Hsound; [by apply Hkeep|done].
  - intros u w Hu Hu' Huw Hw. destruct (decide (w = x)) as [->|Hwx]; [done|].
    destruct (decide (u = x)) as [->|Hux].
    + destruct Huw as (ed & Hed & <-). apply Hes. by rewrite <- (adjacency_Some _ _ _ Hdv).
    + apply (Hclosed u w); auto.
Qed.

Lemma edge_rel_present (g : Digraph) u w : wf g → edge_rel g u w → w ∈ v g.
Proof.
  intros Hwf (ed & (dv & Hdv & Hed)%elem_of_adjacency & <-).
  apply (wf_v_dom g Hwf). by apply (wf_to g Hwf u dv).
Qed.

(** The sweep from a root leaves nothing exactly when the root reaches
    every vertex. *)
Lemma sweep_all (g : Digraph) (root : Z) :
  wf g → root ∈ v g →
  ∃ vs', DFTr (length (v g)) g root (v g) = Ret vs' ∧
    (vs' = [] ↔ ∀ z, z ∈ v g → path g root z).
Proof.
  intros Hwf Hroot.
  destruct (DFTr_swept g (length (v g)) root (v g)) as (vs' & Hrun & Hroot' & Hsub & Hsound & Hclosed).
  { done. }
  { intros n Hn. by apply (wf_v_dom g Hwf). }
  { apply Hwf. }
  { done. }
  exists vs'. split; [done|]. split.
  - intros -> z Hz. apply Hsound; [done|]. apply not_elem_of_nil.
  - intros Hall. destruct vs' as [|z vs']; [done|]. exfalso.
    assert (z ∈ v g) as Hz by (eapply elem_of_sublist; [left|done]).
    assert (∀ a b, path g a b → a ∈ v g → a ∉ z :: vs' → b ∈ v g ∧ b ∉ z :: vs') as Hinv.
    { induction 1 as [a|a b c Hab _ IH]; [done|]. intros Ha Ha'. apply IH.
      - by eapply edge_rel_present.
      - eapply Hclosed; [exact Ha|done|done|]. by eapply edge_rel_present. }
    destruct (Hinv root z (Hall z Hz) Hroot Hroot') as [_ Hno]. apply Hno. left.
Qed.

Lemma isStronglyConnected_loop_spec (g : Digraph) (roots : list Z) :
  wf g → (∀ r, r ∈ roots → r ∈ v g) →
  ∃ b, isStronglyConnected_loop g roots = Ret b ∧
    (b = true ↔ ∀ r z, r ∈ roots → z ∈ v g → path g r z).
Proof.
  intros Hwf. induction roots as [|r roots IH]; intros Hroots.
  - exists true. split; [done|]. split; [|done]. by intros _ r z ?%elem_of_nil.
  - destruct (sweep_all g r Hwf) as (vs' & Hrun & Hiff); [apply Hroots; left|].
    cbn [isStronglyConnected_loop]. rewrite Hrun. simpl.
    destruct (decide (length vs' ≠ 0%nat)) as [Hne|Heq].
    + exists false. split; [done|]. split; [done|]. intros Hall. exfalso.
      apply Hne. rewrite (proj2 Hiff); [done|]. intros z Hz. apply Hall; [left|done].
    + destruct IH as (b & -> & Hb); [intros r' Hr'; apply Hroots; by right|].
      exists b. split; [done|]. rewrite Hb. split.
      * intros Hall r' z [->|Hr']%elem_of_cons Hz; [|by apply Hall].
        apply (proj1 Hiff); [|done]. destruct vs'; [done|]. simpl in Heq. lia.
      * intros Hall r' z Hr' Hz. apply Hall; [by right|done].
Qed.

(** C4: on every graph [isStronglyConnected] returns, and it returns
    [true] exactly when every vertex is reachable from every vertex along
    directed edges; so it returns [true] on a graph with no vertex and on
    a graph with one vertex. *)
Theorem isStronglyConnected_correct (g : Digraph) :
  reachable g →
  ∃ b, isStronglyConnected g = Ret b ∧
    (b = true ↔ strongly_connected g) ∧
    (vertexCount g = 0 ∨ vertexCount g = 1 → b = true).
Proof.
  intros Hwf%reachable_wf.
  destruct (isStronglyConnected_loop_spec g (v g) Hwf) as (b & Hrun & Hb); [done|].
  exists b. split; [done|].
  assert (b = true ↔ strongly_connected g) as Hiff.
  { rewrite Hb. unfold strongly_connected, vertices. done. }
  split; [done|]. intros Hcount. apply Hiff. intros a c Ha Hc.
  unfold vertexCount, vertices in *. rewrite (wf_vertexC g Hwf) in Hcount.
  destruct (v g) as [|x [|y l]]; simpl in Hcount.
  - by apply elem_of_nil in Ha.
  - apply list_elem_of_singleton in Ha, Hc. subst. done.
  - lia.
Qed.

End Connectivity.

(** ** Signs of [double] sums *)

Lemma binary_round_aux_sign prec emax mx ex lx :
  sf_not_negative (binary_round_aux prec emax false mx ex lx) = true.
Proof.
  unfold binary_round_aux.
  destruct (shr_fexp prec emax mx ex lx) as [mrs' e'].
  destruct (shr_fexp prec emax _ e' loc_Exact) as [mrs'' e''].
  destruct (shr_m mrs''); [done| |done]. by case_match.
Qed.

Lemma SFadd_not_negative prec emax x y :
  sf_not_negative x = true → sf_not_negative y = true →
  sf_not_negative (SFadd prec emax x y) = true.
Proof.
  destruct x as [[]|[]| |[] mx ex], y as [[]|[]| |[] my ey]; try done.
  intros _ _. unfold SFadd, binary_normalize. simpl.
  unfold binary_round.
  destruct (shl_align _ _ _) as [mz ez]. apply binary_round_aux_sign.
Qed.

Lemma add_not_negative (x y : float) :
  not_negative x = true → not_negative y = true →
  not_negative (PrimFloat.add x y) = true.
Proof.
  unfold not_negative. rewrite add_spec. apply SFadd_not_negative.
Qed.

Lemma not_negative_ltb_zero (x : float) :
  not_negative x = true → PrimFloat.ltb x 0%float = false.
Proof.
  unfold not_negative. rewrite ltb_spec.
  change (Prim2SF 0%float) with (S754_zero false).
  by destruct (Prim2SF x) as [[]|[]| |[] mx ex].
Qed.

Lemma leb_zero_not_negative (x : float) :
  PrimFloat.leb 0%float x = true → not_negative x = true.
Proof.
  unfold not_negative. rewrite leb_spec.
  change (Prim2SF 0%float) with (S754_zero false).
  by destruct (Prim2SF x) as [[]|[]| |[] mx ex].
Qed.

Lemma SFadd_zero_ltb prec emax (x y : spec_float) :
  SFltb (SFadd prec emax x (S754_zero false)) y = SFltb x y.
Proof. by destruct x as [[]|[]| |[] mx ex]. Qed.

Lemma SFltb_irrefl (x : spec_float) : SFltb x x = false.
Proof.
  destruct x as [[]|[]| |[] mx ex]; try done; unfold SFltb; simpl;
    by rewrite Z.compare_refl, Pos.compare_cont_refl.
Qed.

Lemma SFadd_zero_ltb_self prec emax (x : spec_float) :
  SFltb (SFadd prec emax x (S754_zero false)) x = false.
Proof. destruct x as [[]|[]| |[] mx ex]; try done; apply SFltb_irrefl. Qed.

(** Adding the weight zero changes no comparison. *)
Lemma add_zero_ltb (d y : float) :
  PrimFloat.ltb (PrimFloat.add d 0%float) y = PrimFloat.ltb d y.
Proof.
  rewrite !ltb_spec, add_spec. change (Prim2SF 0%float) with (S754_zero false).
  apply SFadd_zero_ltb.
Qed.

Lemma add_zero_ltb_self (d : float) :
  PrimFloat.ltb (PrimFloat.add d 0%float) d = false.
Proof.
  rewrite ltb_spec, add_spec. change (Prim2SF 0%float) with (S754_zero false).
  apply SFadd_zero_ltb_self.
Qed.

(** ** Shortest paths: the loop *)

Section ShortestPaths.
Context {VertexInfo EdgeInfo : Type}.
Local Abbreviation Digraph := (Digraph VertexInfo EdgeInfo).
Local Abbreviation DigraphVertex := (DigraphVertex VertexInfo EdgeInfo).

Lemma pq_extract_None (q : list (float * Z)) : pq_extract q = None → q = [].
Proof.
  destruct q as [|x r]; [done|]. simpl.
  destruct (pq_extract r) as [[y r']|]; [|done]. by case_match.
Qed.

Lemma pq_extract_Some (q : list (float * Z)) top rest :
  pq_extract q = Some (top, rest) → q ≡ₚ top :: rest.
Proof.
  revert top rest. induction q as [|x r IH]; intros top rest; [done|]. simpl.
  destruct (pq_extract r) as [[y r']|] eqn:Hr.
  - pose proof (IH y r' eq_refl) as Hperm. case_match.
    + intros [= <- <-]. rewrite Hperm. apply perm_swap.
    + by intros [= <- <-].
  - apply pq_extract_None in Hr as ->. by intros [= <- <-].
Qed.

Lemma indexOf_lookup (vertex : Z) (l : list Z) :
  vertex ∈ l →
  0 ≤ indexOf vertex l < Z.of_nat (length l) ∧ l !! Z.to_nat (indexOf vertex l) = Some vertex.
Proof.
  intros (k & -> & Hk & _)%indexOf_in. rewrite Nat2Z.id.
  split; [|done]. apply lookup_lt_Some in Hk. lia.
Qed.

Lemma indexOf_inj (a b : Z) (l : list Z) :
  a ∈ l → b ∈ l → indexOf a l = indexOf b l → a = b.
Proof.
  intros [_ Ha]%indexOf_lookup [_ Hb]%indexOf_lookup Heq.
  rewrite Heq, Hb in Ha. by injection Ha.
Qed.

Lemma vec_get_Ret {A} (l : list A) (i : Z) :
  0 ≤ i < Z.of_nat (length l) → ∃ x, vec_get l i = Ret x ∧ l !! Z.to_nat i = Some x.
Proof.
  intros Hi. unfold vec_get. rewrite decide_True by lia.
  destruct (lookup_lt_is_Some_2 l (Z.to_nat i)) as [x Hx]; [lia|].
  rewrite Hx. eauto.
Qed.

Lemma edgeInfo_loop_Ret to (l : list (DigraphEdge EdgeInfo)) :
  (∃ ed, ed ∈ l ∧ toVertex ed = to) → ∃ info, edgeInfo_loop to l = Ret info.
Proof.
  induction l as [|x l IH]; intros (ed & Hed & Hto); [by apply elem_of_nil in Hed|].
  simpl. case_decide as Hx; [by eexists|].
  apply IH. apply elem_of_cons in Hed as [->|Hed]; [done|]. eauto.
Qed.

Lemma wf_present (g : Digraph) n dv : wf g → m g !! n = Some dv → n ∈ v g.
Proof. intros Hwf Hdv. apply (wf_v_dom g Hwf). by rewrite Hdv. Qed.

Lemma edgeInfo_Ret (g : Digraph) from to dv ed :
  wf g → m g !! from = Some dv → ed ∈ edges dv → toVertex ed = to →
  ∃ info, edgeInfo from to g = Ret info.
Proof.
  intros Hwf Hdv Hed Hto. unfold edgeInfo.
  rewrite (VertexExist_Ret from) by (by apply (wf_present g from dv)).
  rewrite (VertexExist_Ret to).
  2: { apply (wf_v_dom g Hwf). rewrite <- Hto. by apply (wf_to g Hwf from dv). }
  simpl. rewrite (map_at_Some _ _ _ Hdv). simpl. apply edgeInfo_loop_Ret. eauto.
Qed.

Lemma pending_mark (g : Digraph) (vertices : list Z) : ∀ (marks : list bool) (k : nat) vertex,
  vertices !! k = Some vertex → marks !! k = Some false →
  (pending g vertices (<[k := true]> marks) + length (adjacency (m g) vertex)
   = pending g vertices marks)%nat.
Proof.
  induction vertices as [|n vertices IH]; intros marks k vertex Hv Hk; [done|].
  destruct marks as [|b marks]; [done|]. destruct k as [|k]; simpl in *.
  - injection Hv as ->. injection Hk as ->. lia.
  - rewrite <- (IH marks k vertex Hv Hk). lia.
Qed.

Lemma pending_unmarked (g : Digraph) (vertices : list Z) :
  pending g vertices (replicate (length vertices) false)
  = length (vertices ≫= λ n, out_pairs (adjacency (m g) n)).
Proof.
  induction vertices as [|n vertices IH]; [done|].
  rewrite bind_cons, length_app. cbn [length replicate pending]. rewrite IH.
  unfold out_pairs at 2. by rewrite length_fmap.
Qed.

End ShortestPaths.

Section ShortestPathsLoop.
Context {VertexInfo EdgeInfo : Type}.
Local Abbreviation Digraph := (Digraph VertexInfo EdgeInfo).
Local Abbreviation DigraphVertex := (DigraphVertex VertexInfo EdgeInfo).

Lemma vec_set_Ret {A} (l : list A) (i : Z) (x : A) :
  0 ≤ i < Z.of_nat (length l) → vec_set l i x = Ret (<[Z.to_nat i := x]> l).
Proof. intros Hi. unfold vec_set. by rewrite decide_True. Qed.

Lemma vec_get_insert {A} (l : list A) (i : Z) (x : A) :
  0 ≤ i < Z.of_nat (length l) → vec_get (<[Z.to_nat i := x]> l) i = Ret x.
Proof.
  intros Hi. unfold vec_get. rewrite decide_True by lia.
  by rewrite list_lookup_insert_eq by lia.
Qed.

(** One relaxation keeps the invariant, leaves [Kv] alone and pushes at
    most one pair; with tame weights the target of the edge ends up
    touched. *)
Lemma relax_inv (g : Digraph) startVertex edgeWeightFunc vertex dv st ed :
  wf g → m g !! vertex = Some dv → ed ∈ edges dv → path g startVertex vertex →
  sp_inv g startVertex edgeWeightFunc st →
  ∃ st', relax g edgeWeightFunc (v g) vertex (indexOf vertex (v g)) st ed = Ret st' ∧
    sp_inv g startVertex edgeWeightFunc st' ∧ Kv st' = Kv st ∧
    (length (pq st') ≤ S (length (pq st)))%nat ∧
    (tame_weights edgeWeightFunc → sp_tame g startVertex (Some vertex) st →
     touched g st vertex →
     sp_tame g startVertex (Some vertex) st' ∧ touched g st' (toVertex ed) ∧
     ∀ u, touched g st u → touched g st' u).
Proof.
  intros Hwf Hdv Hed Hpath Hinv.
  assert (vertex ∈ v g) as Hvertex by by apply (wf_present g vertex dv).
  assert (toVertex ed ∈ v g) as Hto.
  { apply (wf_v_dom g Hwf). by apply (wf_to g Hwf vertex dv). }
  assert (edge_rel g vertex (toVertex ed)) as Hedge.
  { exists ed. by rewrite (adjacency_Some _ _ _ Hdv). }
  destruct (indexOf_lookup _ _ Hvertex) as [Hk Hkv].
  destruct (indexOf_lookup _ _ Hto) as [HkW HkWv].
  pose proof (inv_Dv _ _ _ _ Hinv) as HlenD.
  destruct (vec_get_Ret (Dv st) (indexOf (toVertex ed) (v g))) as (dW & HdW & HdWl); [lia|].
  destruct (vec_get_Ret (Dv st) (indexOf vertex (v g))) as (dI & HdI & HdIl); [lia|].
  destruct (edgeInfo_Ret g vertex (toVertex ed) dv ed Hwf Hdv Hed eq_refl) as [info Hinfo].
  unfold relax. rewrite HdW, HdI, Hinfo. simpl.
  destruct (PrimFloat.ltb _ dW) eqn:Hlt.
  2: { exists st. split_and!; try done; [lia|].
       intros (Hw & Hbelow & _) Htame (d & Hd & HdMAX). split_and!; try done.
       rewrite HdIl in Hd. injection Hd as <-.
       destruct (inv_start _ _ _ _ Hinv Hw) as (_ & _ & Hnn).
       destruct (tame_Dv _ _ _ _ Htame _ _ HdWl) as [->|HdW'].
       - by rewrite (Hbelow dI info) in Hlt by eauto.
       - by exists dW. }
  rewrite vec_set_Ret by lia. simpl. rewrite vec_get_insert by lia. simpl.
  eexists. split; [done|].
  pose proof Hinv as [HKv HDv Hpq Hdom Hpred Hstart]. split_and!; try done.
  - split; simpl.
    + done.
    + by rewrite length_insert.
    + intros p [->|Hp]%elem_of_cons; [|by apply Hpq]. simpl.
      split; [done|]. by eapply rtc_r.
    + intros n. rewrite lookup_insert_is_Some', Hdom. split; [|by right].
      intros [<-|?]; done.
    + intros n p. rewrite lookup_insert_Some. intros [[<- <-]|[_ Hn]] Hne; [done|].
      by apply Hpred.
    + intros Hw. destruct (Hstart Hw) as (HPs & HDs & Hnn).
      assert (not_negative (PrimFloat.add dI (edgeWeightFunc info)) = true) as Hsum.
      { apply add_not_negative; [by eapply Hnn|]. apply leb_zero_not_negative, Hw. }
      assert (toVertex ed ≠ startVertex) as Hne.
      { intros Heq. rewrite Heq, HDs in HdWl. injection HdWl as <-.
        by rewrite not_negative_ltb_zero in Hlt. }
      split; [by rewrite lookup_insert_ne|]. split.
      * rewrite list_lookup_insert_ne; [done|]. intros Heq. apply Hne.
        destruct (indexOf_lookup startVertex (v g)) as [_ Hsv].
        { apply Hdom. by rewrite HPs. }
        rewrite <- Heq, HkWv in Hsv. by injection Hsv.
      * intros i d [(_ & <- & _)|[_ Hd]]%list_lookup_insert_Some; [done|]. by eapply Hnn.
  - intros (Hw & Hbelow & Hgrow) Htame (d & Hd & HdMAX).
    rewrite HdIl in Hd. injection Hd as <-.
    destruct (Hstart Hw) as (_ & _ & Hnn).
    assert (PrimFloat.ltb (PrimFloat.add dI (edgeWeightFunc info)) DBL_MAX = true) as Hnew
      by eauto.
    assert (touched g (mkSp (Kv st) (<[toVertex ed := vertex]> (Pv st))
                         (<[Z.to_nat (indexOf (toVertex ed) (v g)) :=
                              PrimFloat.add dI (edgeWeightFunc info)]> (Dv st))
                         (pq_push (pq st) (PrimFloat.add dI (edgeWeightFunc info), toVertex ed)))
                    (toVertex ed)) as Htouched.
    { eexists. split; [|exact Hnew]. simpl. apply list_lookup_insert_eq. lia. }
    assert (∀ u, touched g st u →
              touched g (mkSp (Kv st) (<[toVertex ed := vertex]> (Pv st))
                         (<[Z.to_nat (indexOf (toVertex ed) (v g)) :=
                              PrimFloat.add dI (edgeWeightFunc info)]> (Dv st))
                         (pq_push (pq st) (PrimFloat.add dI (edgeWeightFunc info), toVertex ed)))
                      u) as Hmono.
    { intros u (du & Hdu & HduMAX). unfold touched. simpl.
      destruct (decide (Z.to_nat (indexOf (toVertex ed) (v g)) = Z.to_nat (indexOf u (v g))))
        as [Heq|Hne].
      - rewrite <- Heq. eexists. split; [|exact Hnew]. apply list_lookup_insert_eq. lia.
      - exists du. by rewrite list_lookup_insert_ne. }
    assert (∀ u, u ∈ v g → u ≠ toVertex ed →
              touched g (mkSp (Kv st) (<[toVertex ed := vertex]> (Pv st))
                         (<[Z.to_nat (indexOf (toVertex ed) (v g)) :=
                              PrimFloat.add dI (edgeWeightFunc info)]> (Dv st))
                         (pq_push (pq st) (PrimFloat.add dI (edgeWeightFunc info), toVertex ed)))
                      u → touched g st u) as Hback.
    { intros u Hu Hne (du & Hdu & HduMAX). exists du. split; [|done]. simpl in Hdu.
      rewrite list_lookup_insert_ne in Hdu; [done|]. intros Heq. apply Hne.
      destruct (indexOf_lookup _ _ Hu) as [Hku _].
      symmetry. apply (indexOf_inj _ _ (v g)); [done|done|lia]. }
    split; [|by split]. destruct Htame as [TDv Tstart Tpq Tseen Tpred Tclosed]. split.
    + simpl. intros i d [(_ & <- & _)|[_ Hd]]%list_lookup_insert_Some; [by right|eauto].
    + by apply Hmono.
    + simpl. intros p [->|Hp]%elem_of_cons; [done|]. by apply Hmono, Tpq.
    + intros u Hu Hut. destruct (decide (u = toVertex ed)) as [->|Hne].
      * right. eexists. split; [left|done].
      * destruct (Tseen u Hu (Hback u Hu Hne Hut)) as [?|(p & Hp & Hpu)]; [by left|].
        right. exists p. split; [by right|done].
    + intros u Hu Hut Hus. simpl. destruct (decide (u = toVertex ed)) as [->|Hne].
      * exists vertex. split; [by rewrite lookup_insert_eq|].
        intros Heq. assert (dW = dI) as -> by (rewrite <- Heq in HdWl; congruence).
        by rewrite (Hgrow dI info) in Hlt by eauto.
      * rewrite lookup_insert_ne by done. apply Tpred; [done|by apply Hback|done].
    + intros u w Hu Huv Hcur Huw. apply Hmono. by eapply Tclosed.
Qed.

Lemma relax_fold_inv (g : Digraph) startVertex edgeWeightFunc vertex dv es :
  wf g → m g !! vertex = Some dv → path g startVertex vertex →
  (∀ ed, ed ∈ es → ed ∈ edges dv) → ∀ st,
  sp_inv g startVertex edgeWeightFunc st →
  ∃ st', foldM (relax g edgeWeightFunc (v g) vertex (indexOf vertex (v g))) st es = Ret st' ∧
    sp_inv g startVertex edgeWeightFunc st' ∧ Kv st' = Kv st ∧
    (length (pq st') ≤ length (pq st) + length es)%nat ∧
    (tame_weights edgeWeightFunc → sp_tame g startVertex (Some vertex) st →
     touched g st vertex →
     sp_tame g startVertex (Some vertex) st' ∧
     (∀ ed, ed ∈ es → touched g st' (toVertex ed)) ∧
     ∀ u, touched g st u → touched g st' u).
Proof.
  intros Hwf Hdv Hpath. induction es as [|ed es IH]; intros Hes st Hinv.
  - exists st. split_and!; try done; [simpl; lia|].
    intros _ Htame _. split_and!; try done. by intros ed ?%elem_of_nil.
  - destruct (relax_inv g startVertex edgeWeightFunc vertex dv st ed)
      as (st1 & Hrun1 & Hinv1 & HKv1 & Hlen1 & Htame1); try done.
    { apply Hes. left. }
    destruct (IH (λ e0 He0, Hes e0 (list_elem_of_further _ _ _ He0)) st1 Hinv1)
      as (st' & Hrun & Hinv' & HKv' & Hlen' & Htame').
    exists st'. simpl. rewrite Hrun1. simpl. split_and!; try done.
    + by rewrite HKv'.
    + simpl. lia.
    + intros Hw Ht Hvertex. destruct (Htame1 Hw Ht Hvertex) as (Ht1 & Hed1 & Hmono1).
      destruct (Htame' Hw Ht1 (Hmono1 _ Hvertex)) as (Ht' & Hes' & Hmono').
      split_and!; try done; [|by auto].
      intros e0 [->|He0]%elem_of_cons; [by apply Hmono'|by apply Hes'].
Qed.

(** The loop returns within the fuel, with the queue empty and in a state
    where the invariant holds. *)
Lemma sp_loop_inv (g : Digraph) startVertex edgeWeightFunc (fuel : nat) : ∀ st,
  wf g → sp_inv g startVertex edgeWeightFunc st →
  (length (pq st) + pending g (v g) (Kv st) < fuel)%nat →
  ∃ st', sp_loop fuel g edgeWeightFunc (v g) st = Ret (Pv st') ∧
    sp_inv g startVertex edgeWeightFunc st' ∧ pq st' = [] ∧
    (tame_weights edgeWeightFunc → sp_tame g startVertex None st →
     sp_tame g startVertex None st').
Proof.
  induction fuel as [|fuel IH]; intros st Hwf Hinv Hfuel; [lia|].
  cbn [sp_loop]. destruct (pq_extract (pq st)) as [[top rest]|] eqn:Hpop.
  2: { exists st. split_and!; try done. by apply pq_extract_None. }
  apply pq_extract_Some in Hpop.
  assert (top ∈ pq st) as Htop by (rewrite Hpop; left).
  assert (∀ p, p ∈ rest → p ∈ pq st) as Hrest by (intros p Hp; rewrite Hpop; by right).
  assert (length (pq st) = S (length rest)) as Hlen by by rewrite Hpop.
  destruct (inv_pq _ _ _ _ Hinv top Htop) as [Hin Hpath].
  destruct (indexOf_lookup _ _ Hin) as [Hk Hkv].
  pose proof (inv_Kv _ _ _ _ Hinv) as HlenK.
  destruct (vec_get_Ret (Kv st) (indexOf top.2 (v g))) as (k & -> & Hkl); [lia|]. simpl.
  assert (∀ K, length K = length (v g) →
            sp_inv g startVertex edgeWeightFunc (mkSp K (Pv st) (Dv st) rest)) as Hinv0.
  { intros K HK. destruct Hinv as [HKv HDv Hpq Hdom Hpred Hstart]. split; simpl; try done.
    intros p Hp. by apply Hpq, Hrest. }
  destruct k; simpl.
  - destruct (IH (mkSp (Kv st) (Pv st) (Dv st) rest)) as (st' & Hrun & Hinv' & Hq & Htame');
      [done|by apply Hinv0|simpl; lia|].
    exists st'. split_and!; try done. intros Hw Ht. apply Htame'; [done|].
    destruct Ht as [TDv Tstart Tpq Tseen Tpred Tclosed]. split; try done.
    + intros p Hp. by apply Tpq, Hrest.
    + intros u Hu Hut. destruct (Tseen u Hu Hut) as [?|(p & Hp & Hpu)]; [by left|].
      rewrite Hpop in Hp. apply elem_of_cons in Hp as [->|Hp].
      * left. by rewrite <- Hpu.
      * right. by exists p.
  - rewrite vec_set_Ret by lia. simpl.
    destruct ((proj1 (wf_v_dom g Hwf top.2)) Hin) as [dv Hdv].
    rewrite (map_at_Some _ _ _ Hdv). simpl.
    assert (length (<[Z.to_nat (indexOf top.2 (v g)) := true]> (Kv st)) = length (v g))
      as HlenK' by by rewrite length_insert.
    destruct (relax_fold_inv g startVertex edgeWeightFunc top.2 dv (edges dv) Hwf Hdv Hpath
                (λ _ H, H) _ (Hinv0 _ HlenK'))
      as (st1 & -> & Hinv1 & HKv1 & Hlen1 & Htame1).
    simpl.
    destruct (IH st1) as (st' & Hrun & Hinv' & Hq & Htame'); [done|done| |].
    { rewrite HKv1. simpl in *.
      pose proof (pending_mark g (v g) (Kv st) _ _ Hkv Hkl) as Hmark.
      rewrite (adjacency_Some _ _ _ Hdv) in Hmark. lia. }
    exists st'. split_and!; try done. intros Hw Ht. apply Htame'; [done|].
    assert (∀ u, visited g st u →
              visited g (mkSp (<[Z.to_nat (indexOf top.2 (v g)) := true]> (Kv st))
                           (Pv st) (Dv st) rest) u) as Hvis.
    { intros u Hu. unfold visited in *. simpl.
      destruct (decide (Z.to_nat (indexOf top.2 (v g)) = Z.to_nat (indexOf u (v g))))
        as [Heq|Hne].
      - rewrite <- Heq. apply list_lookup_insert_eq. lia.
      - by rewrite list_lookup_insert_ne. }
    assert (visited g (mkSp (<[Z.to_nat (indexOf top.2 (v g)) := true]> (Kv st))
                         (Pv st) (Dv st) rest) top.2) as Hvtop.
    { unfold visited. simpl. apply list_lookup_insert_eq. lia. }
    destruct Htame1 as (Ht1 & Hes1 & Hmono1); [done| |by apply (tame_pq _ _ _ _ Ht)|].
    { destruct Ht as [TDv Tstart Tpq Tseen Tpred Tclosed]. split; try done.
      - intros p Hp. by apply Tpq, Hrest.
      - intros u Hu Hut. destruct (Tseen u Hu Hut) as [?|(p & Hp & Hpu)]; [left; by apply Hvis|].
        rewrite Hpop in Hp. apply elem_of_cons in Hp as [->|Hp].
        + left. by rewrite <- Hpu.
        + right. by exists p.
      - intros u w Hu Huv Hcur Huw. apply (Tclosed u w); try done.
        unfold visited in *. simpl in Huv.
        rewrite list_lookup_insert_ne in Huv; [done|]. intros Heq. apply Hcur. f_equal.
        destruct (indexOf_lookup _ _ Hu) as [Hku _].
        symmetry. apply (indexOf_inj _ _ (v g)); [done|done|lia]. }
    destruct Ht1 as [TDv Tstart Tpq Tseen Tpred Tclosed]. split; try done.
    intros u w Hu Huv _ Huw. destruct (decide (u = top.2)) as [->|Hne].
    + destruct Huw as (ed & Hed & <-). apply Hes1.
      by rewrite <- (adjacency_Some _ _ _ Hdv).
    + apply (Tclosed u w); try done. by intros [= ->].
Qed.

End ShortestPathsLoop.

(** ** Shortest paths: the claims *)

Section ShortestPathsClaims.
Context {VertexInfo EdgeInfo : Type}.
Local Abbreviation Digraph := (Digraph VertexInfo EdgeInfo).
Local Abbreviation DigraphVertex := (DigraphVertex VertexInfo EdgeInfo).

Lemma Pv_init_lookup (l : list Z) : ∀ (P : gmap Z Z) n,
  foldl (λ P vertex, <[vertex := vertex]> P) P l !! n
  = if decide (n ∈ l) then Some n else P !! n.
Proof.
  induction l as [|x l IH]; intros P n; cbn [foldl].
  - case_decide as Hn; [by apply elem_of_nil in Hn|done].
  - rewrite IH. destruct (decide (n ∈ l)) as [Hn|Hn].
    + rewrite decide_True; [done|by right].
    + destruct (decide (n = x)) as [->|Hne].
      * rewrite lookup_insert_eq, decide_True; [done|left].
      * rewrite lookup_insert_ne by done. rewrite decide_False; [done|].
        by intros [?|?]%elem_of_cons.
Qed.

Lemma sp_init_inv (g : Digraph) startVertex edgeWeightFunc :
  wf g → startVertex ∈ v g →
  ∃ st, sp_init g startVertex = Ret st ∧ sp_inv g startVertex edgeWeightFunc st ∧
    (length (pq st) + pending g (v g) (Kv st) < sp_fuel g)%nat ∧
    sp_tame g startVertex None st.
Proof.
  intros Hwf Hstart. destruct (indexOf_lookup _ _ Hstart) as [Hk Hkv].
  unfold sp_init. rewrite vec_set_Ret by (rewrite length_replicate; lia). simpl.
  eexists. split; [done|]. split; [split; simpl|split].
  - by rewrite length_replicate.
  - by rewrite length_insert, length_replicate.
  - intros p ->%list_elem_of_singleton. done.
  - intros n. rewrite Pv_init_lookup. case_decide; [by split; [|eexists]|].
    rewrite lookup_empty. split; [by intros [? ?]|done].
  - intros n p. rewrite Pv_init_lookup. case_decide; [congruence|by rewrite lookup_empty].
  - intros _. split; [by rewrite Pv_init_lookup, decide_True|]. split.
    + apply list_lookup_insert_eq. rewrite length_replicate. lia.
    + intros i d [(_ & <- & _)|[_ [-> _]%lookup_replicate]]%list_lookup_insert_Some; done.
  - simpl. unfold pq_push. simpl. rewrite pending_unmarked. unfold sp_fuel.
    fold (all_edges g). rewrite <- (wf_e g Hwf). lia.
  - assert (∀ u, u ∈ v g →
              touched g (mkSp (replicate (length (v g)) false)
                           (foldl (λ P vertex, <[vertex:=vertex]> P) ∅ (v g))
                           (<[Z.to_nat (indexOf startVertex (v g)) := 0%float]>
                              (replicate (length (v g)) DBL_MAX))
                           (pq_push [] (0%float, startVertex))) u →
              u = startVertex) as Honly.
    { intros u Hu (d & Hd & HdMAX). simpl in Hd.
      apply list_lookup_insert_Some in Hd as [(Heq & _ & _)|[_ [-> _]%lookup_replicate]];
        [|done].
      destruct (indexOf_lookup _ _ Hu) as [Hku _].
      symmetry. apply (indexOf_inj _ _ (v g)); [done|done|lia]. }
    assert (touched g (mkSp (replicate (length (v g)) false)
                         (foldl (λ P vertex, <[vertex:=vertex]> P) ∅ (v g))
                         (<[Z.to_nat (indexOf startVertex (v g)) := 0%float]>
                            (replicate (length (v g)) DBL_MAX))
                         (pq_push [] (0%float, startVertex))) startVertex) as Htouched.
    { exists 0%float. split; [|done]. simpl. apply list_lookup_insert_eq.
      rewrite length_replicate. lia. }
    split; simpl.
    + intros i d [(_ & <- & _)|[_ [-> _]%lookup_replicate]]%list_lookup_insert_Some;
        [by right|by left].
    + done.
    + by intros p ->%list_elem_of_singleton.
    + intros u Hu ->%Honly; [|done]. right. eexists. split; [left|done].
    + intros u Hu Hut Hne. by destruct Hne; apply Honly.
    + intros u w _ [Hv _]%lookup_replicate. done.
Qed.

(** What [findShortestPaths] returns from a start vertex of the graph. *)
Lemma findShortestPaths_inv (g : Digraph) startVertex edgeWeightFunc :
  wf g → startVertex ∈ v g →
  ∃ st, findShortestPaths startVertex edgeWeightFunc g = Ret (Pv st) ∧
    sp_inv g startVertex edgeWeightFunc st ∧ pq st = [] ∧
    (tame_weights edgeWeightFunc → sp_tame g startVertex None st).
Proof.
  intros Hwf Hstart.
  destruct (sp_init_inv g startVertex edgeWeightFunc Hwf Hstart)
    as (st0 & Hinit & Hinv0 & Hfuel & Htame0).
  unfold findShortestPaths. rewrite Hinit.
  destruct (sp_loop_inv g startVertex edgeWeightFunc (sp_fuel g) st0 Hwf Hinv0 Hfuel)
    as (st & Hrun & Hinv & Hq & Htame).
  exists st. split_and!; try done. intros Hw. by apply Htame.
Qed.

(** The weight function that is zero everywhere is tame. *)
Lemma zero_weights_tame : tame_weights (λ _ : EdgeInfo, 0%float).
Proof.
  split; [done|]. split.
  - intros d _ _ Hd. by rewrite add_zero_ltb.
  - intros d _ _. apply add_zero_ltb_self.
Qed.

(** With tame weights every vertex reachable from the start has had its
    distance improved when the loop ends. *)
Lemma reachable_touched (g : Digraph) startVertex st :
  wf g → startVertex ∈ v g → pq st = [] → sp_tame g startVertex None st →
  ∀ n, path g startVertex n → n ∈ v g ∧ touched g st n.
Proof.
  intros Hwf Hstart Hq [TDv Tstart Tpq Tseen Tpred Tclosed].
  apply (rtc_ind_r (λ n, n ∈ v g ∧ touched g st n)); [done|].
  intros y z _ Hyz [Hy Hty]. split; [by eapply edge_rel_present|].
  apply (Tclosed y z); try done.
  destruct (Tseen y Hy Hty) as [?|(p & Hp & _)]; [done|].
  rewrite Hq in Hp. by apply elem_of_nil in Hp.
Qed.

(** C9: [findShortestPaths] does not check its start vertex.  When the
    start vertex is absent, [indexOf] returns -1, the write [Dv[-1] = 0] is
    outside the vector, and the call ends in undefined behaviour, not in
    an exception.  When it is present, the call returns a map: every index
    used is inside its vector, and the loop ends. *)
Theorem findShortestPaths_start_unchecked (startVertex : Z)
    (edgeWeightFunc : EdgeInfo → float) (g : Digraph) :
  reachable g →
  (startVertex ∉ vertices g →
     indexOf startVertex (v g) = -1 ∧
     vec_set (replicate (length (v g)) DBL_MAX) (-1) 0%float = Undefined ∧
     findShortestPaths startVertex edgeWeightFunc g = Undefined) ∧
  (startVertex ∈ vertices g →
     ∃ P, findShortestPaths startVertex edgeWeightFunc g = Ret P).
Proof.
  intros Hwf%reachable_wf. split.
  - intros Hno. unfold vertices in Hno.
    pose proof (indexOf_notin _ _ Hno) as Hidx. split; [done|].
    split; [done|]. unfold findShortestPaths, sp_init. by rewrite Hidx.
  - intros Hin.
    destruct (findShortestPaths_inv g startVertex edgeWeightFunc Hwf Hin) as (st & -> & _).
    by eexists.
Qed.

Lemma size_dom_list (P : gmap Z Z) (l : list Z) :
  NoDup l → (∀ n, is_Some (P !! n) ↔ n ∈ l) → size P = length l.
Proof.
  intros Hnd Hdom. rewrite <- length_map_to_list, <- (length_fmap fst).
  apply Permutation_length, NoDup_Permutation; [apply NoDup_fst_map_to_list|done|].
  intros n. rewrite <- Hdom, list_elem_of_fmap. split.
  - intros ([n' p] & -> & Hin%elem_of_map_to_list). by eexists.
  - intros [p Hp]. exists (n, p). split; [done|]. by apply elem_of_map_to_list.
Qed.

(** C2, as the code has it: from a start vertex of the graph and with
    weights that are never below zero, [findShortestPaths] returns a map
    with exactly one entry per vertex of the graph; the start vertex and
    every vertex not reachable from it map to themselves; and a vertex
    mapped to another vertex is entered by an edge from that vertex, which
    is itself reachable from the start.  When moreover the sums the loop
    computes stay below [DBL_MAX] ([tame_weights]), the entries that map
    to themselves are exactly those of the start vertex and of the
    vertices not reachable from it. *)
Theorem findShortestPaths_predecessors (startVertex : Z)
    (edgeWeightFunc : EdgeInfo → float) (g : Digraph) :
  reachable g → startVertex ∈ vertices g → nonneg_weights edgeWeightFunc →
  ∃ P, findShortestPaths startVertex edgeWeightFunc g = Ret P ∧
    Z.of_nat (size P) = vertexCount g ∧
    (∀ n, is_Some (P !! n) ↔ n ∈ vertices g) ∧
    P !! startVertex = Some startVertex ∧
    (∀ n, n ∈ vertices g → ¬ path g startVertex n → P !! n = Some n) ∧
    (∀ n p, P !! n = Some p → p ≠ n →
       path g startVertex p ∧ edge_rel g p n ∧ path g startVertex n) ∧
    (tame_weights edgeWeightFunc →
       self_exactly_when_start_or_unreachable g startVertex P).
Proof.
  intros Hwf%reachable_wf Hin Hw.
  destruct (findShortestPaths_inv g startVertex edgeWeightFunc Hwf Hin)
    as (st & -> & [_ _ _ Hdom Hpred Hstart] & Hq & Htame).
  assert (∀ n, n ∈ vertices g → ¬ path g startVertex n → Pv st !! n = Some n) as Hfar.
  { intros n Hn Hno. destruct ((proj2 (Hdom n)) Hn) as [p Hp]. rewrite Hp. f_equal.
    destruct (decide (p = n)) as [|Hne]; [done|]. destruct Hno.
    destruct (Hpred n p Hp Hne). by eapply rtc_r. }
  exists (Pv st). split; [done|]. split_and!.
  - unfold vertexCount. rewrite (wf_vertexC g Hwf). f_equal.
    apply size_dom_list; [apply Hwf|done].
  - done.
  - by destruct (Hstart Hw).
  - done.
  - intros n p Hp Hne. destruct (Hpred n p Hp Hne). split_and!; try done. by eapply rtc_r.
  - intros Ht n Hn. split.
    + intros Hself. destruct (decide (n = startVertex)) as [|Hne]; [by left|]. right.
      intros Hpath.
      destruct (reachable_touched g startVertex st Hwf Hin Hq (Htame Ht) n Hpath) as [_ Hnt].
      destruct (tame_pred _ _ _ _ (Htame Ht) n Hn Hnt Hne) as (p & Hp & Hpn). congruence.
    + intros [->|Hno]; [by destruct (Hstart Hw)|by apply Hfar].
Qed.

End ShortestPathsClaims.

(** C3: on the graph with vertices 1, 2, 3 and edges 1→2 of weight 5, 1→3
    of weight 2 and 3→2 of weight 1, [findShortestPaths(1, weightFn)]
    returns the map 1→1, 2→3, 3→1. *)
Example triangle_shortest_paths :
  findShortestPaths 1 id triangle = Ret (list_to_map [(1, 1); (2, 3); (3, 1)]).
Proof. vm_compute. reflexivity. Qed.

(** C2 fails as stated: the graph is built by the public operations, the
    weight [DBL_MAX] is finite and not below zero, vertex 2 is reachable
    from vertex 1 and is not the start, and yet vertex 2 maps to itself:
    [DBL_MAX > 0 + DBL_MAX] is false, so the edge 1→2 never improves the
    distance the vector started with. *)
Lemma heavy_edge_maps_to_itself :
  reachable heavy ∧
  nonneg_weights heavy_weight ∧
  (∀ ei, PrimFloat.is_finite (heavy_weight ei) = true) ∧
  1 ∈ vertices heavy ∧
  ∃ P, findShortestPaths 1 heavy_weight heavy = Ret P ∧
    ¬ self_exactly_when_start_or_unreachable heavy 1 P.
Proof.
  split.
  { unfold heavy, build. cbn [foldl]. repeat apply reachable_perform. apply reachable_new. }
  split; [by intros []|]. split; [by intros []|]. split; [left|].
  eexists. split; [vm_compute; reflexivity|].
  intros Hclaim. destruct (Hclaim 2) as [Hself _]; [right; left|].
  destruct Hself as [?|Hno]; [by vm_compute|done|].
  apply Hno, rtc_once. exists (mkEdge 1 2 tt). split; [|done].
  assert (adjacency (m heavy) 1 = [mkEdge 1 2 tt]) as -> by (vm_compute; reflexivity).
  left.
Qed.

(** ** Queries and [addVertex] *)

Section Queries.
Context {VertexInfo EdgeInfo : Type}.
Local Abbreviation Digraph := (Digraph VertexInfo EdgeInfo).
Local Abbreviation DigraphVertex := (DigraphVertex VertexInfo EdgeInfo).

(** X1: [addVertex(v, info)] on a graph without [v] returns; [vertexInfo(v)]
    then returns [info] and the vertex count has grown by one. *)
Theorem addVertex_then_vertexInfo (vertex : Z) (info : VertexInfo) (g : Digraph) :
  reachable g → vertex ∉ vertices g →
  ∃ g', addVertex vertex info g = (Ret tt, g') ∧
    vertexInfo vertex g' = Ret info ∧
    vertexCount g' = vertexCount g + 1 ∧ edgeCount g' = edgeCount g.
Proof.
  intros Hwf%reachable_wf Hno.
  assert (m g !! vertex = None) as Hnone.
  { destruct (m g !! vertex) as [dv|] eqn:Hdv; [|done]. destruct Hno.
    by apply (wf_present g vertex dv). }
  eexists. split; [by apply addVertex_Ret|]. split_and!; try done.
  unfold vertexInfo. rewrite VertexExist_Ret by (simpl; apply elem_of_app; right; left).
  simpl. unfold map_at. by rewrite lookup_insert_eq.
Qed.

(** X2: [addVertex] with an identifier already in the graph throws a
    [DigraphException] and changes nothing. *)
Theorem addVertex_duplicate (vertex : Z) (info : VertexInfo) (g : Digraph) :
  reachable g → vertex ∈ vertices g →
  ∃ reason, addVertex vertex info g = (Throw (DigraphException reason), g).
Proof.
  intros Hwf%reachable_wf Hin.
  destruct ((proj1 (wf_v_dom g Hwf vertex)) Hin) as [dv Hdv].
  eexists. unfold addVertex. rewrite bind_call. unfold findVertexNotExist.
  by rewrite Hdv.
Qed.

(** X3: [edgeInfo], [edges(vertex)] and [edgeCount(vertex)] throw a
    [DigraphException] when a vertex they name is absent, and [edgeInfo]
    throws one when both vertices are present and not connected. *)
Theorem queries_on_absent (from to : Z) (g : Digraph) :
  reachable g →
  (from ∉ vertices g ∨ to ∉ vertices g →
     ∃ reason, edgeInfo from to g = Throw (DigraphException reason)) ∧
  (from ∉ vertices g →
     (∃ reason, edges_of from g = Throw (DigraphException reason)) ∧
     (∃ reason, edgeCount_of from g = Throw (DigraphException reason)) ∧
     (∃ reason, vertexInfo from g = Throw (DigraphException reason))) ∧
  (from ∈ vertices g → to ∈ vertices g → (from, to) ∉ Digraph_edges g →
     edgeInfo from to g = Throw (DigraphException "No such edge exist")).
Proof.
  intros Hwf%reachable_wf. split_and!.
  - intros Hno. unfold edgeInfo.
    destruct (VertexExist_cases from g) as [[Hf ->]|[_ ->]]; [|by eexists].
    destruct (VertexExist_cases to g) as [[Ht ->]|[_ ->]]; [|by eexists].
    by destruct Hno.
  - intros Hno. unfold edges_of, edgeCount_of, vertexInfo.
    rewrite (VertexExist_Throw from g Hno). split_and!; by eexists.
  - intros Hf Ht Hno. unfold edgeInfo. rewrite !VertexExist_Ret by done. simpl.
    destruct ((proj1 (wf_v_dom g Hwf from)) Hf) as [dv Hdv].
    rewrite (map_at_Some _ _ _ Hdv). simpl.
    assert (∀ x, x ∈ edges dv → toVertex x ≠ to) as Hnew.
    { intros x Hx Hto. apply Hno. unfold Digraph_edges. rewrite (wf_e g Hwf).
      apply elem_of_all_edges. exists from, x.
      rewrite (adjacency_Some _ _ _ Hdv). split_and!; try done.
      by apply (wf_from g Hwf from dv). }
    clear Hdv. induction (edges dv) as [|x l IH]; [done|]. simpl.
    rewrite decide_False by (apply Hnew; left). apply IH.
    intros y Hy. apply Hnew. by right.
Qed.

End Queries.

(** ** Edges added and removed *)

Section EdgeMutators.
Context {VertexInfo EdgeInfo : Type}.
Local Abbreviation Digraph := (Digraph VertexInfo EdgeInfo).
Local Abbreviation DigraphVertex := (DigraphVertex VertexInfo EdgeInfo).

(** [VertexExist] reads only whether the vertex is in [v]. *)
Lemma VertexExist_ext vertex (g g' : Digraph) :
  (vertex ∈ v g' ↔ vertex ∈ v g) → VertexExist vertex g' = VertexExist vertex g.
Proof.
  intros Hiff.
  destruct (VertexExist_cases vertex g) as [[Hin ->]|[Hno ->]].
  - apply VertexExist_Ret. by apply Hiff.
  - apply VertexExist_Throw. by rewrite Hiff.
Qed.

(** [edgeInfo] reads the vertex list and the record of the source. *)
Lemma edgeInfo_ext from to (g g' : Digraph) :
  v g' = v g → m g' !! from = m g !! from → edgeInfo from to g' = edgeInfo from to g.
Proof.
  intros Hv Hm. unfold edgeInfo.
  rewrite (VertexExist_ext from g g'), (VertexExist_ext to g g') by (by rewrite Hv).
  unfold map_at. by rewrite Hm.
Qed.

Lemma vertexInfo_ext n (g g' : Digraph) :
  v g' = v g → vinfo <$> m g' !! n = vinfo <$> m g !! n →
  vertexInfo n g' = vertexInfo n g.
Proof.
  intros Hv Hm. unfold vertexInfo.
  rewrite (VertexExist_ext n g g') by (by rewrite Hv).
  unfold map_at. destruct (m g' !! n), (m g !! n); simpl in *; try done.
  injection Hm as Hm. by rewrite Hm.
Qed.

(** The loop of [edgeInfo] on a list without an edge to [to]. *)
Lemma edgeInfo_loop_Throw to (l : list (DigraphEdge EdgeInfo)) :
  (∀ x, x ∈ l → toVertex x ≠ to) →
  edgeInfo_loop to l = Throw (DigraphException "No such edge exist").
Proof.
  induction l as [|x l IH]; intros Hnew; [done|]. simpl.
  rewrite decide_False by (apply Hnew; left). apply IH.
  intros y Hy. apply Hnew. by right.
Qed.

(** An edge appended to the list is not seen by a search for another
    destination. *)
Lemma edgeInfo_loop_app_other to (l : list (DigraphEdge EdgeInfo)) ed :
  toVertex ed ≠ to → edgeInfo_loop to (l ++ [ed]) = edgeInfo_loop to l.
Proof.
  intros Hne. induction l as [|x l IH]; simpl.
  - by rewrite decide_False.
  - by rewrite IH.
Qed.

(** Dropping the edges to [to] is not seen by a search for another
    destination. *)
Lemma edgeInfo_loop_filter_other to b (l : list (DigraphEdge EdgeInfo)) :
  b ≠ to → edgeInfo_loop b (filter (λ i, toVertex i ≠ to) l) = edgeInfo_loop b l.
Proof.
  intros Hne. induction l as [|x l IH]; [done|].
  rewrite filter_cons. simpl. destruct (decide (toVertex x ≠ to)) as [Hx|Hx%dec_stable].
  - simpl. by rewrite IH.
  - rewrite decide_False by congruence. apply IH.
Qed.

(** A pair is listed in [e] exactly when the adjacency list of its source
    holds an edge to its destination. *)
Lemma elem_of_edges (g : Digraph) from to :
  wf g →
  (from, to) ∈ e g ↔ ∃ dv ed, m g !! from = Some dv ∧ ed ∈ edges dv ∧ toVertex ed = to.
Proof.
  intros Hwf. rewrite (wf_e g Hwf), elem_of_all_edges. split.
  - intros (n & ed & Hn & (dv & Hdv & Hed)%elem_of_adjacency & Hfrom & Hto).
    rewrite (wf_from g Hwf n dv ed Hdv Hed) in Hfrom. subst n. eauto.
  - intros (dv & ed & Hdv & Hed & Hto). exists from, ed.
    rewrite (adjacency_Some _ _ _ Hdv). split_and!; try done.
    + by apply (wf_present g from dv).
    + by apply (wf_from g Hwf from dv).
Qed.

Lemma edges_NoDup (g : Digraph) : wf g → NoDup (e g).
Proof. intros Hwf. rewrite (wf_e g Hwf). by apply all_edges_NoDup. Qed.

(** [std::find] and [erase] on a list without repetition remove every
    occurrence. *)
Lemma erase_first_NoDup `{EqDecision A} (x : A) (l : list A) :
  NoDup l → x ∈ l → erase_first x l = Ret (filter (λ y, y ≠ x) l).
Proof.
  induction 1 as [|y l Hy Hnd IH]; intros Hx; [by apply elem_of_nil in Hx|].
  simpl. rewrite filter_cons. destruct (decide (y = x)) as [->|Hne].
  - rewrite decide_False by (by intros ?). f_equal. symmetry. apply filter_all.
    intros z Hz ->. done.
  - rewrite decide_True by done. apply elem_of_cons in Hx as [->|Hx]; [done|].
    by rewrite (IH Hx).
Qed.

Lemma erase_first_app_new `{EqDecision A} (x : A) (l : list A) :
  x ∉ l → erase_first x (l ++ [x]) = Ret l.
Proof.
  induction l as [|y l IH]; intros Hx; simpl.
  - by rewrite decide_True.
  - rewrite decide_False by (intros ->; apply Hx; left).
    rewrite IH; [done|]. intros ?. apply Hx. by right.
Qed.

(** The two ways a call of [addEdge] ends. *)
Lemma addEdge_cases from to ei (g : Digraph) :
  (∃ dv, m g !! from = Some dv ∧ is_Some (m g !! to) ∧
     (∀ x, x ∈ edges dv → toVertex x ≠ to) ∧
     addEdge from to ei g =
       (Ret tt, mkDigraph (<[from := mkVertex (vinfo dv) (edges dv ++ [mkEdge from to ei])]> (m g))
                  (v g) (e g ++ [(from, to)]) (vertexC g) (edgeC g + 1))) ∨
  (∃ reason, addEdge from to ei g = (Throw (DigraphException reason), g) ∧
     (m g !! from = None ∧ reason = not_exist_reason from ∨
      is_Some (m g !! from) ∧ m g !! to = None ∧ reason = not_exist_reason to ∨
      (∃ dv x, m g !! from = Some dv ∧ is_Some (m g !! to) ∧ x ∈ edges dv ∧ toVertex x = to) ∧
        reason = "Edge exist"%string)).
Proof.
  destruct (m g !! from) as [dv|] eqn:Hfromv.
  2: { right. eexists. split; [|by left].
       unfold addEdge. rewrite bind_call. unfold findVertex at 1. by rewrite Hfromv. }
  destruct (m g !! to) as [dv'|] eqn:Htov.
  2: { right. eexists. split; [|by right; left].
       unfold addEdge. rewrite bind_call. unfold findVertex at 1. rewrite Hfromv.
       rewrite bind_call. unfold findVertex at 1. by rewrite Htov. }
  destruct (addEdge_loop_cases to (edges dv)) as [[Hnew _]|[(x & Hx & Hxto) Hloop]].
  - left. exists dv. split_and!; try done. apply addEdge_Ret; eauto.
  - right. eexists. split; [|right; right; split; [|done]; exists dv, x; eauto].
    unfold addEdge. rewrite bind_call. unfold findVertex at 1. rewrite Hfromv.
    rewrite bind_call. unfold findVertex at 1. rewrite Htov.
    rewrite bind_call. by rewrite Hloop.
Qed.

(** X6: [addEdge(from, to, info)] between two vertices of the graph that
    are not yet connected in that direction returns; afterwards
    [edgeInfo(from, to)] returns [info], [edges()] and [edges(from)] have
    the new pair at their end, the edge count has grown by one, and the
    vertices, their payloads and the payloads of all other edges are as
    before. *)
Theorem addEdge_then_edgeInfo (from to : Z) (info : EdgeInfo) (g : Digraph) :
  reachable g → from ∈ vertices g → to ∈ vertices g → (from, to) ∉ Digraph_edges g →
  ∃ g', addEdge from to info g = (Ret tt, g') ∧
    edgeInfo from to g' = Ret info ∧
    edgeCount g' = edgeCount g + 1 ∧ vertexCount g' = vertexCount g ∧
    vertices g' = vertices g ∧
    Digraph_edges g' = Digraph_edges g ++ [(from, to)] ∧
    (∃ l, edges_of from g = Ret l ∧ edges_of from g' = Ret (l ++ [(from, to)])) ∧
    (∀ a b, (a, b) ≠ (from, to) → edgeInfo a b g' = edgeInfo a b g) ∧
    (∀ n, vertexInfo n g' = vertexInfo n g).
Proof.
  intros Hwf%reachable_wf Hf Ht Hno.
  destruct ((proj1 (wf_v_dom g Hwf from)) Hf) as [dv Hdv].
  assert (∀ x, x ∈ edges dv → toVertex x ≠ to) as Hnew.
  { intros x Hx Hto. apply Hno. apply (elem_of_edges g from to Hwf). eauto. }
  eexists. split.
  { apply (addEdge_Ret _ _ _ _ dv); [done| |done]. by apply (wf_v_dom g Hwf). }
  split_and!; try done.
  - unfold edgeInfo. rewrite !VertexExist_Ret by done. simpl.
    unfold map_at. rewrite lookup_insert_eq. simpl. by apply edgeInfo_loop_app_new.
  - exists (out_pairs (edges dv)). unfold edges_of. rewrite !VertexExist_Ret by done.
    simpl. unfold map_at. rewrite lookup_insert_eq, Hdv. simpl.
    split; [done|]. by rewrite fmap_app.
  - intros a b Hab. destruct (decide (a = from)) as [->|Hne].
    + unfold edgeInfo. simpl.
      rewrite (VertexExist_ext from g), (VertexExist_ext b g) by done.
      unfold map_at. rewrite lookup_insert_eq, Hdv. simpl.
      destruct (VertexExist from g); try done. destruct (VertexExist b g); try done.
      simpl. apply edgeInfo_loop_app_other. simpl. congruence.
    + apply edgeInfo_ext; [done|]. simpl. by rewrite lookup_insert_ne.
  - intros n. apply vertexInfo_ext; [done|]. simpl.
    destruct (decide (n = from)) as [->|Hne].
    + by rewrite lookup_insert_eq, Hdv.
    + by rewrite lookup_insert_ne.
Qed.

(** X7: the three ways [addEdge] fails, in the order the code tests them:
    an absent source, then an absent destination, then an edge that is
    already there; each throws a [DigraphException] with the reason given
    and leaves the graph as it was. *)
Theorem addEdge_errors (from to : Z) (info : EdgeInfo) (g : Digraph) :
  reachable g →
  (from ∉ vertices g →
     addEdge from to info g = (Throw (DigraphException (not_exist_reason from)), g)) ∧
  (from ∈ vertices g → to ∉ vertices g →
     addEdge from to info g = (Throw (DigraphException (not_exist_reason to)), g)) ∧
  (from ∈ vertices g → to ∈ vertices g → (from, to) ∈ Digraph_edges g →
     addEdge from to info g = (Throw (DigraphException "Edge exist"), g)).
Proof.
  intros Hwf%reachable_wf.
  pose proof (wf_v_dom g Hwf) as Hdom. unfold vertices, Digraph_edges.
  destruct (addEdge_cases from to info g)
    as [(dv & Hdv & Hto & Hnew & _)|(reason & -> & Hcase)].
  - split_and!.
    + intros Hno. destruct Hno. apply Hdom. by rewrite Hdv.
    + intros _ Hno. destruct Hno. by apply Hdom.
    + intros _ _ (dv0 & ed & Hdv0 & Hed & Hedto)%(elem_of_edges g from to Hwf).
      rewrite Hdv in Hdv0. injection Hdv0 as <-. by apply Hnew in Hed.
  - destruct Hcase as [[Hnone ->]|[(Hsome & Hnone & ->)|[(dv & x & Hdv & Hto & Hx & Hxto) ->]]].
    + split_and!; [done| |]; intros Hf; apply Hdom in Hf; rewrite Hnone in Hf;
        by destruct Hf.
    + split_and!.
      * intros Hno. destruct Hno. by apply Hdom.
      * done.
      * intros _ Ht. apply Hdom in Ht. rewrite Hnone in Ht. by destruct Ht.
    + split_and!.
      * intros Hno. destruct Hno. apply Hdom. by rewrite Hdv.
      * intros _ Hno. destruct Hno. by apply Hdom.
      * done.
Qed.

(** Dropping the edges to [to] from an adjacency list drops the pair
    [(from, to)] from its pairs. *)
Lemma out_pairs_filter_to from to (l : list (DigraphEdge EdgeInfo)) :
  (∀ ed, ed ∈ l → fromVertex ed = from) →
  out_pairs (filter (λ i, toVertex i ≠ to) l) = filter (λ p, p ≠ (from, to)) (out_pairs l).
Proof.
  induction l as [|x l IH]; intros Hfrom; [done|].
  unfold out_pairs in *. rewrite fmap_cons, !filter_cons.
  rewrite <- IH by (intros ed Hed; apply Hfrom; by right).
  pose proof (Hfrom x ltac:(left)) as Hx.
  destruct (decide (toVertex x ≠ to)) as [Hne|Heq%dec_stable].
  - rewrite decide_True by congruence. done.
  - rewrite decide_False; [done|]. intros Hp. apply Hp. by rewrite Hx, Heq.
Qed.

(** The two ways a call of [removeEdge] ends on a consistent graph. *)
Lemma removeEdge_cases from to (g : Digraph) :
  wf g →
  (∃ dv, (from, to) ∈ e g ∧ m g !! from = Some dv ∧ from ∈ v g ∧ to ∈ v g ∧
     removeEdge from to g =
       (Ret tt,
        mkDigraph (<[from := mkVertex (vinfo dv) (filter (λ i, toVertex i ≠ to) (edges dv))]> (m g))
          (v g) (filter (λ p, p ≠ (from, to)) (e g)) (vertexC g) (edgeC g - 1))) ∨
  (((from, to) ∉ e g) ∧
   ∃ reason, removeEdge from to g = (Throw (DigraphException reason), g) ∧
     ((from ∉ v g) ∧ reason = not_exist_reason from ∨
      from ∈ v g ∧ (to ∉ v g) ∧ reason = not_exist_reason to ∨
      from ∈ v g ∧ to ∈ v g ∧ reason = "No such edge exist"%string)).
Proof.
  intros Hwf. destruct (decide ((from, to) ∈ e g)) as [Hin|Hno].
  - left. pose proof Hin as (dv & ed & Hdv & Hed & Hto)%(elem_of_edges g from to Hwf).
    exists dv. split_and!; try done.
    + by apply (wf_present g from dv).
    + apply (wf_v_dom g Hwf). rewrite <- Hto. by apply (wf_to g Hwf from dv).
    + apply (removeEdge_Ret _ _ _ dv).
      * by apply (edgeInfo_Ret g from to dv ed).
      * done.
      * apply erase_first_NoDup; [by apply edges_NoDup|done].
  - right. split; [done|]. unfold removeEdge. rewrite bind_call. unfold edgeInfo.
    destruct (VertexExist_cases from g) as [[Hf ->]|[Hf ->]]; [|eexists; split; [done|by left]].
    destruct (VertexExist_cases to g) as [[Ht ->]|[Ht ->]];
      [|eexists; split; [done|by right; left]].
    simpl. destruct ((proj1 (wf_v_dom g Hwf from)) Hf) as [dv Hdv].
    rewrite (map_at_Some _ _ _ Hdv). simpl. rewrite edgeInfo_loop_Throw.
    + eexists. split; [done|]. by right; right.
    + intros x Hx Hto. apply Hno. apply (elem_of_edges g from to Hwf). eauto.
Qed.

(** X8: [removeEdge(from, to)] on an edge of the graph returns;
    afterwards [edgeInfo(from, to)] throws, the pair is gone from
    [edges()] and from [edges(from)] while the other pairs keep their
    order, the edge count has
    shrunk by one, and the vertices, their payloads and the payloads of all
    other edges are as before. *)
Theorem removeEdge_then_edgeInfo (from to : Z) (g : Digraph) :
  reachable g → (from, to) ∈ Digraph_edges g →
  ∃ g', removeEdge from to g = (Ret tt, g') ∧
    edgeInfo from to g' = Throw (DigraphException "No such edge exist") ∧
    edgeCount g' = edgeCount g - 1 ∧ vertexCount g' = vertexCount g ∧
    vertices g' = vertices g ∧
    Digraph_edges g' = filter (λ p, p ≠ (from, to)) (Digraph_edges g) ∧
    (∃ l, edges_of from g = Ret l ∧
       edges_of from g' = Ret (filter (λ p, p ≠ (from, to)) l)) ∧
    (∀ a b, (a, b) ≠ (from, to) → edgeInfo a b g' = edgeInfo a b g) ∧
    (∀ n, vertexInfo n g' = vertexInfo n g).
Proof.
  intros Hwf%reachable_wf Hin. unfold Digraph_edges in Hin.
  destruct (removeEdge_cases from to g Hwf)
    as [(dv & _ & Hdv & Hf & Ht & Hrun)|[Hno _]]; [|done].
  eexists. split; [exact Hrun|]. split_and!; try done.
  - unfold edgeInfo. rewrite !VertexExist_Ret by done. simpl.
    unfold map_at. rewrite lookup_insert_eq. simpl. apply edgeInfo_loop_Throw.
    by intros x [? _]%list_elem_of_filter.
  - exists (out_pairs (edges dv)). unfold edges_of. rewrite !VertexExist_Ret by done.
    simpl. unfold map_at. rewrite lookup_insert_eq, Hdv. simpl.
    split; [done|]. f_equal. apply out_pairs_filter_to.
    exact (λ ed, wf_from g Hwf from dv ed Hdv).
  - intros a b Hab. destruct (decide (a = from)) as [->|Hne].
    + unfold edgeInfo. simpl.
      rewrite (VertexExist_ext from g), (VertexExist_ext b g) by done.
      unfold map_at. rewrite lookup_insert_eq, Hdv. simpl.
      destruct (VertexExist from g); try done. destruct (VertexExist b g); try done.
      simpl. apply edgeInfo_loop_filter_other. congruence.
    + apply edgeInfo_ext; [done|]. simpl. by rewrite lookup_insert_ne.
  - intros n. apply vertexInfo_ext; [done|]. simpl.
    destruct (decide (n = from)) as [->|Hne].
    + by rewrite lookup_insert_eq, Hdv.
    + by rewrite lookup_insert_ne.
Qed.

(** X9: [removeEdge] fails as [edgeInfo] does, which it calls first: on
    an absent source, then on an absent destination, then on two vertices
    that are not connected; each time a [DigraphException] with the reason
    given leaves the graph as it was. *)
Theorem removeEdge_errors (from to : Z) (g : Digraph) :
  reachable g →
  (from ∉ vertices g →
     removeEdge from to g = (Throw (DigraphException (not_exist_reason from)), g)) ∧
  (from ∈ vertices g → to ∉ vertices g →
     removeEdge from to g = (Throw (DigraphException (not_exist_reason to)), g)) ∧
  (from ∈ vertices g → to ∈ vertices g → (from, to) ∉ Digraph_edges g →
     removeEdge from to g = (Throw (DigraphException "No such edge exist"), g)).
Proof.
  intros Hwf%reachable_wf. unfold vertices, Digraph_edges.
  destruct (removeEdge_cases from to g Hwf)
    as [(dv & Hin & _ & Hf & Ht & _)|[Hno (reason & -> & Hcase)]].
  { split_and!; intros; done. }
  destruct Hcase as [[Hf ->]|[(Hf & Ht & ->)|(Hf & Ht & ->)]]; split_and!; intros; done.
Qed.

(** X10: a successful [addEdge(from, to, info)] followed by
    [removeEdge(from, to)] gives back the graph the two calls started
    from, member by member. *)
Theorem addEdge_then_removeEdge (from to : Z) (info : EdgeInfo) (g g1 : Digraph) :
  reachable g → addEdge from to info g = (Ret tt, g1) →
  removeEdge from to g1 = (Ret tt, g).
Proof.
  intros Hwf%reachable_wf Hadd.
  destruct (addEdge_cases from to info g)
    as [(dv & Hdv & Hto & Hnew & Hrun)|(reason & Hrun & _)]; [|congruence].
  rewrite Hrun in Hadd. injection Hadd as <-.
  assert (from ∈ v g) as Hf by (by apply (wf_present g from dv)).
  assert (to ∈ v g) as Ht by (by apply (wf_v_dom g Hwf)).
  assert ((from, to) ∉ e g) as Hno.
  { intros (dv0 & ed & Hdv0 & Hed & Hedto)%(elem_of_edges g from to Hwf).
    rewrite Hdv in Hdv0. injection Hdv0 as <-. by apply Hnew in Hed. }
  erewrite removeEdge_Ret.
  2: { exists info. unfold edgeInfo. rewrite !VertexExist_Ret by done. simpl.
       unfold map_at. rewrite lookup_insert_eq. simpl. by apply edgeInfo_loop_app_new. }
  2: { simpl. apply lookup_insert_eq. }
  2: { simpl. by apply erase_first_app_new. }
  simpl. rewrite insert_insert_eq, filter_app, (filter_all _ (edges dv)) by done.
  rewrite filter_cons, decide_False by (simpl; by intros ?).
  rewrite filter_nil, app_nil_r.
  replace (mkVertex (vinfo dv) (edges dv)) with dv by (by destruct dv).
  rewrite insert_id by done.
  destruct g as [m0 v0 e0 vc ec]. simpl. do 2 f_equal. lia.
Qed.

(** X4: [addVertex(vertex, info)] on a graph without [vertex] returns and
    touches nothing else: [vertex] comes last in [vertices()], it has no
    outgoing edges, [edges()] is unchanged, and the payloads of the other
    vertices and of the edges between them read as before. *)
Theorem addVertex_keeps_rest (vertex : Z) (info : VertexInfo) (g : Digraph) :
  reachable g → vertex ∉ vertices g →
  ∃ g', addVertex vertex info g = (Ret tt, g') ∧
    vertices g' = vertices g ++ [vertex] ∧
    Digraph_edges g' = Digraph_edges g ∧
    edges_of vertex g' = Ret [] ∧ edgeCount_of vertex g' = Ret 0 ∧
    (∀ n, n ≠ vertex → vertexInfo n g' = vertexInfo n g) ∧
    (∀ a b, a ≠ vertex → b ≠ vertex → edgeInfo a b g' = edgeInfo a b g).
Proof.
  intros Hwf%reachable_wf Hno.
  assert (m g !! vertex = None) as Hnone.
  { destruct (m g !! vertex) as [dv|] eqn:Hdv; [|done]. destruct Hno.
    by apply (wf_present g vertex dv). }
  assert (∀ n (g' : Digraph), v g' = v g ++ [vertex] → n ≠ vertex →
            VertexExist n g' = VertexExist n g) as Hexist.
  { intros n g' Hv Hne. apply VertexExist_ext. rewrite Hv, elem_of_app.
    split; [|by left]. by intros [?|?%list_elem_of_singleton]. }
  eexists. split; [by apply addVertex_Ret|]. split_and!; try done.
  - unfold edges_of. rewrite VertexExist_Ret by (simpl; apply elem_of_app; right; left).
    simpl. unfold map_at. by rewrite lookup_insert_eq.
  - unfold edgeCount_of. rewrite VertexExist_Ret by (simpl; apply elem_of_app; right; left).
    simpl. unfold map_at. by rewrite lookup_insert_eq.
  - intros n Hne. unfold vertexInfo. rewrite (Hexist n) by done. simpl.
    unfold map_at. by rewrite lookup_insert_ne.
  - intros a b Ha Hb. unfold edgeInfo.
    rewrite (Hexist a), (Hexist b) by done. simpl.
    unfold map_at. by rewrite lookup_insert_ne.
Qed.

End EdgeMutators.

(** ** Rebuilt graphs: [removeVertex], copies and assignments *)

Section Rebuilds.
Context {VertexInfo EdgeInfo : Type}.
Local Abbreviation Digraph := (Digraph VertexInfo EdgeInfo).
Local Abbreviation DigraphVertex := (DigraphVertex VertexInfo EdgeInfo).
Local Abbreviation store := (gmap Store.loc Digraph).

(** Two graphs with the same five members are the same graph. *)
Lemma Digraph_eq (g g' : Digraph) :
  m g' = m g → v g' = v g → e g' = e g → vertexC g' = vertexC g → edgeC g' = edgeC g →
  g' = g.
Proof. destruct g, g'. simpl. by intros -> -> -> -> ->. Qed.

(** After [removeVertex] the list [e] is in the order of the adjacency
    lists. *)
Lemma removeVertex_edges_grouped vertex (g g' : Digraph) :
  wf g → removeVertex vertex g = (Ret tt, g') → e g' = all_edges g'.
Proof.
  intros Hwf Hrun.
  destruct (removeVertex_spec vertex g Hwf) as (g0 & Hrun0 & Hwf' & Hv & He & Hm).
  rewrite Hrun in Hrun0. injection Hrun0 as <-.
  rewrite He. unfold all_edges. rewrite Hv, filter_bind.
  rewrite (bind_filter_nil (λ ve, ve ≠ vertex) _ (v g)).
  - apply bind_agree. intros n [Hne _]%list_elem_of_filter.
    rewrite filter_out_pairs. f_equal. unfold adjacency. rewrite Hm.
    rewrite decide_False by done. by destruct (m g !! n).
  - intros n Hn Heq%dec_stable. subst n. rewrite filter_out_pairs.
    rewrite filter_none; [done|].
    intros ed (dv & Hdv & Hed)%elem_of_adjacency [Hfrom _].
    by rewrite (wf_from g Hwf _ _ _ Hdv Hed) in Hfrom.
Qed.

(** X11: [removeVertex] returns for every argument, present or not.  It
    keeps the remaining vertices in their order in [vertices()]; [edges()]
    then lists the remaining edges vertex by vertex in that order, each
    vertex's edges in the order of [edges(vertex)], whatever the order of
    [edges()] was before. *)
Theorem removeVertex_listing (vertex : Z) (g : Digraph) :
  reachable g →
  ∃ g', removeVertex vertex g = (Ret tt, g') ∧
    vertices g' = filter (λ n, n ≠ vertex) (vertices g) ∧
    Digraph_edges g' =
      vertices g' ≫= (λ n, match edges_of n g' with Ret l => l | _ => [] end) ∧
    Digraph_edges g' =
      vertices g ≫= (λ n, match edges_of n g with
                          | Ret l => filter (λ p, ¬ incident vertex p) l
                          | _ => []
                          end).
Proof.
  intros Hwf%reachable_wf.
  destruct (removeVertex_spec vertex g Hwf) as (g' & Hrun & Hwf' & Hv & He & Hm).
  exists g'. split_and!; try done.
  - unfold Digraph_edges. rewrite (removeVertex_edges_grouped vertex g g' Hwf Hrun).
    apply bind_agree. intros n Hn. unfold edges_of.
    rewrite (VertexExist_Ret n g' Hn). simpl.
    destruct ((proj1 (wf_v_dom g' Hwf' n)) Hn) as [dv Hdv].
    by rewrite (map_at_Some _ _ _ Hdv), (adjacency_Some _ _ _ Hdv).
  - unfold Digraph_edges. rewrite He. unfold all_edges. rewrite filter_bind.
    apply bind_agree. intros n Hn. unfold edges_of.
    rewrite (VertexExist_Ret n g Hn). simpl.
    destruct ((proj1 (wf_v_dom g Hwf n)) Hn) as [dv Hdv].
    by rewrite (map_at_Some _ _ _ Hdv), (adjacency_Some _ _ _ Hdv).
Qed.

(** X12: calling [removeVertex(vertex)] a second time changes nothing: the
    second call returns and leaves all five members as the first call left
    them. *)
Theorem removeVertex_twice (vertex : Z) (g : Digraph) :
  reachable g →
  ∃ g', removeVertex vertex g = (Ret tt, g') ∧ removeVertex vertex g' = (Ret tt, g').
Proof.
  intros Hwf%reachable_wf.
  destruct (removeVertex_spec vertex g Hwf) as (g' & Hrun & Hwf' & Hv & He & Hm).
  exists g'. split; [done|].
  destruct (removeVertex_absent vertex g' Hwf') as (g2 & -> & Hm2 & Hv2 & He2 & Hvc2 & Hec2).
  { unfold vertices. rewrite Hv. by intros [? _]%list_elem_of_filter. }
  f_equal. apply Digraph_eq; try done.
  by rewrite (removeVertex_edges_grouped vertex g g' Hwf Hrun).
Qed.

(** X13: a successful [addVertex(vertex, info)] followed by
    [removeVertex(vertex)] gives back the vertex records, the vertex list
    and both counts the two calls started from, and the same edges in
    [edges()], possibly in another order. *)
Theorem addVertex_then_removeVertex (vertex : Z) (info : VertexInfo) (g g1 : Digraph) :
  reachable g → addVertex vertex info g = (Ret tt, g1) →
  ∃ g2, removeVertex vertex g1 = (Ret tt, g2) ∧
    m g2 = m g ∧ vertices g2 = vertices g ∧
    Digraph_edges g2 ≡ₚ Digraph_edges g ∧
    vertexCount g2 = vertexCount g ∧ edgeCount g2 = edgeCount g.
Proof.
  intros Hwf%reachable_wf Hadd.
  assert (m g !! vertex = None) as Hnone.
  { destruct (m g !! vertex) as [dv|] eqn:Hdv; [|done]. exfalso.
    unfold addVertex in Hadd. rewrite bind_call in Hadd.
    unfold findVertexNotExist in Hadd. by rewrite Hdv in Hadd. }
  assert (vertex ∉ v g) as Hno.
  { intros Hin%(wf_v_dom g Hwf). rewrite Hnone in Hin. by destruct Hin. }
  pose proof (addVertex_wf vertex info g Hwf) as Hwf1.
  rewrite Hadd in Hwf1. simpl in Hwf1.
  rewrite (addVertex_Ret _ _ _ Hnone) in Hadd. injection Hadd as <-.
  destruct (removeVertex_spec vertex _ Hwf1) as (g2 & Hrun & Hwf2 & Hv & He & Hm).
  simpl in Hv, Hm.
  assert (v g2 = v g) as Hv2.
  { rewrite Hv, filter_app, filter_all by (by intros n Hn ->).
    rewrite filter_cons, decide_False by (by intros ?). by rewrite app_nil_r. }
  assert (m g2 = m g) as Hm2.
  { apply map_eq. intros n. rewrite Hm. case_decide as Hn; [by subst n|].
    rewrite lookup_insert_ne by done.
    destruct (m g !! n) as [dv|] eqn:Hdv; [|done]. simpl. f_equal.
    unfold strip. rewrite filter_all; [by destruct dv|].
    intros ed Hed. split.
    - by rewrite (wf_from g Hwf n dv ed Hdv Hed).
    - intros Heq. apply Hno. apply (wf_v_dom g Hwf). rewrite <- Heq.
      by apply (wf_to g Hwf n dv). }
  assert (e g2 ≡ₚ e g) as He2.
  { rewrite (wf_e g2 Hwf2), (wf_e g Hwf). unfold all_edges. by rewrite Hv2, Hm2. }
  exists g2. split_and!; try done.
  - unfold vertexCount. by rewrite (wf_vertexC g2 Hwf2), (wf_vertexC g Hwf), Hv2.
  - unfold edgeCount. by rewrite (wf_edgeC g2 Hwf2), (wf_edgeC g Hwf), He2.
Qed.

(** X14: the copy constructor returns a graph whose [edges()] lists the
    edges of the original vertex by vertex, in the order of [vertices()];
    copying that copy gives the very same graph, member by member. *)
Theorem copy_of_copy (d : Digraph) :
  reachable d →
  ∃ c, Digraph_copy d = (Ret tt, c) ∧
    Digraph_edges c =
      vertices d ≫= (λ n, match edges_of n d with Ret l => l | _ => [] end) ∧
    Digraph_copy c = (Ret tt, c).
Proof.
  intros Hwf%reachable_wf. unfold Digraph_copy.
  destruct (copy_from_spec d Hwf) as (c & -> & Hwfc & Hm & Hv & He & Hvc & Hec).
  exists c. split_and!; try done.
  - unfold Digraph_edges. rewrite He. apply bind_agree. intros n Hn. unfold edges_of.
    rewrite (VertexExist_Ret n d Hn). simpl.
    destruct ((proj1 (wf_v_dom d Hwf n)) Hn) as [dv Hdv].
    by rewrite (map_at_Some _ _ _ Hdv), (adjacency_Some _ _ _ Hdv).
  - destruct (copy_from_spec c Hwfc) as (c2 & -> & _ & Hm2 & Hv2 & He2 & Hvc2 & Hec2).
    f_equal. apply Digraph_eq; try done.
    rewrite He2, He. unfold all_edges. by rewrite Hm, Hv.
Qed.

(** X15: the copy assignment [b = a] between two distinct objects throws
    away what [b] held and leaves in [b] the graph the copy constructor
    builds from [a]: the vertex records, the vertex list and the counts of
    [a], and its edges.  The assignment [a = a] changes nothing. *)
Theorem assign_content (a b : Store.loc) (gA gB : Digraph) (σ : store) :
  reachable gA → σ !! a = Some gA → σ !! b = Some gB →
  (a ≠ b →
     Store.assign b a σ = Store.construct_copy b a σ ∧
     ∃ gB', Store.assign b a σ = (Ret tt, <[b := gB']> σ) ∧
       m gB' = m gA ∧ vertices gB' = vertices gA ∧
       Digraph_edges gB' ≡ₚ Digraph_edges gA ∧
       vertexCount gB' = vertexCount gA ∧ edgeCount gB' = edgeCount gA) ∧
  Store.assign a a σ = (Ret tt, σ).
Proof.
  intros Hwf%reachable_wf Ha Hb. split.
  - intros Hne.
    assert (Store.assign b a σ = Store.construct_copy b a σ) as Heq.
    { unfold Store.assign, Store.construct_copy, Store.on.
      rewrite decide_True by done. rewrite Ha, Hb.
      unfold assign_from, reset. by rewrite bind_modify. }
    split; [done|]. rewrite Heq.
    unfold Store.construct_copy, Digraph_copy. rewrite Ha.
    destruct (copy_from_spec gA Hwf) as (gB' & -> & _ & Hm & Hv & He & Hvc & Hec).
    exists gB'. split_and!; try done. unfold Digraph_edges. by rewrite He, (wf_e gA Hwf).
  - unfold Store.assign. by rewrite decide_False by (by intros ?).
Qed.

End Rebuilds.

(** ** Listings, counts and the private searches *)

Section Listings.
Context {VertexInfo EdgeInfo : Type}.
Local Abbreviation Digraph := (Digraph VertexInfo EdgeInfo).
Local Abbreviation DigraphVertex := (DigraphVertex VertexInfo EdgeInfo).

Lemma out_pairs_NoDup (l : list (DigraphEdge EdgeInfo)) :
  NoDup (toVertex <$> l) → NoDup (out_pairs l).
Proof. rewrite <- out_pairs_snd. apply NoDup_fmap_1. Qed.

(** X16: the queries on one vertex agree with the queries on the whole
    graph: for a vertex of the graph, [edges(vertex)] returns a list
    without repetition of pairs that start at [vertex],
    [edgeCount(vertex)] returns its length, and a pair is in that list
    exactly when it is in [edges()], which is exactly when [edgeInfo]
    returns for it. *)
Theorem edges_of_agrees (vertex : Z) (g : Digraph) :
  reachable g → vertex ∈ vertices g →
  ∃ l, edges_of vertex g = Ret l ∧
    edgeCount_of vertex g = Ret (Z.of_nat (length l)) ∧
    NoDup l ∧ (∀ p, p ∈ l → p.1 = vertex) ∧
    (∀ b, (vertex, b) ∈ l ↔ (vertex, b) ∈ Digraph_edges g) ∧
    (∀ b, (vertex, b) ∈ l ↔ ∃ info, edgeInfo vertex b g = Ret info).
Proof.
  intros Hwf%reachable_wf Hin.
  destruct ((proj1 (wf_v_dom g Hwf vertex)) Hin) as [dv Hdv].
  exists (out_pairs (edges dv)). unfold edges_of, edgeCount_of.
  rewrite (VertexExist_Ret vertex g Hin). simpl. rewrite (map_at_Some _ _ _ Hdv). simpl.
  split_and!.
  - done.
  - unfold out_pairs. by rewrite length_fmap.
  - apply out_pairs_NoDup. by apply (wf_to_nodup g Hwf vertex).
  - intros [a b] (ed & Hed & <- & _)%elem_of_out_pairs. simpl.
    by apply (wf_from g Hwf vertex dv).
  - intros b. unfold Digraph_edges. rewrite (elem_of_edges g vertex b Hwf).
    rewrite elem_of_out_pairs. split.
    + intros (ed & Hed & _ & Hto). eauto.
    + intros (dv0 & ed & Hdv0 & Hed & Hto). rewrite Hdv in Hdv0. injection Hdv0 as <-.
      exists ed. split_and!; try done. by apply (wf_from g Hwf vertex dv).
  - intros b. rewrite elem_of_out_pairs. split.
    + intros (ed & Hed & _ & Hto). by apply (edgeInfo_Ret g vertex b dv ed).
    + intros [info (_ & _ & dv0 & Hdv0 & Hloop)%edgeInfo_Ret_inv].
      rewrite Hdv in Hdv0. injection Hdv0 as <-.
      apply edgeInfo_loop_Ret_inv in Hloop as (ed & Hed & Hto & _).
      exists ed. split_and!; try done. by apply (wf_from g Hwf vertex dv).
Qed.

(** X17: on a graph built from [Digraph()] by the mutators and the copy
    operations (not one a move has taken the members from) the two
    listings and the two counters agree: [vertices()] holds no vertex twice
    and [vertexCount()] is its length, [edgeCount()] is the length of
    [edges()], and [edges()] holds, in some order, the lists [edges(n)] of
    the vertices [n] of [vertices()]. *)
Theorem listings_consistent (g : Digraph) :
  reachable g →
  NoDup (vertices g) ∧
  vertexCount g = Z.of_nat (length (vertices g)) ∧
  edgeCount g = Z.of_nat (length (Digraph_edges g)) ∧
  Digraph_edges g ≡ₚ
    vertices g ≫= (λ n, match edges_of n g with Ret l => l | _ => [] end).
Proof.
  intros Hwf%reachable_wf. split_and!; try apply Hwf.
  unfold Digraph_edges. rewrite (wf_e g Hwf). unfold all_edges.
  erewrite bind_agree; [reflexivity|]. intros n Hn. unfold edges_of.
  rewrite (VertexExist_Ret n g Hn). simpl.
  destruct ((proj1 (wf_v_dom g Hwf n)) Hn) as [dv Hdv].
  by rewrite (map_at_Some _ _ _ Hdv), (adjacency_Some _ _ _ Hdv).
Qed.

(** X18: the three private existence checks agree on every graph built
    from [Digraph()] by the mutators and the copy operations, although
    [VertexExist] searches the vertex list and the other two search the
    map: a vertex of [vertices()] passes
    [VertexExist] and [findVertex] and fails [findVertexNotExist], and any
    other number does the opposite, with the reasons given. *)
Theorem existence_checks_agree (vertex : Z) (g : Digraph) :
  reachable g →
  (vertex ∈ vertices g →
     VertexExist vertex g = Ret tt ∧
     (∃ dv, findVertex vertex g = Ret dv ∧ m g !! vertex = Some dv) ∧
     findVertexNotExist vertex g
       = Throw (DigraphException ("Vertex " +:+ pretty vertex +:+ " exist"))) ∧
  (vertex ∉ vertices g →
     VertexExist vertex g
       = Throw (DigraphException ("Vertex " +:+ pretty vertex +:+ "not exist")) ∧
     findVertex vertex g
       = Throw (DigraphException ("Vertex " +:+ pretty vertex +:+ "not exist")) ∧
     findVertexNotExist vertex g = Ret tt).
Proof.
  intros Hwf%reachable_wf. unfold findVertex, findVertexNotExist. split.
  - intros Hin. destruct ((proj1 (wf_v_dom g Hwf vertex)) Hin) as [dv Hdv].
    rewrite Hdv. split_and!; [by apply VertexExist_Ret|by exists dv|done].
  - intros Hno. rewrite (VertexExist_Throw vertex g Hno).
    destruct (m g !! vertex) as [dv|] eqn:Hdv; [|done].
    destruct Hno. by apply (wf_present g vertex dv).
Qed.

End Listings.

(** X19: [indexOf] returns -1 exactly when the vertex is not in the
    vector; otherwise it returns the position of its first occurrence,
    which is within the bounds of the vector. *)
Theorem indexOf_first (vertex : Z) (vertices : list Z) :
  (indexOf vertex vertices = -1 ↔ vertex ∉ vertices) ∧
  (vertex ∈ vertices →
     ∃ k : nat, indexOf vertex vertices = Z.of_nat k ∧
       (k < length vertices)%nat ∧ vertices !! k = Some vertex ∧
       ∀ j, (j < k)%nat → vertices !! j ≠ Some vertex).
Proof.
  assert (vertex ∈ vertices →
     ∃ k : nat, indexOf vertex vertices = Z.of_nat k ∧
       (k < length vertices)%nat ∧ vertices !! k = Some vertex ∧
       ∀ j, (j < k)%nat → vertices !! j ≠ Some vertex) as Hin.
  { intros (k & Hk & Hat & Hfirst)%indexOf_in. exists k. split_and!; try done.
    by apply lookup_lt_Some in Hat. }
  split; [|done]. split.
  - intros Hidx Hv. destruct (Hin Hv) as (k & Hk & _). lia.
  - apply indexOf_notin.
Qed.

(** ** Sweeps and connectivity under mutation *)

Section Sweeps.
Context {VertexInfo EdgeInfo : Type}.
Local Abbreviation Digraph := (Digraph VertexInfo EdgeInfo).
Local Abbreviation DigraphVertex := (DigraphVertex VertexInfo EdgeInfo).

(** X20: [DFTr(root, vertices)] called on the full vertex list, as
    [isStronglyConnected] calls it, returns at every recursion bound that
    is at least the number of vertices, and leaves in the list exactly the
    vertices [root] cannot reach, in the order they had.  Called with a
    vertex that is not in the list it erases at [begin() - 1], which is
    undefined. *)
Theorem DFTr_leaves_unreachable (root : Z) (g : Digraph) (fuel : nat) :
  reachable g →
  (root ∈ vertices g → (length (vertices g) ≤ fuel)%nat →
     ∃ rest, DFTr fuel g root (vertices g) = Ret rest ∧
       rest `sublist_of` vertices g ∧
       ∀ z, z ∈ rest ↔ z ∈ vertices g ∧ ¬ path g root z) ∧
  (∀ x vs, x ∉ vs → DFTr (S fuel) g x vs = Undefined).
Proof.
  intros Hwf%reachable_wf. unfold vertices. split.
  - intros Hroot Hfuel.
    destruct (DFTr_swept g fuel root (v g))
      as (rest & Hrun & Hroot' & Hsub & Hsound & Hclosed).
    { done. }
    { intros n Hn. by apply (wf_v_dom g Hwf). }
    { apply Hwf. }
    { done. }
    exists rest. split_and!; try done.
    assert (∀ a b, path g a b → a ∈ v g → a ∉ rest → b ∈ v g ∧ b ∉ rest) as Hinv.
    { induction 1 as [a|a b c Hab _ IH]; [done|]. intros Ha Ha'. apply IH.
      - by eapply edge_rel_present.
      - eapply Hclosed; [exact Ha|done|done|]. by eapply edge_rel_present. }
    intros z. split.
    + intros Hz. split; [by eapply elem_of_sublist|].
      intros Hpath. by destruct (Hinv root z Hpath Hroot Hroot') as [_ Hno].
    + intros [Hz Hnopath]. destruct (decide (z ∈ rest)) as [|Hno]; [done|].
      destruct Hnopath. by apply Hsound.
  - intros x vs Hx. cbn [DFTr]. rewrite (index_from_notin x vs 0 Hx).
    unfold vec_erase. by rewrite decide_False by lia.
Qed.

(** An edge of the graph is an edge of the graph after [addEdge]. *)
Lemma addEdge_edge_rel from to ei (g : Digraph) u w :
  edge_rel g u w → edge_rel (addEdge from to ei g).2 u w.
Proof.
  destruct (addEdge_cases from to ei g)
    as [(dv & Hdv & _ & _ & ->)|(reason & -> & _)]; [|done].
  intros (ed & (dv0 & Hdv0 & Hed)%elem_of_adjacency & Hto). exists ed. split; [|done].
  apply elem_of_adjacency. simpl. destruct (decide (u = from)) as [->|Hne].
  - eexists. rewrite lookup_insert_eq. split; [done|]. simpl.
    rewrite Hdv in Hdv0. injection Hdv0 as <-. apply elem_of_app. by left.
  - exists dv0. by rewrite lookup_insert_ne.
Qed.

Lemma addEdge_vertices from to ei (g : Digraph) : v (addEdge from to ei g).2 = v g.
Proof.
  by destruct (addEdge_cases from to ei g)
    as [(dv & Hdv & _ & _ & ->)|(reason & -> & _)].
Qed.

(** X21: adding an edge never breaks strong connectivity: when
    [isStronglyConnected()] returns [true], it returns [true] again after
    any call of [addEdge], whether that call returns or throws. *)
Theorem addEdge_keeps_strongly_connected (from to : Z) (info : EdgeInfo) (g : Digraph) :
  reachable g → isStronglyConnected g = Ret true →
  isStronglyConnected (addEdge from to info g).2 = Ret true.
Proof.
  intros Hwf%reachable_wf Htrue.
  destruct (isStronglyConnected_loop_spec g (v g) Hwf) as (b & Hrun & Hb); [done|].
  unfold isStronglyConnected in Htrue. rewrite Htrue in Hrun. injection Hrun as <-.
  pose proof (addEdge_wf from to info g Hwf) as Hwf'.
  destruct (isStronglyConnected_loop_spec _ (v (addEdge from to info g).2) Hwf')
    as (b' & Hrun' & Hb'); [done|].
  unfold isStronglyConnected. rewrite Hrun'. f_equal. apply Hb'.
  rewrite addEdge_vertices. intros r z Hr Hz.
  eapply rtc_subrel; [|by apply (proj1 Hb eq_refl r z)].
  intros u w. apply addEdge_edge_rel.
Qed.

(** X22: a vertex just added has no edges, so on a graph that already held
    a vertex [isStronglyConnected()] returns [false] right after a
    successful [addVertex]. *)
Theorem addVertex_breaks_connectivity (vertex : Z) (info : VertexInfo) (g : Digraph) :
  reachable g → vertex ∉ vertices g → 0 < vertexCount g →
  ∃ g', addVertex vertex info g = (Ret tt, g') ∧ isStronglyConnected g' = Ret false.
Proof.
  intros Hwf%reachable_wf Hno Hcount.
  assert (m g !! vertex = None) as Hnone.
  { destruct (m g !! vertex) as [dv|] eqn:Hdv; [|done]. destruct Hno.
    by apply (wf_present g vertex dv). }
  pose proof (addVertex_wf vertex info g Hwf) as Hwf'.
  rewrite (addVertex_Ret _ _ _ Hnone) in Hwf'. simpl in Hwf'.
  eexists. split; [by apply addVertex_Ret|].
  destruct (isStronglyConnected_loop_spec _ (v g ++ [vertex]) Hwf') as (b & Hrun & Hb);
    [done|].
  unfold isStronglyConnected. simpl. rewrite Hrun. f_equal.
  destruct b; [|done]. exfalso.
  unfold vertexCount in Hcount. rewrite (wf_vertexC g Hwf) in Hcount.
  destruct (v g) as [|other l] eqn:Hv; [simpl in Hcount; lia|].
  assert (other ≠ vertex) as Hne.
  { intros ->. apply Hno. unfold vertices. rewrite Hv. left. }
  assert (path (mkDigraph (<[vertex := mkVertex info []]> (m g)) (other :: l ++ [vertex])
                 (e g) (vertexC g + 1) (edgeC g)) vertex other) as Hpath.
  { apply (proj1 Hb eq_refl); simpl.
    - apply elem_of_cons. right. apply elem_of_app. right. left.
    - left. }
  apply rtc_inv in Hpath as [Heq|(y & (ed & Hed & _) & _)]; [done|].
  unfold adjacency in Hed. simpl in Hed. rewrite lookup_insert_eq in Hed.
  by apply elem_of_nil in Hed.
Qed.

End Sweeps.

(** ** Shortest paths on arbitrary weights *)

Section AnyWeights.
Context {VertexInfo EdgeInfo : Type}.
Local Abbreviation Digraph := (Digraph VertexInfo EdgeInfo).
Local Abbreviation DigraphVertex := (DigraphVertex VertexInfo EdgeInfo).

(** X23: whatever the weight function returns (negative values, cycles
    of negative weight, NaN), [findShortestPaths] from a vertex of the
    graph returns: every vertex is visited at most once.  The map it
    returns has one entry per vertex of the graph; every value is a vertex
    of the graph; a vertex mapped to another vertex [p] has an edge from
    [p], and [p] is reachable from the start; a vertex the start cannot
    reach is mapped to itself. *)
Theorem findShortestPaths_any_weights (startVertex : Z)
    (edgeWeightFunc : EdgeInfo → float) (g : Digraph) :
  reachable g → startVertex ∈ vertices g →
  ∃ P, findShortestPaths startVertex edgeWeightFunc g = Ret P ∧
    Z.of_nat (size P) = vertexCount g ∧
    (∀ n, is_Some (P !! n) ↔ n ∈ vertices g) ∧
    (∀ n p, P !! n = Some p → p ∈ vertices g) ∧
    (∀ n p, P !! n = Some p → p ≠ n →
       (p, n) ∈ Digraph_edges g ∧ path g startVertex p) ∧
    (∀ n, n ∈ vertices g → ¬ path g startVertex n → P !! n = Some n).
Proof.
  intros Hwf%reachable_wf Hstart.
  destruct (findShortestPaths_inv g startVertex edgeWeightFunc Hwf Hstart)
    as (st & Hrun & Hinv & _ & _).
  assert (∀ p n, edge_rel g p n → (p, n) ∈ e g) as Hedge.
  { intros p n (ed & (dv & Hdv & Hed)%elem_of_adjacency & Hto).
    apply (elem_of_edges g p n Hwf). eauto. }
  exists (Pv st). split; [done|]. unfold vertices, Digraph_edges, vertexCount. split_and!.
  - rewrite (wf_vertexC g Hwf). f_equal.
    apply size_dom_list; [apply Hwf|apply (inv_dom _ _ _ _ Hinv)].
  - apply (inv_dom _ _ _ _ Hinv).
  - intros n p Hp. destruct (decide (p = n)) as [->|Hne].
    + apply (inv_dom _ _ _ _ Hinv). by rewrite Hp.
    + destruct (inv_pred _ _ _ _ Hinv n p Hp Hne)
        as [_ (ed & (dv & Hdv & _)%elem_of_adjacency & _)].
      by apply (wf_present g p dv).
  - intros n p Hp Hne. destruct (inv_pred _ _ _ _ Hinv n p Hp Hne) as [Hpath Hrel].
    split; [by apply Hedge|done].
  - intros n Hn Hnopath.
    destruct ((proj2 (inv_dom _ _ _ _ Hinv n)) Hn) as [p Hp]. rewrite Hp. f_equal.
    destruct (decide (p = n)) as [|Hne]; [done|]. destruct Hnopath.
    destruct (inv_pred _ _ _ _ Hinv n p Hp Hne) as [Hpath Hrel].
    eapply rtc_r; done.
Qed.

End AnyWeights.

(** ** How calls end, and bounds on the counts *)

Section Endings.
Context {VertexInfo EdgeInfo : Type}.
Local Abbreviation Digraph := (Digraph VertexInfo EdgeInfo).
Local Abbreviation DigraphVertex := (DigraphVertex VertexInfo EdgeInfo).

(** The loop of [edgeInfo] returns or throws a [DigraphException]. *)
Lemma edgeInfo_loop_ends to (l : list (DigraphEdge EdgeInfo)) :
  (∃ info, edgeInfo_loop to l = Ret info) ∨
  (∃ reason, edgeInfo_loop to l = Throw (DigraphException reason)).
Proof.
  induction l as [|x l IH]; simpl; [right; by eexists|].
  case_decide; [left; by eexists|done].
Qed.

(** X24: on a graph built from [Digraph()] by the mutators and the copy
    operations, no public member function other than
    [findShortestPaths] ends in [std::out_of_range] or in undefined
    behaviour: the four mutators return or throw a [DigraphException], so
    do the four queries that take a vertex, and [isStronglyConnected] and
    the copy constructor return.  The calls of [map::at] and of [erase] in
    their bodies always find what they look for. *)
Theorem calls_end_as_declared (g : Digraph) :
  reachable g →
  (∀ op, (perform op g).1 = Ret tt ∨
         ∃ reason, (perform op g).1 = Throw (DigraphException reason)) ∧
  (∀ n, (∃ info, vertexInfo n g = Ret info) ∨
        ∃ reason, vertexInfo n g = Throw (DigraphException reason)) ∧
  (∀ a b, (∃ info, edgeInfo a b g = Ret info) ∨
          ∃ reason, edgeInfo a b g = Throw (DigraphException reason)) ∧
  (∀ n, (∃ l, edges_of n g = Ret l) ∨
        ∃ reason, edges_of n g = Throw (DigraphException reason)) ∧
  (∀ n, (∃ k, edgeCount_of n g = Ret k) ∨
        ∃ reason, edgeCount_of n g = Throw (DigraphException reason)) ∧
  (∃ b, isStronglyConnected g = Ret b) ∧
  (Digraph_copy g).1 = Ret tt.
Proof.
  intros Hwf%reachable_wf.
  assert (∀ n, n ∈ v g → ∃ dv, map_at (m g) n = Ret dv) as Hat.
  { intros n [dv Hdv]%(wf_v_dom g Hwf). exists dv. by apply map_at_Some. }
  split_and!.
  - intros [vertex vi|from to ei|vertex|from to]; simpl.
    + destruct (m g !! vertex) as [dv|] eqn:Hdv.
      * right. eexists. unfold addVertex. rewrite bind_call.
        unfold findVertexNotExist. by rewrite Hdv.
      * left. by rewrite (addVertex_Ret _ _ _ Hdv).
    + destruct (addEdge_cases from to ei g)
        as [(dv & _ & _ & _ & ->)|(reason & -> & _)]; [by left|right; by eexists].
    + destruct (removeVertex_spec vertex g Hwf) as (g' & -> & _). by left.
    + destruct (removeEdge_cases from to g Hwf)
        as [(dv & _ & _ & _ & _ & ->)|[_ (reason & -> & _)]]; [by left|right; by eexists].
  - intros n. unfold vertexInfo.
    destruct (VertexExist_cases n g) as [[Hn ->]|[_ ->]]; [|right; by eexists].
    destruct (Hat n Hn) as [dv ->]. left. by eexists.
  - intros a b. unfold edgeInfo.
    destruct (VertexExist_cases a g) as [[Ha ->]|[_ ->]]; [|right; by eexists].
    destruct (VertexExist_cases b g) as [[Hb ->]|[_ ->]]; [|right; by eexists].
    destruct (Hat a Ha) as [dv ->]. simpl. apply edgeInfo_loop_ends.
  - intros n. unfold edges_of.
    destruct (VertexExist_cases n g) as [[Hn ->]|[_ ->]]; [|right; by eexists].
    destruct (Hat n Hn) as [dv ->]. left. by eexists.
  - intros n. unfold edgeCount_of.
    destruct (VertexExist_cases n g) as [[Hn ->]|[_ ->]]; [|right; by eexists].
    destruct (Hat n Hn) as [dv ->]. left. by eexists.
  - destruct (isStronglyConnected_loop_spec g (v g) Hwf) as (b & Hrun & _); [done|].
    by exists b.
  - unfold Digraph_copy. by destruct (copy_from_spec g Hwf) as (c & -> & _).
Qed.

(** X25: the graph is simple, so its counts are bounded: a vertex has at
    most one outgoing edge per vertex of the graph, and the graph has at
    most [vertexCount()] squared edges. *)
Theorem edge_count_bound (g : Digraph) :
  reachable g →
  0 ≤ edgeCount g ≤ vertexCount g * vertexCount g ∧
  ∀ n k, edgeCount_of n g = Ret k → 0 ≤ k ≤ vertexCount g.
Proof.
  intros Hwf%reachable_wf. unfold edgeCount, vertexCount.
  rewrite (wf_edgeC g Hwf), (wf_vertexC g Hwf). split.
  - split; [lia|]. rewrite <- Nat2Z.inj_mul. apply inj_le.
    rewrite <- length_prod, <- list_cprod_list_prod.
    apply submseteq_length, NoDup_submseteq; [by apply edges_NoDup|].
    intros [a b] (dv & ed & Hdv & Hed & Hto)%(elem_of_edges g a b Hwf).
    apply list_elem_of_cprod. simpl. split.
    + by apply (wf_present g a dv).
    + apply (wf_v_dom g Hwf). rewrite <- Hto. by apply (wf_to g Hwf a dv).
  - intros n k. unfold edgeCount_of.
    destruct (VertexExist_cases n g) as [[Hn ->]|[_ ->]]; [|done]. simpl.
    destruct ((proj1 (wf_v_dom g Hwf n)) Hn) as [dv Hdv].
    rewrite (map_at_Some _ _ _ Hdv). simpl. intros [= <-]. split; [lia|].
    apply inj_le. rewrite <- (length_fmap toVertex).
    apply submseteq_length, NoDup_submseteq; [by apply (wf_to_nodup g Hwf n)|].
    intros b (ed & -> & Hed)%list_elem_of_fmap.
    apply (wf_v_dom g Hwf). by apply (wf_to g Hwf n dv).
Qed.

End Endings.

(** ** The claims on the example graphs *)

Lemma reachable_triangle : reachable triangle.
Proof.
  unfold triangle, build, triangle_ops. cbn [foldl].
  repeat apply reachable_perform. apply reachable_new.
Defined.

Lemma reachable_cycle : reachable cycle.
Proof.
  unfold cycle, build. cbn [foldl]. repeat apply reachable_perform. apply reachable_new.
Defined.

(** C1 fails on the code: [removeVertex] makes no check.  Vertex 7 is not
    in the example graph, and [removeVertex(7)] returns normally and
    leaves the graph as it was, where the header's comment and the claim
    have a [DigraphException]. *)
Example removeVertex_absent_returns :
  (7 ∉ vertices triangle) ∧ removeVertex 7 triangle = (Ret tt, triangle).
Proof.
  split; [|vm_compute; reflexivity].
  apply (bool_decide_unpack _). vm_compute. reflexivity.
Qed.

(** The cycle 1→2→3→1 is strongly connected, and no longer is once the
    edge 3→1 is removed. *)
Example cycle_strongly_connected :
  isStronglyConnected cycle = Ret true ∧
  isStronglyConnected (removeEdge 3 1 cycle).2 = Ret false.
Proof. split; vm_compute; reflexivity. Qed.

Lemma failed_mutation_leaves_graph_witness :
  (perform (AddVertex 1 tt) triangle).1 = Throw (DigraphException "Vertex 1 exist") ∧
  (perform (AddVertex 1 tt) triangle).2 = triangle.
Proof.
  split; [vm_compute; reflexivity|].
  apply (failed_mutation_leaves_graph (AddVertex 1 tt) triangle _ "Vertex 1 exist").
  - intros vertex. discriminate.
  - vm_compute. reflexivity.
Defined.

Lemma reachable_invariants_witness : invariants triangle.
Proof. apply reachable_invariants. exact reachable_triangle. Defined.

Lemma removeVertex_removes_incident_witness :
  ∃ g', removeVertex 3 triangle = (Ret tt, g') ∧
    vertexCount g' = 2 ∧ edgeCount g' = 1 ∧ edgeInfo 1 2 g' = Ret 5%float.
Proof.
  destruct (removeVertex_removes_incident 3 triangle) as (g' & Hrun & Hvc & Hec & _ & _ & _ & Hinfo & _).
  - exact reachable_triangle.
  - apply (bool_decide_unpack _). vm_compute. reflexivity.
  - exists g'. split; [done|]. split; [exact Hvc|]. split; [exact Hec|].
    rewrite Hinfo by discriminate. vm_compute. reflexivity.
Defined.

Lemma addEdge_self_loop_witness :
  ∃ g', addEdge 1 1 7%float triangle = (Ret tt, g') ∧
    edgeCount g' = 4 ∧ edgeInfo 1 1 g' = Ret 7%float.
Proof.
  destruct (addEdge_self_loop 1 7%float triangle) as (g' & Hrun & Hec & _ & Hinfo).
  - exact reachable_triangle.
  - apply (bool_decide_unpack _). vm_compute. reflexivity.
  - apply (bool_decide_unpack _). vm_compute. reflexivity.
  - exists g'. split; [done|]. split; [exact Hec|done].
Defined.

Lemma copy_is_independent_witness :
  ∃ gB, (Store.copy_constructor 2%positive 1%positive one_graph).2 !! 2%positive = Some gB ∧
    vertices gB = [1; 2; 3] ∧ edgeCount gB = 3 ∧
    Store.run 2%positive [AddVertex 9 tt; RemoveVertex 1]
      (Store.copy_constructor 2%positive 1%positive one_graph).2 !! 1%positive
      = Some triangle ∧
    Store.run 1%positive [AddVertex 9 tt; RemoveVertex 1]
      (Store.copy_constructor 2%positive 1%positive one_graph).2 !! 2%positive
      = Some gB.
Proof.
  destruct (copy_is_independent 1%positive 2%positive triangle
              [AddVertex 9 tt; RemoveVertex 1] one_graph
              (Store.copy_constructor 2%positive 1%positive one_graph).2
              (Store.copy_constructor 2%positive 1%positive one_graph).1)
    as (_ & gB & Hb & HrunB & HrunA & Hcontent).
  - discriminate.
  - apply lookup_singleton_eq.
  - left. symmetry. apply surjective_pairing.
  - destruct (Hcontent reachable_triangle) as (_ & _ & Hv & _ & _ & Hec).
    exists gB. split; [exact Hb|]. split; [exact Hv|]. split; [exact Hec|].
    split; [exact HrunB|exact HrunA].
Defined.

Lemma move_leaves_stale_counts_witness :
  ∃ g, (Store.construct_move 2%positive 1%positive one_graph).2 !! 1%positive = Some g ∧
    vertices g = [] ∧ vertexCount g = 3 ∧ ¬ invariants g.
Proof.
  destruct (move_leaves_stale_counts 1%positive 2%positive triangle one_graph
              (Store.construct_move 2%positive 1%positive one_graph).2)
    as (_ & g & Ha & Hv & _ & Hvc & _ & _ & Hbad).
  - vm_compute. reflexivity.
  - discriminate.
  - apply lookup_singleton_eq.
  - left. reflexivity.
  - exists g. split; [exact Ha|]. split; [exact Hv|]. split; [exact Hvc|exact Hbad].
Defined.

Lemma isStronglyConnected_correct_witness :
  ∃ b, isStronglyConnected cycle = Ret b ∧ (b = true ↔ strongly_connected cycle).
Proof.
  destruct (isStronglyConnected_correct cycle reachable_cycle) as (b & Hrun & Hiff & _).
  by exists b.
Defined.

Lemma findShortestPaths_start_unchecked_witness :
  findShortestPaths 9 id triangle = Undefined ∧
  ∃ P, findShortestPaths 1 id triangle = Ret P.
Proof.
  destruct (findShortestPaths_start_unchecked 9 id triangle reachable_triangle) as [Habsent _].
  destruct (findShortestPaths_start_unchecked 1 id triangle reachable_triangle) as [_ Hpresent].
  split.
  - apply Habsent. apply (bool_decide_unpack _). vm_compute. reflexivity.
  - apply Hpresent. apply (bool_decide_unpack _). vm_compute. reflexivity.
Defined.

Lemma findShortestPaths_predecessors_witness :
  ∃ P, findShortestPaths 1 (λ _, 0%float) triangle = Ret P ∧
    size P = 3%nat ∧ P !! 1 = Some 1 ∧
    self_exactly_when_start_or_unreachable triangle 1 P.
Proof.
  destruct (findShortestPaths_predecessors 1 (λ _, 0%float) triangle)
    as (P & Hrun & Hsize & _ & Hstart & _ & _ & Hexact).
  - exact reachable_triangle.
  - apply (bool_decide_unpack _). vm_compute. reflexivity.
  - intros ei. reflexivity.
  - exists P. split; [done|]. split; [|split; [done|]].
    + apply Nat2Z.inj. rewrite Hsize. vm_compute. reflexivity.
    + apply Hexact, zero_weights_tame.
Defined.

Lemma addVertex_then_vertexInfo_witness :
  ∃ g', addVertex 4 tt triangle = (Ret tt, g') ∧
    vertexInfo 4 g' = Ret tt ∧ vertexCount g' = 4.
Proof.
  destruct (addVertex_then_vertexInfo 4 tt triangle) as (g' & Hrun & Hinfo & Hvc & _).
  - exact reachable_triangle.
  - apply (bool_decide_unpack _). vm_compute. reflexivity.
  - exists g'. split; [done|]. split; [done|exact Hvc].
Defined.

Lemma addVertex_duplicate_witness :
  ∃ reason, addVertex 2 tt triangle = (Throw (DigraphException reason), triangle).
Proof.
  apply addVertex_duplicate.
  - exact reachable_triangle.
  - apply (bool_decide_unpack _). vm_compute. reflexivity.
Defined.

Lemma queries_on_absent_witness :
  (∃ reason, edgeInfo 1 7 triangle = Throw (DigraphException reason)) ∧
  (∃ reason, edgeCount_of 7 triangle = Throw (DigraphException reason)) ∧
  edgeInfo 2 1 triangle = Throw (DigraphException "No such edge exist").
Proof.
  destruct (queries_on_absent 1 7 triangle reachable_triangle) as (Hinfo & _ & _).
  destruct (queries_on_absent 7 7 triangle reachable_triangle) as (_ & Hcount & _).
  destruct (queries_on_absent 2 1 triangle reachable_triangle) as (_ & _ & Hedge).
  split_and!.
  - apply Hinfo. right. apply (bool_decide_unpack _). vm_compute. reflexivity.
  - apply Hcount. apply (bool_decide_unpack _). vm_compute. reflexivity.
  - apply Hedge; apply (bool_decide_unpack _); vm_compute; reflexivity.
Defined.

Lemma construct_copy_content_witness :
  ∃ gB, Store.construct_copy 2%positive 1%positive one_graph
          = (Ret tt, <[2%positive := gB]> one_graph) ∧
    vertices gB = vertices triangle ∧ edgeCount gB = edgeCount triangle.
Proof.
  destruct (construct_copy_content 1%positive 2%positive triangle one_graph)
    as (gB & Hrun & _ & Hv & _ & _ & Hec).
  - exact reachable_triangle.
  - apply lookup_singleton_eq.
  - exists gB. split; [done|]. split; [done|exact Hec].
Defined.

Lemma addEdge_then_edgeInfo_witness :
  ∃ g', addEdge 2 1 9%float triangle = (Ret tt, g') ∧
    edgeInfo 2 1 g' = Ret 9%float ∧ edgeCount g' = 4 ∧
    Digraph_edges g' = [(1, 2); (1, 3); (3, 2); (2, 1)] ∧
    edgeInfo 1 3 g' = Ret 2%float.
Proof.
  destruct (addEdge_then_edgeInfo 2 1 9%float triangle)
    as (g' & Hrun & Hinfo & Hec & _ & _ & He & _ & Hother & _).
  - exact reachable_triangle.
  - apply (bool_decide_unpack _). vm_compute. reflexivity.
  - apply (bool_decide_unpack _). vm_compute. reflexivity.
  - apply (bool_decide_unpack _). vm_compute. reflexivity.
  - exists g'. split; [done|]. split; [done|]. split; [exact Hec|]. split; [exact He|].
    rewrite Hother by discriminate. vm_compute. reflexivity.
Defined.

Lemma addEdge_errors_witness :
  addEdge 7 8 0%float triangle = (Throw (DigraphException "Vertex 7not exist"), triangle) ∧
  addEdge 1 8 0%float triangle = (Throw (DigraphException "Vertex 8not exist"), triangle) ∧
  addEdge 1 2 0%float triangle = (Throw (DigraphException "Edge exist"), triangle).
Proof.
  destruct (addEdge_errors 7 8 0%float triangle reachable_triangle) as (Hfrom & _ & _).
  destruct (addEdge_errors 1 8 0%float triangle reachable_triangle) as (_ & Hto & _).
  destruct (addEdge_errors 1 2 0%float triangle reachable_triangle) as (_ & _ & Hedge).
  split_and!.
  - apply Hfrom. apply (bool_decide_unpack _). vm_compute. reflexivity.
  - apply Hto; apply (bool_decide_unpack _); vm_compute; reflexivity.
  - apply Hedge; apply (bool_decide_unpack _); vm_compute; reflexivity.
Defined.

Lemma removeEdge_then_edgeInfo_witness :
  ∃ g', removeEdge 1 3 triangle = (Ret tt, g') ∧
    edgeInfo 1 3 g' = Throw (DigraphException "No such edge exist") ∧
    edgeCount g' = 2 ∧ Digraph_edges g' = [(1, 2); (3, 2)] ∧
    edgeInfo 1 2 g' = Ret 5%float.
Proof.
  destruct (removeEdge_then_edgeInfo 1 3 triangle)
    as (g' & Hrun & Hinfo & Hec & _ & _ & He & _ & Hother & _).
  - exact reachable_triangle.
  - apply (bool_decide_unpack _). vm_compute. reflexivity.
  - exists g'. split; [done|]. split; [done|]. split; [exact Hec|]. split; [exact He|].
    rewrite Hother by discriminate. vm_compute. reflexivity.
Defined.

Lemma removeEdge_errors_witness :
  removeEdge 7 1 triangle = (Throw (DigraphException "Vertex 7not exist"), triangle) ∧
  removeEdge 1 7 triangle = (Throw (DigraphException "Vertex 7not exist"), triangle) ∧
  removeEdge 2 1 triangle = (Throw (DigraphException "No such edge exist"), triangle).
Proof.
  destruct (removeEdge_errors 7 1 triangle reachable_triangle) as (Hfrom & _ & _).
  destruct (removeEdge_errors 1 7 triangle reachable_triangle) as (_ & Hto & _).
  destruct (removeEdge_errors 2 1 triangle reachable_triangle) as (_ & _ & Hedge).
  split_and!.
  - apply Hfrom. apply (bool_decide_unpack _). vm_compute. reflexivity.
  - apply Hto; apply (bool_decide_unpack _); vm_compute; reflexivity.
  - apply Hedge; apply (bool_decide_unpack _); vm_compute; reflexivity.
Defined.

Lemma addEdge_then_removeEdge_witness :
  removeEdge 2 1 (addEdge 2 1 9%float triangle).2 = (Ret tt, triangle).
Proof.
  apply (addEdge_then_removeEdge 2 1 9%float triangle).
  - exact reachable_triangle.
  - vm_compute. reflexivity.
Defined.

Lemma addVertex_keeps_rest_witness :
  ∃ g', addVertex 4 tt triangle = (Ret tt, g') ∧
    vertices g' = [1; 2; 3; 4] ∧ edges_of 4 g' = Ret [] ∧
    edgeInfo 1 3 g' = Ret 2%float.
Proof.
  destruct (addVertex_keeps_rest 4 tt triangle)
    as (g' & Hrun & Hv & _ & Hout & _ & _ & Hother).
  - exact reachable_triangle.
  - apply (bool_decide_unpack _). vm_compute. reflexivity.
  - exists g'. split; [done|]. split; [exact Hv|]. split; [done|].
    rewrite Hother by discriminate. vm_compute. reflexivity.
Defined.

Lemma removeVertex_listing_witness :
  ∃ g', removeVertex 1 triangle = (Ret tt, g') ∧
    vertices g' = [2; 3] ∧ Digraph_edges g' = [(3, 2)].
Proof.
  destruct (removeVertex_listing 1 triangle reachable_triangle)
    as (g' & Hrun & Hv & _ & He).
  exists g'. split; [done|]. split; [exact Hv|exact He].
Defined.

Lemma removeVertex_twice_witness :
  ∃ g', removeVertex 1 triangle = (Ret tt, g') ∧ removeVertex 1 g' = (Ret tt, g').
Proof. apply removeVertex_twice. exact reachable_triangle. Defined.

Lemma addVertex_then_removeVertex_witness :
  ∃ g2, removeVertex 4 (addVertex 4 tt triangle).2 = (Ret tt, g2) ∧
    m g2 = m triangle ∧ vertices g2 = vertices triangle ∧
    edgeCount g2 = edgeCount triangle.
Proof.
  destruct (addVertex_then_removeVertex 4 tt triangle (addVertex 4 tt triangle).2)
    as (g2 & Hrun & Hm & Hv & _ & _ & Hec).
  - exact reachable_triangle.
  - vm_compute. reflexivity.
  - by exists g2.
Defined.

Lemma copy_of_copy_witness :
  ∃ c, Digraph_copy triangle = (Ret tt, c) ∧ Digraph_copy c = (Ret tt, c).
Proof.
  destruct (copy_of_copy triangle reachable_triangle) as (c & Hrun & _ & Hagain).
  by exists c.
Defined.

Lemma assign_content_witness :
  Store.assign 2%positive 1%positive two_graphs
    = Store.construct_copy 2%positive 1%positive two_graphs ∧
  Store.assign 1%positive 1%positive two_graphs = (Ret tt, two_graphs).
Proof.
  destruct (assign_content 1%positive 2%positive triangle (Digraph_copy triangle).2 two_graphs)
    as [Hcopy Hself].
  - exact reachable_triangle.
  - vm_compute. reflexivity.
  - vm_compute. reflexivity.
  - split; [|exact Hself]. apply Hcopy. discriminate.
Defined.

Lemma edges_of_agrees_witness :
  ∃ l, edges_of 1 triangle = Ret l ∧ edgeCount_of 1 triangle = Ret (Z.of_nat (length l)) ∧
    NoDup l.
Proof.
  destruct (edges_of_agrees 1 triangle) as (l & Hrun & Hcount & Hnd & _).
  - exact reachable_triangle.
  - apply (bool_decide_unpack _). vm_compute. reflexivity.
  - by exists l.
Defined.

Lemma listings_consistent_witness :
  NoDup (vertices triangle) ∧ vertexCount triangle = 3 ∧ edgeCount triangle = 3.
Proof.
  destruct (listings_consistent triangle reachable_triangle) as (Hnd & Hvc & Hec & _).
  split; [exact Hnd|]. split; [exact Hvc|exact Hec].
Defined.

Lemma existence_checks_agree_witness :
  findVertexNotExist 1 triangle = Throw (DigraphException "Vertex 1 exist") ∧
  VertexExist 7 triangle = Throw (DigraphException "Vertex 7not exist") ∧
  findVertex 7 triangle = Throw (DigraphException "Vertex 7not exist").
Proof.
  destruct (existence_checks_agree 1 triangle reachable_triangle) as [Hin _].
  destruct (existence_checks_agree 7 triangle reachable_triangle) as [_ Hout].
  destruct Hin as (_ & _ & Hnot); [apply (bool_decide_unpack _); vm_compute; reflexivity|].
  destruct Hout as (Hexist & Hfind & _);
    [apply (bool_decide_unpack _); vm_compute; reflexivity|].
  split; [exact Hnot|]. split; [exact Hexist|exact Hfind].
Defined.

Lemma indexOf_first_witness :
  ∃ k : nat, indexOf 3 [1; 3; 2; 3] = Z.of_nat k ∧ (k < 4)%nat.
Proof.
  destruct (indexOf_first 3 [1; 3; 2; 3]) as [_ Hin].
  destruct Hin as (k & Hk & Hlt & _).
  - apply (bool_decide_unpack _). vm_compute. reflexivity.
  - exists k. split; [exact Hk|exact Hlt].
Defined.

Lemma DFTr_leaves_unreachable_witness :
  (∃ rest, DFTr 3 triangle 3 (vertices triangle) = Ret rest ∧
     ∀ z, z ∈ rest ↔ z ∈ vertices triangle ∧ ¬ path triangle 3 z) ∧
  DFTr 4 triangle 7 (vertices triangle) = Undefined.
Proof.
  destruct (DFTr_leaves_unreachable 3 triangle 3 reachable_triangle) as [Hin Hout].
  split.
  - destruct Hin as (rest & Hrun & _ & Hiff).
    + apply (bool_decide_unpack _). vm_compute. reflexivity.
    + vm_compute. lia.
    + by exists rest.
  - apply Hout. apply (bool_decide_unpack _). vm_compute. reflexivity.
Defined.

Lemma addEdge_keeps_strongly_connected_witness :
  isStronglyConnected (addEdge 1 3 tt cycle).2 = Ret true.
Proof.
  apply addEdge_keeps_strongly_connected.
  - exact reachable_cycle.
  - vm_compute. reflexivity.
Defined.

Lemma addVertex_breaks_connectivity_witness :
  ∃ g', addVertex 4 tt cycle = (Ret tt, g') ∧ isStronglyConnected g' = Ret false.
Proof.
  apply addVertex_breaks_connectivity.
  - exact reachable_cycle.
  - apply (bool_decide_unpack _). vm_compute. reflexivity.
  - vm_compute. reflexivity.
Defined.

Lemma findShortestPaths_any_weights_witness :
  ∃ P, findShortestPaths 1 (λ _, (-1)%float) cycle = Ret P ∧
    size P = 3%nat ∧ ∀ n p, P !! n = Some p → p ∈ vertices cycle.
Proof.
  destruct (findShortestPaths_any_weights 1 (λ _, (-1)%float) cycle)
    as (P & Hrun & Hsize & _ & Hval & _).
  - exact reachable_cycle.
  - apply (bool_decide_unpack _). vm_compute. reflexivity.
  - exists P. split; [done|]. split; [|exact Hval].
    apply Nat2Z.inj. rewrite Hsize. vm_compute. reflexivity.
Defined.

Lemma calls_end_as_declared_witness :
  ((perform (RemoveEdge 2 1) triangle).1 = Ret tt ∨
   ∃ reason, (perform (RemoveEdge 2 1) triangle).1 = Throw (DigraphException reason)) ∧
  (Digraph_copy triangle).1 = Ret tt.
Proof.
  destruct (calls_end_as_declared triangle reachable_triangle)
    as (Hop & _ & _ & _ & _ & _ & Hcopy).
  split; [apply Hop|exact Hcopy].
Defined.

Lemma edge_count_bound_witness :
  0 ≤ edgeCount triangle ≤ vertexCount triangle * vertexCount triangle.
Proof.
  destruct (edge_count_bound triangle reachable_triangle) as [Hbound _]. exact Hbound.
Defined.

